(** * Tournament engine, tournament store and storage facade of the iddqd bot

    A shallow embedding of
      - core/redis.ts and core/disk.ts      (the two backing clients),
      - services/storage.ts                 (the storage facade),
      - services/gameStateManager.ts        (the game-state manager),
      - features/tournament/storage.ts      (the tournament store),
      - features/tournament/game.ts         (the tournament engine),
    followed by the vocabulary in which the properties are stated, a few
    example worlds, and the properties of the specification themselves.

    Conventions of the embedding.
      - JavaScript numbers that the program only uses as integers (roll
        values, counters, epoch milliseconds) are [Z].  The elimination
        percentage and the random source are rationals [Q], as every finite
        double is one; the product behind a draw and the quotient and the
        product behind an elimination count are rounded as the processor
        rounds them, to the nearest double, ties to even ([round_double]).
        A result beyond the largest double is outside the model.  The
        average of the statistics is computed exactly.
      - A string that reaches a store is a [Text]: either the output of
        [JSON.stringify] on a document, or a text on which [JSON.parse]
        throws.  [JSON.parse (JSON.stringify d)] gives [d] back.
      - Asynchronous functions are computations in the monad [M]: they
        thread the [World] (both backing stores, the clock, the random
        source, the record of issued commands) and end in a value or in a
        thrown error.  [await] is sequencing.
      - A time to live is part of the command that sets it; within a run the
        entries of the cache do not expire.
      - A file is the list of the chunks written to it, under its path
        relative to the disk root. *)

From Stdlib Require Import ZArith QArith Qround Qpower Qabs List String Ascii Lia.
From Stdlib Require Import Lqa.
From Stdlib Require Import Sorting.Sorted Sorting.Permutation.
From stdpp Require Import gmap strings list fin_maps pretty sorting.

Local Open Scope string_scope.
Local Open Scope list_scope.
Local Open Scope Z_scope.

(** ** Data model (types/Tournament.ts, services/gameStateManager.ts) *)

Inductive TournamentStatus :=
| SETUP | ACTIVE | ROUND_ENDING | COMPLETED | CANCELLED.

#[global] Instance TournamentStatus_eq_dec : EqDecision TournamentStatus.
Proof. solve_decision. Defined.

Record TournamentConfig := mkConfig {
  cfg_id : string;
  cfg_name : string;
  cfg_maxRoll : Z;
  cfg_rollLimit : Z;
  cfg_deadline : Z;
  cfg_currentRound : Z;
  cfg_status : TournamentStatus;
  cfg_messageId : option string;
  cfg_channelId : string;
  cfg_createdAt : Z;
  cfg_updatedAt : Z }.

Record UserRoll := mkRoll {
  ur_userId : string;
  ur_username : string;
  ur_roll : Z;
  ur_timestamp : Z;
  ur_rollsUsed : Z }.

Record RoundData := mkRound {
  rd_roundNumber : Z;
  rd_startTime : Z;
  rd_endTime : option Z;
  rd_participants : list string;
  rd_eliminated : list string;
  rd_cutoffRoll : option Z }.

Record TournamentStats := mkStats {
  ts_totalParticipants : Z;
  ts_activeParticipants : Z;
  ts_eliminatedParticipants : Z;
  ts_totalRolls : Z;
  ts_averageRoll : Q;
  ts_highestRoll : option UserRoll;
  ts_lowestRoll : option UserRoll }.

(** The open [Record<string, any>] bag of a game. *)
#[local] Unset Elimination Schemes.
Inductive JVal :=
| JNull
| JBool (b : bool)
| JNum (z : Z)
| JStr (s : string)
| JArr (items : list JVal)
| JObj (fields : list (string * JVal)).
#[local] Set Elimination Schemes.

Inductive GameStatus := Pending | Active | Completed | Cancelled.

Record GameState := mkGame {
  gs_gameId : string;
  gs_type : string;
  gs_status : GameStatus;
  gs_players : list string;
  gs_startedAt : option string;
  gs_endedAt : option string;
  gs_data : list (string * JVal) }.

(** ** Serialised documents *)

(** The objects this program hands to [JSON.stringify]. *)
Inductive Doc :=
| DConfig (c : TournamentConfig)
| DRoll (r : UserRoll)
| DRound (r : RoundData)
| DStats (s : TournamentStats)
| DGame (g : GameState)
| DEvent (timestamp : string) (event : list (string * JVal)).

(** A stored string.  [Json d] is [JSON.stringify d]; [Corrupt s] is any
    text [s] that is not JSON; [Newline t] is [t + '\n']. *)
Inductive Text :=
| Json (d : Doc)
| Corrupt (s : string)
| Newline (t : Text).

(** JavaScript truthiness of a string: only the empty string is falsy. *)
Definition truthy (t : Text) : bool :=
  match t with
  | Corrupt "" => false
  | _ => true
  end.

(** ** The world the program runs in *)

(** What a Redis key holds: a string, or a hash of field/value pairs (in the
    order [HGETALL] reports them). *)
Inductive RVal :=
| RString (t : Text)
| RHash (h : list (string * Text)).

Inductive Level := LDebug | LInfo | LWarn | LError.

(** Commands sent to the backing stores and lines sent to the logger. *)
Inductive Event :=
| CmdGet (key : string)
| CmdSet (key : string) (value : Text)
| CmdSetex (key : string) (ttl : Z) (value : Text)
| CmdDel (key : string)
| CmdHset (key field : string) (value : Text)
| CmdHget (key field : string)
| CmdHgetall (key : string)
| CmdKeys (pattern : string)
| FsMkdirFor (path : string)
| FsWriteFile (path : string) (data : Text)
| FsAppendFile (path : string) (data : Text)
| Log (level : Level) (msg : string).

(** One reading of the system clock: epoch milliseconds, and the same
    instant as [toISOString] prints it. *)
Record DateReading := mkDate { ms : Z; iso : string }.

Record World := mkWorld {
  redisEnabled : bool;         (* REDIS_ENABLED is not 'false': there is a client *)
  redisFaults : list bool;     (* fate of the next commands: true = rejects *)
  kv : gmap string RVal;       (* the Redis key space *)
  diskFaults : list bool;      (* fate of the next file operations *)
  disk : gmap string (list Text); (* path -> chunks written, oldest first *)
  now : DateReading;           (* the next clock reading *)
  later : list DateReading;    (* the readings after it *)
  random : list Q;             (* the next values of Math.random() *)
  trace : list Event }.        (* commands and log lines, newest first *)

Definition push (e : Event) (w : World) : World :=
  mkWorld (redisEnabled w) (redisFaults w) (kv w) (diskFaults w) (disk w)
          (now w) (later w) (random w) (e :: trace w).

Definition set_kv (f : gmap string RVal -> gmap string RVal) (w : World) : World :=
  mkWorld (redisEnabled w) (redisFaults w) (f (kv w)) (diskFaults w) (disk w)
          (now w) (later w) (random w) (trace w).

Definition set_disk (f : gmap string (list Text) -> gmap string (list Text))
    (w : World) : World :=
  mkWorld (redisEnabled w) (redisFaults w) (kv w) (diskFaults w) (f (disk w))
          (now w) (later w) (random w) (trace w).

Definition set_redisFaults (fs : list bool) (w : World) : World :=
  mkWorld (redisEnabled w) fs (kv w) (diskFaults w) (disk w)
          (now w) (later w) (random w) (trace w).

Definition set_diskFaults (fs : list bool) (w : World) : World :=
  mkWorld (redisEnabled w) (redisFaults w) (kv w) fs (disk w)
          (now w) (later w) (random w) (trace w).

(** ** The monad of asynchronous, throwing computations *)

Inductive Err :=
| RedisNotAvailable   (* Error('Redis client not available') *)
| ConnectionFault     (* the client rejected a command *)
| WrongType           (* WRONGTYPE: the key holds the other kind of value *)
| SyntaxError         (* JSON.parse *)
| FsFault             (* a rejected file-system call *)
| TypeError           (* a property of undefined was read *)
| TypeConfusion.      (* a parsed document has not the shape its cast
                         asserts; the source would go on with undefined
                         fields, which this development does not follow *)

Inductive outcome (A : Type) :=
| Ok (a : A)
| Throw (e : Err).
Arguments Ok {A} a.
Arguments Throw {A} e.

Definition M (A : Type) : Type := World -> outcome A * World.

Definition ret {A} (a : A) : M A := fun w => (Ok a, w).

Definition throw {A} (e : Err) : M A := fun w => (Throw e, w).

Definition bind {A B} (m : M A) (k : A -> M B) : M B :=
  fun w => match m w with
           | (Ok a, w') => k a w'
           | (Throw e, w') => (Throw e, w')
           end.

(** [try { m } catch (error) { h error }] *)
Definition try_catch {A} (m : M A) (h : Err -> M A) : M A :=
  fun w => match m w with
           | (Ok a, w') => (Ok a, w')
           | (Throw e, w') => h e w'
           end.

Notation "x <- m ;; k" := (bind m (fun x => k))
  (at level 100, m at next level, right associativity).
Notation "m ;;; k" := (bind m (fun _ => k))
  (at level 100, right associativity).

Definition logger (l : Level) (msg : string) : M unit :=
  fun w => (Ok tt, push (Log l msg) w).

(** [Date.now()] and [new Date()]: both read the clock, which then moves on
    to its next reading (and stands still once the schedule is used up). *)
Definition new_Date : M DateReading :=
  fun w =>
    let w' := match later w with
              | [] => w
              | d :: ds =>
                  mkWorld (redisEnabled w) (redisFaults w) (kv w) (diskFaults w)
                          (disk w) d ds (random w) (trace w)
              end in
    (Ok (now w), w').

Definition Date_now : M Z := d <- new_Date ;; ret (ms d).

(** [Math.random()]: the next value of the source, 0 once it is used up. *)
Definition Math_random : M Q :=
  fun w =>
    match random w with
    | [] => (Ok 0%Q, w)
    | r :: rs =>
        (Ok r, mkWorld (redisEnabled w) (redisFaults w) (kv w) (diskFaults w)
                       (disk w) (now w) (later w) rs (trace w))
    end.

Definition JSON_stringify (d : Doc) : Text := Json d.

Fixpoint JSON_parse_text (t : Text) : outcome Doc :=
  match t with
  | Json d => Ok d
  | Corrupt _ => Throw SyntaxError
  | Newline t' => JSON_parse_text t'   (* trailing white space is legal *)
  end.

Definition JSON_parse (t : Text) : M Doc :=
  fun w => (JSON_parse_text t, w).

(** ** The Redis client (core/redis.ts, ioredis) *)

(** Every command is recorded, then meets its fate. *)
Definition send (e : Event) : M unit :=
  fun w =>
    let w1 := push e w in
    match redisFaults w1 with
    | [] => (Ok tt, w1)
    | false :: fs => (Ok tt, set_redisFaults fs w1)
    | true :: fs => (Throw ConnectionFault, set_redisFaults fs w1)
    end.

Definition client_get (key : string) : M (option Text) :=
  send (CmdGet key) ;;;
  fun w => match kv w !! key with
           | None => (Ok None, w)
           | Some (RString t) => (Ok (Some t), w)
           | Some (RHash _) => (Throw WrongType, w)
           end.

Definition client_set (key : string) (value : Text) : M unit :=
  send (CmdSet key value) ;;;
  fun w => (Ok tt, set_kv (insert key (RString value)) w).

Definition client_setex (key : string) (ttl : Z) (value : Text) : M unit :=
  send (CmdSetex key ttl value) ;;;
  fun w => (Ok tt, set_kv (insert key (RString value)) w).

Definition client_del (key : string) : M unit :=
  send (CmdDel key) ;;;
  fun w => (Ok tt, set_kv (delete key) w).

Fixpoint hash_get (field : string) (h : list (string * Text)) : option Text :=
  match h with
  | [] => None
  | (f, v) :: h' => if decide (f = field) then Some v else hash_get field h'
  end.

(** A field that exists keeps its place; a new one goes last. *)
Fixpoint hash_set (field : string) (value : Text) (h : list (string * Text))
  : list (string * Text) :=
  match h with
  | [] => [(field, value)]
  | (f, v) :: h' =>
      if decide (f = field) then (field, value) :: h'
      else (f, v) :: hash_set field value h'
  end.

Definition client_hset (key field : string) (value : Text) : M unit :=
  send (CmdHset key field value) ;;;
  fun w => match kv w !! key with
           | None => (Ok tt, set_kv (insert key (RHash [(field, value)])) w)
           | Some (RHash h) =>
               (Ok tt, set_kv (insert key (RHash (hash_set field value h))) w)
           | Some (RString _) => (Throw WrongType, w)
           end.

Definition client_hget (key field : string) : M (option Text) :=
  send (CmdHget key field) ;;;
  fun w => match kv w !! key with
           | None => (Ok None, w)
           | Some (RHash h) => (Ok (hash_get field h), w)
           | Some (RString _) => (Throw WrongType, w)
           end.

Definition client_hgetall (key : string) : M (list (string * Text)) :=
  send (CmdHgetall key) ;;;
  fun w => match kv w !! key with
           | None => (Ok [], w)
           | Some (RHash h) => (Ok h, w)
           | Some (RString _) => (Throw WrongType, w)
           end.

(** Glob patterns of [KEYS]: [*], [?], a backslash escape, literal
    characters.  (Bracket classes do not occur in the patterns this program
    builds from its constant prefixes and are read literally here.) *)
Definition backslash : ascii := ascii_of_nat 92.

Fixpoint glob (p s : list ascii) : bool :=
  match p with
  | [] => match s with [] => true | _ => false end
  | c :: p' =>
      if Ascii.eqb c "*" then
        (fix star (s : list ascii) : bool :=
           glob p' s || match s with
                        | [] => false
                        | _ :: s' => star s'
                        end) s
      else if Ascii.eqb c "?" then
        match s with [] => false | _ :: s' => glob p' s' end
      else if Ascii.eqb c backslash then
        match p', s with
        | e :: p'', d :: s' => Ascii.eqb e d && glob p'' s'
        | [], d :: s' => Ascii.eqb c d && match s' with [] => true | _ => false end
        | _, [] => false
        end
      else
        match s with
        | [] => false
        | d :: s' => Ascii.eqb c d && glob p' s'
        end
  end.

Definition glob_match (pattern key : string) : bool :=
  glob (list_ascii_of_string pattern) (list_ascii_of_string key).

Definition client_keys (pattern : string) : M (list string) :=
  send (CmdKeys pattern) ;;;
  fun w => (Ok (filter (fun k => glob_match pattern k = true)
                       (map fst (map_to_list (kv w)))), w).

(** [getRedisClient()]: the singleton client, or null. *)
Definition getRedisClient : M bool :=
  fun w =>
    if redisEnabled w then (Ok true, w)
    else (Ok false,
          push (Log LInfo "Redis is disabled via REDIS_ENABLED environment variable") w).

(** ** The tournament store (features/tournament/storage.ts) *)

Definition TOURNAMENT_PREFIX : string := "tournament:".
Definition TOURNAMENT_ROLLS_PREFIX : string := "tournament:rolls:".
Definition TOURNAMENT_ROUND_PREFIX : string := "tournament:round:".
Definition TOURNAMENT_STATS_PREFIX : string := "tournament:stats:".

Definition requireRedisClient : M unit :=
  client <- getRedisClient ;;
  if client then ret tt else throw RedisNotAvailable.

(** The getters end in [JSON.parse(data) as T].  The cast is erased at run
    time, so they return the parsed document, whatever its shape. *)

Definition saveTournamentConfig (config : TournamentConfig) : M unit :=
  requireRedisClient ;;;
  let key := TOURNAMENT_PREFIX +:+ cfg_id config in
  try_catch
    (client_set key (JSON_stringify (DConfig config)) ;;;
     logger LInfo "Tournament config saved")
    (fun error =>
       logger LError "Failed to save tournament config" ;;; throw error).

Definition getTournamentConfig (tournamentId : string) : M (option Doc) :=
  requireRedisClient ;;;
  let key := TOURNAMENT_PREFIX +:+ tournamentId in
  try_catch
    (data <- client_get key ;;
     match data with
     | None => ret None
     | Some t =>
         if truthy t then d <- JSON_parse t ;; ret (Some d) else ret None
     end)
    (fun error =>
       logger LError "Failed to get tournament config" ;;; ret None).

Definition deleteTournamentConfig (tournamentId : string) : M unit :=
  requireRedisClient ;;;
  let key := TOURNAMENT_PREFIX +:+ tournamentId in
  try_catch
    (client_del key ;;;
     logger LInfo "Tournament config deleted")
    (fun error =>
       logger LError "Failed to delete tournament config" ;;; throw error).

Definition saveUserRoll (tournamentId userId : string) (roll : UserRoll)
  : M unit :=
  requireRedisClient ;;;
  let key := TOURNAMENT_ROLLS_PREFIX +:+ tournamentId in
  try_catch
    (client_hset key userId (JSON_stringify (DRoll roll)) ;;;
     logger LInfo "User roll saved")
    (fun error =>
       logger LError "Failed to save user roll" ;;; throw error).

Definition getUserRoll (tournamentId userId : string) : M (option Doc) :=
  requireRedisClient ;;;
  let key := TOURNAMENT_ROLLS_PREFIX +:+ tournamentId in
  try_catch
    (data <- client_hget key userId ;;
     match data with
     | None => ret None
     | Some t =>
         if truthy t then d <- JSON_parse t ;; ret (Some d) else ret None
     end)
    (fun error =>
       logger LError "Failed to get user roll" ;;; ret None).

(** [for (const value of Object.values(data)) rolls.push(JSON.parse(value))] *)
Fixpoint parse_each (values : list Text) : M (list Doc) :=
  match values with
  | [] => ret []
  | value :: rest =>
      d <- JSON_parse value ;;
      ds <- parse_each rest ;;
      ret (d :: ds)
  end.

Definition getAllUserRolls (tournamentId : string) : M (list Doc) :=
  requireRedisClient ;;;
  let key := TOURNAMENT_ROLLS_PREFIX +:+ tournamentId in
  try_catch
    (data <- client_hgetall key ;;
     parse_each (map snd data))
    (fun error =>
       logger LError "Failed to get all user rolls" ;;; ret []).

Definition deleteAllUserRolls (tournamentId : string) : M unit :=
  requireRedisClient ;;;
  let key := TOURNAMENT_ROLLS_PREFIX +:+ tournamentId in
  try_catch
    (client_del key ;;;
     logger LInfo "All user rolls deleted")
    (fun error =>
       logger LError "Failed to delete user rolls" ;;; throw error).

Definition roundKey (tournamentId : string) (roundNumber : Z) : string :=
  TOURNAMENT_ROUND_PREFIX +:+ tournamentId +:+ ":" +:+ pretty roundNumber.

Definition saveRoundData (tournamentId : string) (roundNumber : Z)
    (round : RoundData) : M unit :=
  requireRedisClient ;;;
  let key := roundKey tournamentId roundNumber in
  try_catch
    (client_set key (JSON_stringify (DRound round)) ;;;
     logger LInfo "Round data saved")
    (fun error =>
       logger LError "Failed to save round data" ;;; throw error).

Definition getRoundData (tournamentId : string) (roundNumber : Z)
  : M (option Doc) :=
  requireRedisClient ;;;
  let key := roundKey tournamentId roundNumber in
  try_catch
    (data <- client_get key ;;
     match data with
     | None => ret None
     | Some t =>
         if truthy t then d <- JSON_parse t ;; ret (Some d) else ret None
     end)
    (fun error =>
       logger LError "Failed to get round data" ;;; ret None).

(** [for (const key of keys) { const data = await client.get(key);
     if (data) out.push(JSON.parse(data)) }] *)
Fixpoint get_and_parse_each (keys : list string) : M (list Doc) :=
  match keys with
  | [] => ret []
  | key :: rest =>
      data <- client_get key ;;
      match data with
      | Some t =>
          if truthy t then
            d <- JSON_parse t ;;
            ds <- get_and_parse_each rest ;;
            ret (d :: ds)
          else get_and_parse_each rest
      | None => get_and_parse_each rest
      end
  end.

Definition saveTournamentStats (tournamentId : string)
    (stats : TournamentStats) : M unit :=
  requireRedisClient ;;;
  let key := TOURNAMENT_STATS_PREFIX +:+ tournamentId in
  try_catch
    (client_set key (JSON_stringify (DStats stats)) ;;;
     logger LInfo "Tournament stats saved")
    (fun error =>
       logger LError "Failed to save tournament stats" ;;; throw error).

Definition getTournamentStats (tournamentId : string) : M (option Doc) :=
  requireRedisClient ;;;
  let key := TOURNAMENT_STATS_PREFIX +:+ tournamentId in
  try_catch
    (data <- client_get key ;;
     match data with
     | None => ret None
     | Some t =>
         if truthy t then d <- JSON_parse t ;; ret (Some d) else ret None
     end)
    (fun error =>
       logger LError "Failed to get tournament stats" ;;; ret None).

Definition listActiveTournaments : M (list Doc) :=
  requireRedisClient ;;;
  let pattern := TOURNAMENT_PREFIX +:+ "*" in
  try_catch
    (keys <- client_keys pattern ;;
     get_and_parse_each keys)
    (fun error =>
       logger LError "Failed to list active tournaments" ;;; ret []).

(** ** Arrays *)

Section ArraySort.
Context {A : Type}.
(** The comparator of [Array.prototype.sort]: negative when its first
    argument goes first. *)
Variable compare : A -> A -> Z.

Fixpoint insert_stable (x : A) (l : list A) : list A :=
  match l with
  | [] => [x]
  | y :: l' =>
      if compare y x <? 0 then y :: insert_stable x l' else x :: y :: l'
  end.

(** The sort is stable: an element only moves past those that the
    comparator puts strictly before it. *)
Definition Array_sort (l : list A) : list A :=
  foldr insert_stable [] l.
End ArraySort.

(** [l.slice(start, end)], with JavaScript's handling of negative and
    out-of-range indices; [end_ = None] is the one-argument form. *)
Definition slice {A} (start : Z) (end_ : option Z) (l : list A) : list A :=
  let len := Z.of_nat (length l) in
  let relative z := if z <? 0 then Z.max (len + z) 0 else Z.min z len in
  let k := relative start in
  let final := match end_ with None => len | Some e => relative e end in
  take (Z.to_nat (Z.max (final - k) 0)) (drop (Z.to_nat k) l).

(** [l[i]] for an integer [i]: undefined outside the array. *)
Definition index {A} (l : list A) (i : Z) : option A :=
  if i <? 0 then None else l !! Z.to_nat i.

(** ** Numbers *)

(** A JavaScript number is an IEEE 754 double: zero, or [m * 2^e] with an
    integer [m] of at most 53 bits and [e >= -1074].  Multiplication and
    division give the double nearest to the exact result; of two doubles
    that are equally near, the one with the even [m]. *)

(** [2^e] for an exponent of either sign. *)
Definition pow2 (e : Z) : Q := (2 ^ e)%Q.

(** [floor (log2 q)] of a positive [q]. *)
Definition ilog2 (q : Q) : Z :=
  let k := Z.log2 (Qnum q) - Z.log2 (Zpos (Qden q)) in
  if Qle_bool (pow2 k) q then k else k - 1.

(** The integer nearest to [x]; of two that are equally near, the even one. *)
Definition rne (x : Q) : Z :=
  let f := Qfloor x in
  match (x - inject_Z f ?= 1 # 2)%Q with
  | Lt => f
  | Gt => f + 1
  | Eq => if Z.even f then f else f + 1
  end.

(** The exponent of the last of the 53 bits of a positive [q]; it does not
    go below that of the subnormal numbers. *)
Definition ulp_exponent (q : Q) : Z := Z.max (ilog2 q - 52) (-1074).

(** The double nearest to a positive [q]. *)
Definition nearest (q : Q) : Q :=
  let e := ulp_exponent q in (inject_Z (rne (q / pow2 e)) * pow2 e)%Q.

(** The double nearest to [q]. *)
Definition round_double (q : Q) : Q :=
  match (q ?= 0)%Q with
  | Eq => 0%Q
  | Gt => nearest q
  | Lt => (- nearest (- q))%Q
  end.

(** ** The tournament engine (features/tournament/game.ts) *)

Definition DEFAULT_ELIMINATION_PERCENTAGE : Q := 50%Q.

Record RollResult := mkRollResult {
  rr_success : bool;
  rr_roll : option UserRoll;
  rr_message : string }.

Record EndRoundResult := mkEndRoundResult {
  er_success : bool;
  er_message : string;
  er_eliminated : option (list string) }.

(** The typed code that follows a getter: it reads the fields the cast
    promised. *)
Definition as_config (d : Doc) : M TournamentConfig :=
  match d with DConfig c => ret c | _ => throw TypeConfusion end.

Definition as_roll (d : Doc) : M UserRoll :=
  match d with DRoll r => ret r | _ => throw TypeConfusion end.

Definition as_round (d : Doc) : M RoundData :=
  match d with DRound r => ret r | _ => throw TypeConfusion end.

Fixpoint as_rolls (ds : list Doc) : M (list UserRoll) :=
  match ds with
  | [] => ret []
  | d :: ds' => r <- as_roll d ;; rs <- as_rolls ds' ;; ret (r :: rs)
  end.

Fixpoint as_rounds (ds : list Doc) : M (list RoundData) :=
  match ds with
  | [] => ret []
  | d :: ds' => r <- as_round d ;; rs <- as_rounds ds' ;; ret (r :: rs)
  end.

Definition set_status (s : TournamentStatus) (updatedAt : Z)
    (c : TournamentConfig) : TournamentConfig :=
  mkConfig (cfg_id c) (cfg_name c) (cfg_maxRoll c) (cfg_rollLimit c)
           (cfg_deadline c) (cfg_currentRound c) s (cfg_messageId c)
           (cfg_channelId c) (cfg_createdAt c) updatedAt.

Definition set_currentRound (n : Z) (updatedAt : Z)
    (c : TournamentConfig) : TournamentConfig :=
  mkConfig (cfg_id c) (cfg_name c) (cfg_maxRoll c) (cfg_rollLimit c)
           (cfg_deadline c) n (cfg_status c) (cfg_messageId c)
           (cfg_channelId c) (cfg_createdAt c) updatedAt.

(** [{ ...existingRoll, rollsUsed }] *)
Definition set_rollsUsed (n : Z) (r : UserRoll) : UserRoll :=
  mkRoll (ur_userId r) (ur_username r) (ur_roll r) (ur_timestamp r) n.

Definition createTournament (name : string) (maxRoll rollLimit deadlineHours : Z)
    (channelId : string) : M TournamentConfig :=
  now <- Date_now ;;
  let deadline := now + deadlineHours * 60 * 60 * 1000 in
  let config :=
    mkConfig ("tournament-" +:+ pretty now) name maxRoll rollLimit deadline
             1 ACTIVE None channelId now now in
  saveTournamentConfig config ;;;
  let round := mkRound 1 now None [] [] None in
  saveRoundData (cfg_id config) 1 round ;;;
  logger LInfo "Tournament created" ;;;
  ret config.

Definition getTournament (tournamentId : string) : M (option Doc) :=
  getTournamentConfig tournamentId.

Definition rolled_message (rollValue rollsUsed rollLimit : Z) : string :=
  "Rolled " +:+ pretty rollValue +:+ "! (" +:+ pretty rollsUsed +:+ "/"
  +:+ pretty rollLimit +:+ " rolls used)".

Definition not_better_message (rollValue previous rollsUsed rollLimit : Z)
  : string :=
  "Rolled " +:+ pretty rollValue +:+ ", but your previous roll of "
  +:+ pretty previous +:+ " was better. (" +:+ pretty rollsUsed +:+ "/"
  +:+ pretty rollLimit +:+ " rolls used)".

Definition limit_message (rollLimit : Z) : string :=
  "You have used all " +:+ pretty rollLimit +:+ " rolls".

(** [Math.floor(u * maxRoll) + 1] *)
Definition draw (u : Q) (maxRoll : Z) : Z :=
  Qfloor (round_double (u * inject_Z maxRoll)) + 1.

Definition processUserRoll (tournamentId userId username : string)
  : M RollResult :=
  config <- getTournamentConfig tournamentId ;;
  match config with
  | None => ret (mkRollResult false None "Tournament not found")
  | Some config =>
    config <- as_config config ;;
    if negb (bool_decide (cfg_status config = ACTIVE)) then
      ret (mkRollResult false None "Tournament is not active")
    else
    now <- Date_now ;;
    if cfg_deadline config <? now then
      ret (mkRollResult false None "Tournament deadline has passed")
    else
    (* Check existing roll *)
    existing <- getUserRoll tournamentId userId ;;
    existingRoll <- match existing with
                    | None => ret None
                    | Some d => r <- as_roll d ;; ret (Some r)
                    end ;;
    if match existingRoll with
       | Some e => cfg_rollLimit config <=? ur_rollsUsed e
       | None => false
       end
    then ret (mkRollResult false None (limit_message (cfg_rollLimit config)))
    else
    (* Generate roll *)
    u <- Math_random ;;
    let rollValue := draw u (cfg_maxRoll config) in
    let rollsUsed := match existingRoll with
                     | Some e => ur_rollsUsed e + 1
                     | None => 1
                     end in
    let first_or_better :=
      (let roll := mkRoll userId username rollValue now rollsUsed in
       saveUserRoll tournamentId userId roll ;;;
       ret (mkRollResult true (Some roll)
              (rolled_message rollValue rollsUsed (cfg_rollLimit config)))) in
    (* Only save if it's better than existing roll or first roll *)
    match existingRoll with
    | None => first_or_better
    | Some e =>
        if ur_roll e <? rollValue then first_or_better
        else
          (* Update rolls used even if roll wasn't better *)
          let updatedRoll := set_rollsUsed rollsUsed e in
          saveUserRoll tournamentId userId updatedRoll ;;;
          ret (mkRollResult true (Some e)
                 (not_better_message rollValue (ur_roll e) rollsUsed
                    (cfg_rollLimit config)))
    end
  end.

(** [(a, b) => b.roll - a.roll] *)
Definition by_roll_desc (a b : UserRoll) : Z := ur_roll b - ur_roll a.

(** [Math.floor(length * (eliminationPercentage / 100))] *)
Definition eliminateCount (length : Z) (eliminationPercentage : Q) : Z :=
  Qfloor (round_double
            (inject_Z length * round_double (eliminationPercentage / 100))).

Definition cutoffIndex (length eliminateCount : Z) : Z :=
  Z.max 0 (length - eliminateCount - 1).

(** [sortedRolls[cutoffIndex]?.roll || 0] *)
Definition cutoffRoll (sortedRolls : list UserRoll) (cutoffIndex : Z) : Z :=
  match index sortedRolls cutoffIndex with
  | Some r => if ur_roll r =? 0 then 0 else ur_roll r
  | None => 0
  end.

(** [sortedRolls.slice(sortedRolls.length - eliminateCount).map(r => r.userId)] *)
Definition eliminated (sortedRolls : list UserRoll) (eliminateCount : Z)
  : list string :=
  map ur_userId
      (slice (Z.of_nat (length sortedRolls) - eliminateCount) None sortedRolls).

Definition complete_message (winner : string) : string :=
  "Tournament complete! Winner: " +:+ winner.

Definition next_round_message (currentRound eliminateCount : Z) : string :=
  "Round " +:+ pretty (currentRound - 1) +:+ " ended. "
  +:+ pretty eliminateCount +:+ " players eliminated. Starting round "
  +:+ pretty currentRound +:+ "!".

Definition endRound (tournamentId : string) (eliminationPercentage : Q)
  : M EndRoundResult :=
  config <- getTournamentConfig tournamentId ;;
  match config with
  | None => ret (mkEndRoundResult false "Tournament not found" None)
  | Some config =>
    config <- as_config config ;;
    if negb (bool_decide (cfg_status config = ACTIVE)) then
      ret (mkEndRoundResult false "Tournament is not active" None)
    else
    allRolls <- getAllUserRolls tournamentId ;;
    allRolls <- as_rolls allRolls ;;
    if bool_decide (length allRolls = 0%nat) then
      ret (mkEndRoundResult false "No participants in this round" None)
    else
    (* Sort by roll value descending *)
    let sortedRolls := Array_sort by_roll_desc allRolls in
    let n := Z.of_nat (length sortedRolls) in
    (* Calculate cutoff *)
    let eliminateCount := eliminateCount n eliminationPercentage in
    let cutoffIndex := cutoffIndex n eliminateCount in
    let cutoffRoll := cutoffRoll sortedRolls cutoffIndex in
    (* Determine eliminated users *)
    let eliminated := eliminated sortedRolls eliminateCount in
    (* Save round data *)
    previous <- getRoundData tournamentId (cfg_currentRound config) ;;
    startTime <- match previous with
                 | None => Date_now
                 | Some d =>
                     r <- as_round d ;;
                     if rd_startTime r =? 0 then Date_now
                     else ret (rd_startTime r)
                 end ;;
    endTime <- Date_now ;;
    let roundData :=
      mkRound (cfg_currentRound config) startTime (Some endTime)
              (map ur_userId sortedRolls) eliminated (Some cutoffRoll) in
    saveRoundData tournamentId (cfg_currentRound config) roundData ;;;
    (* Clear rolls for next round *)
    deleteAllUserRolls tournamentId ;;;
    (* Check if tournament is complete *)
    let remainingPlayers := n - eliminateCount in
    if remainingPlayers <=? 1 then
      updatedAt <- Date_now ;;
      let config := set_status COMPLETED updatedAt config in
      saveTournamentConfig config ;;;
      match index sortedRolls 0 with
      | Some top =>
          ret (mkEndRoundResult true (complete_message (ur_username top))
                 (Some eliminated))
      | None => throw TypeError
      end
    else
    (* Start next round *)
    updatedAt <- Date_now ;;
    let config := set_currentRound (cfg_currentRound config + 1) updatedAt config in
    saveTournamentConfig config ;;;
    (* Initialize next round *)
    startNext <- Date_now ;;
    let nextRound :=
      mkRound (cfg_currentRound config) startNext None
              (map ur_userId (slice 0 (Some remainingPlayers) sortedRolls))
              [] None in
    saveRoundData tournamentId (cfg_currentRound config) nextRound ;;;
    ret (mkEndRoundResult true
           (next_round_message (cfg_currentRound config) eliminateCount)
           (Some eliminated))
  end.

(** [Math.round(averageRoll * 100) / 100] *)
Definition round2 (x : Q) : Q :=
  (inject_Z (Qfloor (x * 100 + (1 # 2))) / 100)%Q.

Definition calculateStats (tournamentId : string) : M (option TournamentStats) :=
  allRolls <- getAllUserRolls tournamentId ;;
  allRolls <- as_rolls allRolls ;;
  if bool_decide (length allRolls = 0%nat) then ret None
  else
    let totalRolls := foldl (fun sum roll => sum + ur_rollsUsed roll) 0 allRolls in
    let sumRolls := foldl (fun sum roll => sum + ur_roll roll) 0 allRolls in
    let averageRoll :=
      (inject_Z sumRolls / inject_Z (Z.of_nat (length allRolls)))%Q in
    let sortedRolls := Array_sort by_roll_desc allRolls in
    let highestRoll := index sortedRolls 0 in
    let lowestRoll := index sortedRolls (Z.of_nat (length sortedRolls) - 1) in
    let stats :=
      mkStats (Z.of_nat (length allRolls)) (Z.of_nat (length allRolls)) 0
              totalRolls (round2 averageRoll) highestRoll lowestRoll in
    saveTournamentStats tournamentId stats ;;;
    ret (Some stats).

Definition getLeaderboard (tournamentId : string) (limit : Z)
  : M (list UserRoll) :=
  allRolls <- getAllUserRolls tournamentId ;;
  allRolls <- as_rolls allRolls ;;
  ret (slice 0 (Some limit) (Array_sort by_roll_desc allRolls)).

Definition cancelTournament (tournamentId : string) : M bool :=
  config <- getTournamentConfig tournamentId ;;
  match config with
  | None => ret false
  | Some config =>
      config <- as_config config ;;
      updatedAt <- Date_now ;;
      let config := set_status CANCELLED updatedAt config in
      saveTournamentConfig config ;;;
      logger LInfo "Tournament cancelled" ;;;
      ret true
  end.

(** [getAllRoundData] of the tournament store; it sorts what it read with
    [(a, b) => a.roundNumber - b.roundNumber]. *)
Definition by_roundNumber (a b : RoundData) : Z :=
  rd_roundNumber a - rd_roundNumber b.

Definition getAllRoundData (tournamentId : string) : M (list RoundData) :=
  requireRedisClient ;;;
  let pattern := TOURNAMENT_ROUND_PREFIX +:+ tournamentId +:+ ":*" in
  try_catch
    (keys <- client_keys pattern ;;
     rounds <- get_and_parse_each keys ;;
     rounds <- as_rounds rounds ;;
     ret (Array_sort by_roundNumber rounds))
    (fun error =>
       match error with
       | TypeConfusion => throw error
       | _ => logger LError "Failed to get all round data" ;;; ret []
       end).

(** ** The file store (core/disk.ts) *)

Definition fs_call (e : Event) : M unit :=
  fun w =>
    let w1 := push e w in
    match diskFaults w1 with
    | [] => (Ok tt, w1)
    | false :: fs => (Ok tt, set_diskFaults fs w1)
    | true :: fs => (Throw FsFault, set_diskFaults fs w1)
    end.

Definition fs_writeFile (path : string) (data : Text) : M unit :=
  fs_call (FsWriteFile path data) ;;;
  fun w => (Ok tt, set_disk (insert path [data]) w).

Definition fs_appendFile (path : string) (data : Text) : M unit :=
  fs_call (FsAppendFile path data) ;;;
  fun w => (Ok tt,
            set_disk (fun d => <[path := default [] (d !! path) ++ [data]]> d) w).

Definition ensureDir (path : string) : M bool :=
  try_catch
    (fs_call (FsMkdirFor path) ;;; ret true)
    (fun error => logger LError "Failed to create directory" ;;; ret false).

Definition writeDisk (relativePath : string) (data : Text) : M bool :=
  try_catch
    (ensureDir relativePath ;;;
     fs_writeFile relativePath data ;;;
     logger LDebug "Data written to disk" ;;;
     ret true)
    (fun error => logger LError "Failed to write to disk" ;;; ret false).

Definition appendDisk (relativePath : string) (data : Text) : M bool :=
  try_catch
    (ensureDir relativePath ;;;
     fs_appendFile relativePath data ;;;
     logger LDebug "Data appended to disk" ;;;
     ret true)
    (fun error => logger LError "Failed to append to disk" ;;; ret false).

(** ** The Redis helpers (core/redis.ts) *)

Definition setRedis (key : string) (value : Text) (ttlSeconds : option Z)
  : M bool :=
  client <- getRedisClient ;;
  if negb client then ret false
  else
    try_catch
      (match ttlSeconds with
       | Some t => if t =? 0 then client_set key value
                   else client_setex key t value
       | None => client_set key value
       end ;;;
       ret true)
      (fun error => logger LError "Failed to set Redis key" ;;; ret false).

(** ** The storage facade (services/storage.ts) *)

Record StorageOptions := mkOptions {
  opt_ttl : option Z;
  opt_persistToDisk : option bool }.

Definition cachePath (key : string) : string := "cache/" +:+ key +:+ ".txt".

Definition storeData (key : string) (value : Text) (options : StorageOptions)
  : M bool :=
  let ttl := opt_ttl options in
  let persistToDisk := default false (opt_persistToDisk options) in
  (* Try Redis first *)
  redisSuccess <- setRedis key value ttl ;;
  (* If persist to disk is enabled or Redis failed, write to disk *)
  if persistToDisk || negb redisSuccess then
    let diskPath := cachePath key in
    diskSuccess <- writeDisk diskPath value ;;
    if negb redisSuccess && negb diskSuccess then
      logger LError "Failed to store data in both Redis and disk" ;;;
      ret false
    else ret true
  else ret redisSuccess.

Definition storeJSON (key : string) (data : Doc) (options : StorageOptions)
  : M bool :=
  try_catch
    (let jsonString := JSON_stringify data in
     storeData key jsonString options)
    (fun error => logger LError "Failed to store JSON data" ;;; ret false).

Definition gameKey (gameId : string) : string := "game:" +:+ gameId +:+ ":state".

Definition storeGameState (gameId : string) (state : GameState) : M bool :=
  let key := gameKey gameId in
  storeJSON key (DGame state) (mkOptions (Some 86400) (Some true)).

(** [s.split('T')[0]] *)
Fixpoint before_T (s : string) : string :=
  match s with
  | EmptyString => EmptyString
  | String c s' => if Ascii.eqb c "T" then EmptyString else String c (before_T s')
  end.

Definition logEvent (logType : string) (event : list (string * JVal)) : M bool :=
  d1 <- new_Date ;;
  let timestamp := iso d1 in
  let logLine := Newline (JSON_stringify (DEvent timestamp event)) in
  d2 <- new_Date ;;
  let logPath := "logs/" +:+ logType +:+ "/" +:+ before_T (iso d2) +:+ ".log" in
  appendDisk logPath logLine.

(** ** The game-state manager (services/gameStateManager.ts) *)

Definition createGame (gameId type : string) (initialData : list (string * JVal))
  : M bool :=
  let state := mkGame gameId type Pending [] None None initialData in
  success <- storeGameState gameId state ;;
  (if success then
     logEvent "game" [("action", JStr "create"); ("gameId", JStr gameId);
                      ("type", JStr type)] ;;;
     logger LInfo "Game created"
   else logger LError "Failed to create game") ;;;
  ret success.

(** ** Reading and deleting in the cache (core/redis.ts, continued) *)

(** [EXISTS] counts the key, whatever kind of value it holds.  The record of
    commands has no entry for it; the command meets its fate like the
    others. *)
Definition client_exists (key : string) : M Z :=
  fun w =>
    let count (w : World) : Z :=
      match kv w !! key with Some _ => 1 | None => 0 end in
    match redisFaults w with
    | [] => (Ok (count w), w)
    | false :: fs => (Ok (count w), set_redisFaults fs w)
    | true :: fs => (Throw ConnectionFault, set_redisFaults fs w)
    end.

Definition getRedis (key : string) : M (option Text) :=
  client <- getRedisClient ;;
  if negb client then ret None
  else
    try_catch
      (client_get key)
      (fun error => logger LError "Failed to get Redis key" ;;; ret None).

Definition deleteRedis (key : string) : M bool :=
  client <- getRedisClient ;;
  if negb client then ret false
  else
    try_catch
      (client_del key ;;; ret true)
      (fun error => logger LError "Failed to delete Redis key" ;;; ret false).

Definition existsRedis (key : string) : M bool :=
  client <- getRedisClient ;;
  if negb client then ret false
  else
    try_catch
      (result <- client_exists key ;; ret (result =? 1))
      (fun error =>
         logger LError "Failed to check Redis key existence" ;;; ret false).

(** ** Reading and deleting files (core/disk.ts, continued) *)

(** The fate of the next file-system call, for the calls that the record of
    commands does not list ([readFile], [access], [unlink]). *)
Definition fs_fate : M unit :=
  fun w =>
    match diskFaults w with
    | [] => (Ok tt, w)
    | false :: fs => (Ok tt, set_diskFaults fs w)
    | true :: fs => (Throw FsFault, set_diskFaults fs w)
    end.

(** The content of a file as one string.  A file that [writeFile] wrote
    holds one chunk, and an empty file the empty string.  A file that
    [appendFile] has grown holds the concatenation of its chunks, which is
    not a text of this development. *)
Definition whole (chunks : list Text) : option Text :=
  match chunks with
  | [] => Some (Corrupt "")
  | [data] => Some data
  | _ => None
  end.

(** [fs.readFile] resolves to the content, or rejects: with code ENOENT
    when there is no such file, with another code when the call faults.  The
    rejection is returned as a value, for [readDisk] to tell the two codes
    apart as its catch block does.  Reading a file of several chunks is not
    followed. *)
Inductive ReadResult :=
| Content (data : Text)
| ENOENT
| ReadError.

Definition fs_readFile (path : string) : M ReadResult :=
  try_catch
    (fs_fate ;;;
     fun w => match disk w !! path with
              | None => (Ok ENOENT, w)
              | Some chunks =>
                  match whole chunks with
                  | Some data => (Ok (Content data), w)
                  | None => (Throw TypeConfusion, w)
                  end
              end)
    (fun error =>
       match error with
       | TypeConfusion => throw error
       | _ => ret ReadError
       end).

Definition fs_access (path : string) : M unit :=
  fs_fate ;;;
  fun w => match disk w !! path with
           | Some _ => (Ok tt, w)
           | None => (Throw FsFault, w)
           end.

Definition fs_unlink (path : string) : M unit :=
  fs_fate ;;;
  fun w => match disk w !! path with
           | Some _ => (Ok tt, set_disk (delete path) w)
           | None => (Throw FsFault, w)
           end.

Definition readDisk (relativePath : string) : M (option Text) :=
  r <- fs_readFile relativePath ;;
  match r with
  | Content data => logger LDebug "Data read from disk" ;;; ret (Some data)
  | ENOENT => logger LDebug "File not found on disk" ;;; ret None
  | ReadError => logger LError "Failed to read from disk" ;;; ret None
  end.

Definition existsDisk (relativePath : string) : M bool :=
  try_catch
    (fs_access relativePath ;;; ret true)
    (fun error => ret false).

Definition deleteDisk (relativePath : string) : M bool :=
  try_catch
    (fs_unlink relativePath ;;;
     logger LDebug "File deleted from disk" ;;;
     ret true)
    (fun error => logger LError "Failed to delete from disk" ;;; ret false).

(** ** Reading through the facade (services/storage.ts, continued) *)

Definition retrieveData (key : string) : M (option Text) :=
  (* Try Redis first *)
  redisValue <- getRedis key ;;
  match redisValue with
  | Some value => ret (Some value)
  | None =>
      (* Fall back to disk *)
      let diskPath := cachePath key in
      diskValue <- readDisk diskPath ;;
      (* If found on disk, restore to Redis for faster access next time *)
      match diskValue with
      | Some value => setRedis key value (Some 3600) ;;; ret diskValue
      | None => ret diskValue
      end
  end.

Definition removeData (key : string) : M bool :=
  redisSuccess <- deleteRedis key ;;
  let diskPath := cachePath key in
  diskSuccess <- deleteDisk diskPath ;;
  ret (redisSuccess || diskSuccess).

Definition dataExists (key : string) : M bool :=
  redisExists <- existsRedis key ;;
  if redisExists then ret true
  else
    let diskPath := cachePath key in
    existsDisk diskPath.

(** The parsed document is returned whatever its shape (the cast to [T] is
    erased).  A run that is not followed stays not followed. *)
Definition retrieveJSON (key : string) : M (option Doc) :=
  try_catch
    (jsonString <- retrieveData key ;;
     match jsonString with
     | None => ret None
     | Some t =>
         if truthy t then d <- JSON_parse t ;; ret (Some d) else ret None
     end)
    (fun error =>
       match error with
       | TypeConfusion => throw error
       | _ => logger LError "Failed to retrieve JSON data" ;;; ret None
       end).

Definition retrieveGameState (gameId : string) : M (option Doc) :=
  let key := gameKey gameId in
  retrieveJSON key.

Definition sessionKey (userId : string) : string := "session:" +:+ userId.

Definition storeUserSession (userId : string) (sessionData : Doc) : M bool :=
  let key := sessionKey userId in
  storeJSON key sessionData (mkOptions (Some 3600) None).

Definition retrieveUserSession (userId : string) : M (option Doc) :=
  let key := sessionKey userId in
  retrieveJSON key.

(** ** Values of the data bag *)

(** JavaScript truthiness of a JSON value. *)
Definition js_truthy (v : JVal) : bool :=
  match v with
  | JNull => false
  | JBool b => b
  | JNum z => negb (z =? 0)
  | JStr s => negb (String.eqb s "")
  | JArr _ | JObj _ => true
  end.

(** [o[k]] for an own property; [None] is undefined. *)
Fixpoint obj_get (k : string) (o : list (string * JVal)) : option JVal :=
  match o with
  | [] => None
  | (k', v) :: o' => if decide (k' = k) then Some v else obj_get k o'
  end.

Definition digit_of (c : ascii) : option N :=
  let n := N_of_ascii c in
  if ((48 <=? n) && (n <=? 57))%N then Some (n - 48)%N else None.

Fixpoint decimal (s : string) (acc : N) : option N :=
  match s with
  | EmptyString => Some acc
  | String c s' =>
      match digit_of c with
      | Some d => decimal s' (10 * acc + d)%N
      | None => None
      end
  end.

(** The array index that a property key spells, if it spells one: a decimal
    numeral without leading zero, below 2^32 - 1. *)
Definition array_index (k : string) : option N :=
  match k with
  | EmptyString => None
  | String c rest =>
      if Ascii.eqb c "0" && negb (String.eqb rest "") then None
      else match decimal k 0 with
           | Some n => if (n <? 4294967295)%N then Some n else None
           | None => None
           end
  end.

Fixpoint obj_replace (k : string) (v : JVal) (o : list (string * JVal))
  : list (string * JVal) :=
  match o with
  | [] => []
  | (k', v') :: o' =>
      if decide (k' = k) then (k, v) :: o' else (k', v') :: obj_replace k v o'
  end.

Fixpoint obj_add_index (i : N) (k : string) (v : JVal)
    (o : list (string * JVal)) : list (string * JVal) :=
  match o with
  | [] => [(k, v)]
  | (k', v') :: o' =>
      match array_index k' with
      | Some j =>
          if (j <? i)%N then (k', v') :: obj_add_index i k v o'
          else (k, v) :: o
      | None => (k, v) :: o
      end
  end.

(** [o[k] = v].  A property that exists keeps its place.  A new one goes
    where the enumeration of own keys puts it: array indices first, in
    ascending order, then the other keys in the order of their creation. *)
Definition obj_set (k : string) (v : JVal) (o : list (string * JVal))
  : list (string * JVal) :=
  match obj_get k o with
  | Some _ => obj_replace k v o
  | None =>
      match array_index k with
      | Some i => obj_add_index i k v o
      | None => o ++ [(k, v)]
      end
  end.

(** [{ ...a, ...b }] *)
Definition spread (a b : list (string * JVal)) : list (string * JVal) :=
  foldl (fun o p => obj_set (fst p) (snd p) o) [] (a ++ b).

(** [l.indexOf(x)] *)
Fixpoint indexOf (x : string) (l : list string) : Z :=
  match l with
  | [] => -1
  | y :: l' =>
      if decide (y = x) then 0
      else let i := indexOf x l' in if i <? 0 then -1 else i + 1
  end.

(** ** The game-state manager (services/gameStateManager.ts, continued) *)

Definition as_game (d : Doc) : M GameState :=
  match d with DGame g => ret g | _ => throw TypeConfusion end.

Definition game_set_status (s : GameStatus) (g : GameState) : GameState :=
  mkGame (gs_gameId g) (gs_type g) s (gs_players g) (gs_startedAt g)
         (gs_endedAt g) (gs_data g).

Definition game_set_startedAt (t : string) (g : GameState) : GameState :=
  mkGame (gs_gameId g) (gs_type g) (gs_status g) (gs_players g) (Some t)
         (gs_endedAt g) (gs_data g).

Definition game_set_endedAt (t : string) (g : GameState) : GameState :=
  mkGame (gs_gameId g) (gs_type g) (gs_status g) (gs_players g)
         (gs_startedAt g) (Some t) (gs_data g).

Definition game_set_players (ps : list string) (g : GameState) : GameState :=
  mkGame (gs_gameId g) (gs_type g) (gs_status g) ps (gs_startedAt g)
         (gs_endedAt g) (gs_data g).

Definition game_set_data (d : list (string * JVal)) (g : GameState)
  : GameState :=
  mkGame (gs_gameId g) (gs_type g) (gs_status g) (gs_players g)
         (gs_startedAt g) (gs_endedAt g) d.

Definition getGame (gameId : string) : M (option Doc) :=
  retrieveGameState gameId.

Definition startGame (gameId : string) : M bool :=
  state <- getGame gameId ;;
  match state with
  | None => logger LError "Game not found" ;;; ret false
  | Some state =>
    state <- as_game state ;;
    let state := game_set_status Active state in
    d <- new_Date ;;
    let state := game_set_startedAt (iso d) state in
    success <- storeGameState gameId state ;;
    (if success then
       logEvent "game" [("action", JStr "start"); ("gameId", JStr gameId);
                        ("type", JStr (gs_type state))] ;;;
       logger LInfo "Game started"
     else ret tt) ;;;
    ret success
  end.

Definition addPlayer (gameId userId : string) : M bool :=
  state <- getGame gameId ;;
  match state with
  | None => logger LError "Game not found" ;;; ret false
  | Some state =>
    state <- as_game state ;;
    if bool_decide (userId ∈ gs_players state) then
      logger LWarn "Player already in game" ;;;
      ret true (* Not an error, player is already added *)
    else
    let state := game_set_players (gs_players state ++ [userId]) state in
    success <- storeGameState gameId state ;;
    (if success then
       logEvent "game" [("action", JStr "player_join"); ("gameId", JStr gameId);
                        ("userId", JStr userId);
                        ("playerCount", JNum (Z.of_nat (length (gs_players state))))] ;;;
       logger LInfo "Player added to game"
     else ret tt) ;;;
    ret success
  end.

Definition removePlayer (gameId userId : string) : M bool :=
  state <- getGame gameId ;;
  match state with
  | None => logger LError "Game not found" ;;; ret false
  | Some state =>
    state <- as_game state ;;
    let index := indexOf userId (gs_players state) in
    if index =? -1 then
      logger LWarn "Player not in game" ;;;
      ret true (* Not an error *)
    else
    (* [state.players.splice(index, 1)] *)
    let state := game_set_players (delete (Z.to_nat index) (gs_players state)) state in
    success <- storeGameState gameId state ;;
    (if success then
       logEvent "game" [("action", JStr "player_leave"); ("gameId", JStr gameId);
                        ("userId", JStr userId);
                        ("playerCount", JNum (Z.of_nat (length (gs_players state))))] ;;;
       logger LInfo "Player removed from game"
     else ret tt) ;;;
    ret success
  end.

Definition updateGameData (gameId : string) (data : list (string * JVal))
  : M bool :=
  state <- getGame gameId ;;
  match state with
  | None => logger LError "Game not found" ;;; ret false
  | Some state =>
    state <- as_game state ;;
    let state := game_set_data (spread (gs_data state) data) state in
    success <- storeGameState gameId state ;;
    (if success then logger LDebug "Game data updated" else ret tt) ;;;
    ret success
  end.

(** [reason] is optional; the log entry carries it when it is given, the
    data bag when it is given and not empty. *)
Definition cancelGame (gameId : string) (reason : option string) : M bool :=
  state <- getGame gameId ;;
  match state with
  | None => logger LError "Game not found" ;;; ret false
  | Some state =>
    state <- as_game state ;;
    let state := game_set_status Cancelled state in
    d <- new_Date ;;
    let state := game_set_endedAt (iso d) state in
    let state :=
      match reason with
      | Some r =>
          if negb (String.eqb r "") then
            game_set_data (obj_set "cancelReason" (JStr r) (gs_data state)) state
          else state
      | None => state
      end in
    success <- storeGameState gameId state ;;
    (if success then
       logEvent "game" ([("action", JStr "cancel"); ("gameId", JStr gameId);
                         ("type", JStr (gs_type state))]
                        ++ match reason with
                           | Some r => [("reason", JStr r)]
                           | None => []
                           end) ;;;
       logger LInfo "Game cancelled"
     else ret tt) ;;;
    ret success
  end.

(** The score is a number; it is an integer here, like every number of the
    data bag. *)
Definition recordScore (gameId userId : string) (score : Z) : M bool :=
  state <- getGame gameId ;;
  match state with
  | None => logger LError "Game not found" ;;; ret false
  | Some state =>
    state <- as_game state ;;
    let data :=
      match obj_get "scores" (gs_data state) with
      | Some v => if js_truthy v then gs_data state
                  else obj_set "scores" (JArr []) (gs_data state)
      | None => obj_set "scores" (JArr []) (gs_data state)
      end in
    d <- new_Date ;;
    let scoreEntry :=
      JObj [("userId", JStr userId); ("score", JNum score);
            ("timestamp", JStr (iso d))] in
    (* [state.data.scores.push(scoreEntry)] *)
    match obj_get "scores" data with
    | Some (JArr scores) =>
        let state :=
          game_set_data (obj_set "scores" (JArr (scores ++ [scoreEntry])) data)
                        state in
        success <- storeGameState gameId state ;;
        (if success then
           logEvent "game" [("action", JStr "score"); ("gameId", JStr gameId);
                            ("userId", JStr userId); ("score", JNum score)] ;;;
           logger LInfo "Score recorded"
         else ret tt) ;;;
        ret success
    | _ => throw TypeError
    end
  end.

Definition createFlaskGambaRound (channelId question : string)
    (options : list string) : M (option string) :=
  now <- Date_now ;;
  let gameId := "flaskgamba-" +:+ pretty now in
  success <- createGame gameId "flaskgamba"
               [("channelId", JStr channelId); ("question", JStr question);
                ("options", JArr (map JStr options)); ("bets", JArr [])] ;;
  ret (if success then Some gameId else None).

(** [bets.find((bet) => bet.userId === userId)]: reading a property off null
    throws; every other value that is not an object has no [userId]. *)
Fixpoint find_bet (userId : string) (bets : list JVal) : outcome (option JVal) :=
  match bets with
  | [] => Ok None
  | JNull :: _ => Throw TypeError
  | JObj fields :: rest =>
      match obj_get "userId" fields with
      | Some (JStr u) =>
          if decide (u = userId) then Ok (Some (JObj fields))
          else find_bet userId rest
      | _ => find_bet userId rest
      end
  | _ :: rest => find_bet userId rest
  end.

Definition placeBet (gameId userId choice : string) (amount : Z) : M bool :=
  state <- getGame gameId ;;
  state <- match state with
           | None => ret None
           | Some d => g <- as_game d ;; ret (Some g)
           end ;;
  match state with
  | None => logger LError "Invalid game for betting" ;;; ret false
  | Some state =>
    if negb (String.eqb (gs_type state) "flaskgamba") then
      logger LError "Invalid game for betting" ;;; ret false
    else
    let data :=
      match obj_get "bets" (gs_data state) with
      | Some v => if js_truthy v then gs_data state
                  else obj_set "bets" (JArr []) (gs_data state)
      | None => obj_set "bets" (JArr []) (gs_data state)
      end in
    (* Check if user already bet *)
    match obj_get "bets" data with
    | Some (JArr bets) =>
        existingBet <- (fun w => (find_bet userId bets, w)) ;;
        match existingBet with
        | Some _ => logger LWarn "User already placed a bet" ;;; ret false
        | None =>
            d <- new_Date ;;
            let bet :=
              JObj [("userId", JStr userId); ("choice", JStr choice);
                    ("amount", JNum amount); ("timestamp", JStr (iso d))] in
            let state :=
              game_set_data (obj_set "bets" (JArr (bets ++ [bet])) data) state in
            success <- storeGameState gameId state ;;
            (if success then
               logEvent "flaskgamba"
                        [("action", JStr "bet"); ("gameId", JStr gameId);
                         ("userId", JStr userId); ("choice", JStr choice);
                         ("amount", JNum amount)] ;;;
               ret tt
             else ret tt) ;;;
            ret success
        end
    | _ => throw TypeError
    end
  end.

(** * The vocabulary of the properties *)

(** The store is reachable and no command is scheduled to fail. *)
Definition healthy (w : World) : Prop :=
  redisEnabled w = true /\ redisFaults w = [].

(** [pushes [e2; e1] w] is [w] after [e1], then [e2], were recorded. *)
Definition pushes (evs : list Event) (w : World) : World := foldr push w evs.

(** The world after one reading of the clock. *)
Definition tick (w : World) : World := snd (new_Date w).

(** The world after one call of [Math.random()]. *)
Definition drawn (w : World) : World := snd (Math_random w).

(** The document that a getter makes of a stored string. *)
Definition doc_of_text (t : Text) : option Doc :=
  if truthy t then
    match JSON_parse_text t with Ok d => Some d | Throw _ => None end
  else None.

Definition stored_doc (m : gmap string RVal) (key : string) : option Doc :=
  match m !! key with
  | Some (RString t) => doc_of_text t
  | _ => None
  end.

Definition stored_field (m : gmap string RVal) (key field : string)
  : option Doc :=
  match m !! key with
  | Some (RHash h) =>
      match hash_get field h with
      | Some t => doc_of_text t
      | None => None
      end
  | _ => None
  end.

(** The shape shared by the getters of string keys. *)
Definition fetch_string (key msg : string) : M (option Doc) :=
  requireRedisClient ;;;
  try_catch
    (data <- client_get key ;;
     match data with
     | None => ret None
     | Some t =>
         if truthy t then d <- JSON_parse t ;; ret (Some d) else ret None
     end)
    (fun error => logger LError msg ;;; ret None).

(** All the values of a hash, parsed; nothing when one of them fails. *)
Fixpoint parse_all (ts : list Text) : option (list Doc) :=
  match ts with
  | [] => Some []
  | t :: ts' =>
      match JSON_parse_text t with
      | Ok d => match parse_all ts' with
                | Some ds => Some (d :: ds)
                | None => None
                end
      | Throw _ => None
      end
  end.

Definition stored_rolls (m : gmap string RVal) (key : string) : list Doc :=
  match m !! key with
  | Some (RHash h) => default [] (parse_all (map snd h))
  | _ => []
  end.

(** The hash that [HSET] finds under a key: empty when the key is free,
    none when the key holds a string. *)
Definition hash_at (m : gmap string RVal) (key : string)
  : option (list (string * Text)) :=
  match m !! key with
  | None => Some []
  | Some (RHash h) => Some h
  | Some (RString _) => None
  end.

Definition desc (a b : UserRoll) : Prop := ur_roll b <= ur_roll a.

(** [m], started in [w], ends with [r] in a healthy world whose key space is
    [store]. *)
Definition ends {A} (m : M A) (w : World) (r : outcome A)
    (store : gmap string RVal) : Prop :=
  exists w', m w = (r, w') /\ kv w' = store /\ healthy w'.

(** What [getTournamentConfig] and [getUserRoll] answer in a healthy world,
    read as the types they are cast to. *)
Definition stored_config (w : World) (id : string) : option TournamentConfig :=
  match stored_doc (kv w) (TOURNAMENT_PREFIX +:+ id) with
  | Some (DConfig c) => Some c
  | _ => None
  end.

Definition stored_roll (w : World) (id uid : string) : option UserRoll :=
  match stored_field (kv w) (TOURNAMENT_ROLLS_PREFIX +:+ id) uid with
  | Some (DRoll r) => Some r
  | _ => None
  end.

(** A sequence of calls [(userId, username)] on one tournament. *)
Fixpoint play (id : string) (calls : list (string * string)) (w : World)
  : World :=
  match calls with
  | [] => w
  | (uid, name) :: rest => play id rest (snd (processUserRoll id uid name w))
  end.

Definition within_limit (w : World) (id : string) (limit : Z) : Prop :=
  forall v r, stored_roll w id v = Some r -> ur_rollsUsed r <= limit.

Definition no_worse (w w' : World) (id : string) : Prop :=
  forall v r, stored_roll w id v = Some r ->
    exists r', stored_roll w' id v = Some r' /\ ur_roll r <= ur_roll r'.

(** The rolls among parsed documents; none when one has another shape. *)
Fixpoint rolls_of (ds : list Doc) : option (list UserRoll) :=
  match ds with
  | [] => Some []
  | DRoll r :: ds' =>
      match rolls_of ds' with Some rs => Some (r :: rs) | None => None end
  | _ :: _ => None
  end.

(** The rolls recorded for a tournament, as [endRound] reads them. *)
Definition recorded_rolls (w : World) (id : string) : option (list UserRoll) :=
  rolls_of (stored_rolls (kv w) (TOURNAMENT_ROLLS_PREFIX +:+ id)).

(** The round key holds round data, or nothing that parses. *)
Definition round_slot_typed (w : World) (id : string) (n : Z) : Prop :=
  forall d, stored_doc (kv w) (roundKey id n) = Some d -> exists r, d = DRound r.

(** An operation is fail-loud when a fault of the first command it sends
    is logged as the error [msg] and comes out as an exception, and
    fail-soft with value [a] when the fault is logged as the error [msg],
    swallowed, and [a] returned. *)
Definition fail_loud {A} (op : M A) (msg : string) : Prop :=
  forall w fs,
    redisEnabled w = true -> redisFaults w = true :: fs ->
    exists w', op w = (Throw ConnectionFault, w') /\ kv w' = kv w /\
      head (trace w') = Some (Log LError msg).

Definition fail_soft {A} (op : M A) (a : A) (msg : string) : Prop :=
  forall w fs,
    redisEnabled w = true -> redisFaults w = true :: fs ->
    exists w', op w = (Ok a, w') /\ kv w' = kv w /\
      head (trace w') = Some (Log LError msg).

Definition needs_client {A} (op : M A) : Prop :=
  forall w,
    redisEnabled w = false ->
    exists w', op w = (Throw RedisNotAvailable, w') /\ kv w' = kv w.

(** The error an outcome carries. *)
Definition thrown {A} (out : outcome A) : option Err :=
  match out with Throw e => Some e | Ok _ => None end.

(** The fates that a run from [w] to [w'] used up: one for each command it
    sent, while there were fates left. *)
Definition fates_used (w w' : World) : list bool :=
  take (length (redisFaults w) - length (redisFaults w')) (redisFaults w).

(** The client rejected a command of the run. *)
Definition rejected (w w' : World) : Prop := true ∈ fates_used w w'.

(** A reader swallows: while there is a client it returns a value and leaves
    the key space alone, and when one of its commands was rejected, the
    first or a later one, the value is [a] and the last line of the log is
    the error [msg]. *)
Definition swallows {A} (op : M A) (a : A) (msg : string) : Prop :=
  forall w, redisEnabled w = true ->
    exists r w', op w = (Ok r, w') /\ kv w' = kv w /\
      (rejected w w' -> r = a /\ head (trace w') = Some (Log LError msg)).

(** The same, for a reader that goes on to use what it read as round data:
    a document of another shape ends the run, which this development does
    not follow further. *)
Definition swallows_unless_off_type {A} (op : M A) (a : A) (msg : string)
  : Prop :=
  forall w, redisEnabled w = true ->
    exists out w', op w = (out, w') /\ kv w' = kv w /\
      (forall e, thrown out = Some e -> e = TypeConfusion) /\
      (rejected w w' -> out = Ok a /\ head (trace w') = Some (Log LError msg)).

(** A reader of several keys gives up at a rejection wherever it comes:
    with the first [i] commands accepted and the next one rejected, where
    the reader has [keys w] to fetch after its scan, the answer is the empty
    list and the last line of the log is the error [msg]. *)
Definition gives_up_at_any_command {A} (op : M (list A))
    (keys : World -> list string) (msg : string) : Prop :=
  forall w i fs,
    redisEnabled w = true ->
    redisFaults w = replicate i false ++ true :: fs ->
    (i <= length (keys w))%nat ->
    exists w', op w = (Ok [], w') /\ kv w' = kv w /\
      head (trace w') = Some (Log LError msg).

(** A writer rethrows: a rejected command comes out as the exception of the
    client, after the error [msg] is logged. *)
Definition rethrows {A} (op : M A) (msg : string) : Prop :=
  forall w out w', redisEnabled w = true -> op w = (out, w') ->
    rejected w w' ->
    out = Throw ConnectionFault /\ kv w' = kv w /\
    head (trace w') = Some (Log LError msg).

(** What is tracked through the body of an operation: the key space stays,
    fates are used up from the front, and a rejection ends the body with the
    exception of the client. *)
Definition tracks {A} (m : M A) : Prop :=
  forall w out w1, m w = (out, w1) ->
    kv w1 = kv w /\
    exists used, redisFaults w = used ++ redisFaults w1 /\
      (true ∈ used -> thrown out = Some ConnectionFault).

(** A computation that casts nothing. *)
Definition castless {A} (m : M A) : Prop :=
  forall w out w1, m w = (out, w1) -> thrown out <> Some TypeConfusion.

(** What follows the sending of a command leaves the fates alone. *)
Definition keeps_fates {A} (m : M A) : Prop :=
  forall w out w1, m w = (out, w1) -> redisFaults w1 = redisFaults w.

(** The cache write succeeds when there is a client and the command it sends
    does not fault. *)
Definition cache_ok (w : World) : bool :=
  redisEnabled w && negb (hd false (redisFaults w)).

(** A disk write makes two file-system calls, [mkdir] and [writeFile]; it
    succeeds when the second does not fault ([ensureDir] keeps a failure of
    the first to itself). *)
Definition disk_ok (w : World) : bool := negb (nth 1 (diskFaults w) false).

(** The first thing [setRedis] leaves in the record: the command it sends,
    or the note of [getRedisClient] that there is no client. *)
Definition cache_event (key : string) (value : Text) (ttl : option Z)
    (w : World) : Event :=
  if redisEnabled w then
    match ttl with
    | Some t => if t =? 0 then CmdSet key value else CmdSetex key t value
    | None => CmdSet key value
    end
  else Log LInfo "Redis is disabled via REDIS_ENABLED environment variable".

Definition is_file_write (e : Event) : bool :=
  match e with
  | FsWriteFile _ _ | FsAppendFile _ _ | FsMkdirFor _ => true
  | _ => false
  end.

(** The disk tier is written when asked for, or when the cache write failed. *)
Definition disk_attempted (options : StorageOptions) (w : World) : bool :=
  default false (opt_persistToDisk options) || negb (cache_ok w).

(** The keys the listing scans, in scan order. *)
Definition scanned_keys (w : World) : list string :=
  filter (fun k => glob_match (TOURNAMENT_PREFIX +:+ "*") k = true)
         (map fst (map_to_list (kv w))).

(** Keys of the rolls, round and stats name spaces. *)
Definition foreign_key (k : string) : bool :=
  String.prefix TOURNAMENT_ROLLS_PREFIX k
  || String.prefix TOURNAMENT_ROUND_PREFIX k
  || String.prefix TOURNAMENT_STATS_PREFIX k.

Definition string_at (m : gmap string RVal) (k : string) : option Text :=
  match m !! k with
  | Some (RString t) => Some t
  | _ => None
  end.

(** Only configuration keys under the prefix, each holding a string. *)
Definition only_configs (w : World) : bool :=
  forallb (fun k => negb (foreign_key k) && bool_decide (is_Some (string_at (kv w) k)))
          (scanned_keys w).

(** The non-empty strings under the given keys. *)
Definition texts_at (m : gmap string RVal) (keys : list string) : list Text :=
  omap (fun k => match string_at m k with
                 | Some t => if truthy t then Some t else None
                 | None => None
                 end) keys.

(** A rational that is a double. *)
Definition is_double (q : Q) : Prop := (round_double q == q)%Q.

(** A double, written out: at most 53 bits, the last of them not below
    [2^-1074]. *)
Definition representable (d : Q) : Prop :=
  exists m k, (d == inject_Z m * pow2 k)%Q /\ Z.abs m < 2 ^ 53 /\ -1074 <= k.

(** [r] is a double, and no double is nearer to [x]. *)
Definition nearest_double (x r : Q) : Prop :=
  representable r /\
  forall d, representable d -> (Qabs (r - x) <= Qabs (d - x))%Q.

(** ** The vocabulary of the further properties *)


(** The keys that [getAllRoundData] scans, in scan order. *)
Definition round_keys (w : World) (id : string) : list string :=
  filter (fun k => glob_match (TOURNAMENT_ROUND_PREFIX +:+ id +:+ ":*") k = true)
         (map fst (map_to_list (kv w))).

(** Every key of the rounds of a tournament that holds a document holds
    round data. *)
Definition rounds_typed (w : World) (id : string) : Prop :=
  forall k d, k ∈ round_keys w id -> stored_doc (kv w) k = Some d ->
    exists r, d = DRound r.

(** No command and no file-system call is scheduled to fail; the cache may
    be there or not. *)
Definition calm (w : World) : Prop :=
  redisFaults w = [] /\ diskFaults w = [].

(** The string that the cache answers for a key: none without a client, and
    none when the key holds a hash. *)
Definition cached (w : World) (key : string) : option Text :=
  if redisEnabled w then string_at (kv w) key else None.

(** The content of the cache file of a key, if there is a file.  The outer
    [None] is a file of several chunks, whose reading is not followed. *)
Definition filed (w : World) (key : string) : option (option Text) :=
  match disk w !! cachePath key with
  | None => Some None
  | Some chunks => option_map Some (whole chunks)
  end.

(** What the facade holds for a key: the cached string, else the file. *)
Definition held (w : World) (key : string) : option (option Text) :=
  match cached w key with
  | Some t => Some (Some t)
  | None => filed w key
  end.

(** The game that the facade holds under a game id: [Some None] when there
    is none that parses; the outer [None] when the reading is not followed
    (a file of several chunks, a document of another shape). *)
Definition game_of (w : World) (gameId : string) : option (option GameState) :=
  match held w (gameKey gameId) with
  | None => None
  | Some None => Some None
  | Some (Some t) =>
      match doc_of_text t with
      | None => Some None
      | Some (DGame g) => Some (Some g)
      | Some _ => None
      end
  end.

(** The cache files, and what the cache holds, are the same in two worlds. *)
Definition same_facade (w w' : World) : Prop :=
  redisEnabled w' = redisEnabled w /\ kv w' = kv w /\
  forall key, disk w' !! cachePath key = disk w !! cachePath key.

(** The entries of the [scores] and [bets] arrays of a data bag. *)
Definition entries (field : string) (data : list (string * JVal)) : list JVal :=
  match obj_get field data with
  | Some (JArr items) => items
  | _ => []
  end.

(** Nothing is scheduled to fail in [w'] either, and the cache is there in
    [w'] exactly if it is in [w]. *)
Definition steady (w w' : World) : Prop :=
  calm w' /\ redisEnabled w' = redisEnabled w.

(** The facade holds in [w'] what it holds in [w], under every key. *)
Definition same_held (w w' : World) : Prop :=
  forall key, held w' key = held w key.

(** A step that ends well in every calm world and leaves what the facade
    holds as it is (logging, in its two forms). *)
Definition quiet (m : M unit) : Prop :=
  forall w, calm w ->
    exists w', m w = (Ok tt, w') /\ steady w w' /\ same_held w w'.

(** The operation answers false in [w] and leaves what the facade holds as
    it is. *)
Definition refuses (op : M bool) (w : World) : Prop :=
  exists w', op w = (Ok false, w') /\ same_held w w'.

(** A value that [recordScore] and [placeBet] can push onto: undefined or
    falsy (it is replaced by an empty array first), or an array. *)
Definition pushable (v : option JVal) : bool :=
  match v with
  | None => true
  | Some (JArr _) => true
  | Some v => negb (js_truthy v)
  end.

(** * Example worlds *)

Definition clock_2s : DateReading := mkDate 2000 "1970-01-01T00:00:02.000Z".
Definition clock_3s : DateReading := mkDate 3000 "1970-01-01T00:00:03.000Z".
Definition clock_4s : DateReading := mkDate 4000 "1970-01-01T00:00:04.000Z".
Definition clock_5s : DateReading := mkDate 5000 "1970-01-01T00:00:05.000Z".

(** A store with nothing in it, a running clock, and a random source whose
    values 0.4453125, 0.296875 and 0.796875 give the draws 45, 30 and 80 out
    of 100. *)
Definition fresh_world : World :=
  mkWorld true [] ∅ [] ∅ clock_2s [clock_3s; clock_4s; clock_5s]
          [57 # 128; 19 # 64; 51 # 64]%Q [].

(** Tournament "cup": rolls of 1..100, three rolls each. *)
Definition cup : TournamentConfig :=
  mkConfig "cup" "Cup" 100 3 86402000 1 ACTIVE None "chan" 1000 1000.

Definition with_kv (m : gmap string RVal) (w : World) : World :=
  set_kv (fun _ => m) w.

Definition cup_world : World :=
  with_kv {[ "tournament:cup" := RString (Json (DConfig cup)) ]} fresh_world.

(** "cup" after user u1 rolled once (45, at 2000 ms). *)
Definition cup_after_one_roll : World := play "cup" [("u1", "Alice")] cup_world.

Definition entrant (i : Z) (roll : Z) : UserRoll :=
  mkRoll ("u" +:+ pretty i) ("Player" +:+ pretty i) roll 1500 1.

Definition hash_of_rolls (rs : list UserRoll) : RVal :=
  RHash (map (fun r => (ur_userId r, Json (DRoll r))) rs).

Definition ten_rolls : list UserRoll :=
  [entrant 1 40; entrant 2 90; entrant 3 10; entrant 4 70; entrant 5 40;
   entrant 6 100; entrant 7 20; entrant 8 60; entrant 9 30; entrant 10 80].

Definition ten_world : World :=
  with_kv (<["tournament:rolls:cup" := hash_of_rolls ten_rolls]>
             {[ "tournament:cup" := RString (Json (DConfig cup)) ]})
          fresh_world.

Definition two_rolls : list UserRoll := [entrant 1 10; entrant 2 20].

Definition two_world : World :=
  with_kv (<["tournament:rolls:cup" := hash_of_rolls two_rolls]>
             {[ "tournament:cup" := RString (Json (DConfig cup)) ]})
          fresh_world.

(** Fifty entrants; entrant [i] rolled [i]. *)
Definition fifty_rolls : list UserRoll :=
  map (fun i => entrant (Z.of_nat i) (Z.of_nat i)) (seq 1 50).

Definition fifty_world : World :=
  with_kv (<["tournament:rolls:cup" := hash_of_rolls fifty_rolls]>
             {[ "tournament:cup" := RString (Json (DConfig cup)) ]})
          fresh_world.

(** "cup" once it is completed. *)
Definition finished_cup : TournamentConfig := set_status COMPLETED 1900 cup.

Definition finished_world : World :=
  with_kv {[ "tournament:cup" := RString (Json (DConfig finished_cup)) ]}
          fresh_world.

(** One entry of the roll map is not JSON. *)
Definition damaged_hash : list (string * Text) :=
  [("u1", Json (DRoll (entrant 1 40))); ("u2", Corrupt "{oops")].

Definition damaged_world : World :=
  with_kv (<["tournament:rolls:cup" := RHash damaged_hash]>
             {[ "tournament:cup" := RString (Json (DConfig cup)) ]})
          fresh_world.

(** The client exists, and its next command faults. *)
Definition outage_world : World :=
  mkWorld true [true] (kv cup_world) [] ∅ clock_2s [] [] [].

(** Two configurations, nothing else. *)
Definition league : TournamentConfig :=
  mkConfig "league" "League" 50 2 86402000 1 ACTIVE None "chan" 1200 1200.

Definition two_configs_world : World :=
  with_kv (<["tournament:league" := RString (Json (DConfig league))]>
             {[ "tournament:cup" := RString (Json (DConfig cup)) ]})
          fresh_world.

(** Two configurations; the client will accept two commands and reject the
    third. *)
Definition late_outage_world : World :=
  mkWorld true [false; false; true] (kv two_configs_world) [] ∅ clock_2s [] [] [].

(** One of two configuration records is not JSON. *)
Definition damaged_config_world : World :=
  with_kv (<["tournament:league" := RString (Corrupt "{oops")]>
             {[ "tournament:cup" := RString (Json (DConfig cup)) ]})
          fresh_world.

(** ** Worlds for the facade and the games *)

(** A healthy store whose clock stands still. *)
Definition still_world : World :=
  mkWorld true [] ∅ [] ∅ clock_2s [] [] [].

(** No cache (REDIS_ENABLED is 'false'), an empty disk, a running clock. *)
Definition offline_world : World :=
  mkWorld false [] ∅ [] ∅ clock_2s [clock_3s; clock_4s; clock_5s] [] [].

(** The game "quiz", with two players, in its cache file. *)
Definition quiz : GameState :=
  mkGame "quiz" "trivia" Pending ["ann"; "bob"] None None [("level", JNum 1)].

Definition quiz_world : World :=
  set_disk (insert "cache/game:quiz:state.txt" [Json (DGame quiz)]) offline_world.

(** The cache file of "quiz" holds a text that is not JSON. *)
Definition torn_world : World :=
  set_disk (insert "cache/game:quiz:state.txt" [Corrupt "{oops"]) offline_world.

(** A flaskgamba round without bets, in its cache file. *)
Definition poll : GameState :=
  mkGame "poll" "flaskgamba" Pending [] None None
         [("question", JStr "Heads?"); ("bets", JArr [])].

Definition poll_world : World :=
  set_disk (insert "cache/game:poll:state.txt" [Json (DGame poll)]) offline_world.

(** The cache holds an old text under "motd", and will reject its next
    command. *)
Definition flaky_world : World :=
  mkWorld true [true] {[ "motd" := RString (Corrupt "old") ]} [] ∅
          clock_2s [] [] [].

(** * Properties *)

(** ** Worlds *)

Section WorldFields.
Variables (e : Event) (evs : list Event) (w : World).
Variable f : gmap string RVal -> gmap string RVal.

Lemma kv_pushes : kv (pushes evs w) = kv w.
Proof. induction evs; simpl; auto. Qed.
Lemma redisEnabled_pushes : redisEnabled (pushes evs w) = redisEnabled w.
Proof. induction evs; simpl; auto. Qed.
Lemma redisFaults_pushes : redisFaults (pushes evs w) = redisFaults w.
Proof. induction evs; simpl; auto. Qed.
Lemma diskFaults_pushes : diskFaults (pushes evs w) = diskFaults w.
Proof. induction evs; simpl; auto. Qed.
Lemma disk_pushes : disk (pushes evs w) = disk w.
Proof. induction evs; simpl; auto. Qed.
Lemma now_pushes : now (pushes evs w) = now w.
Proof. induction evs; simpl; auto. Qed.
Lemma later_pushes : later (pushes evs w) = later w.
Proof. induction evs; simpl; auto. Qed.
Lemma random_pushes : random (pushes evs w) = random w.
Proof. induction evs; simpl; auto. Qed.

Lemma kv_tick : kv (tick w) = kv w.
Proof. unfold tick, new_Date; simpl; destruct (later w); auto. Qed.
Lemma redisEnabled_tick : redisEnabled (tick w) = redisEnabled w.
Proof. unfold tick, new_Date; simpl; destruct (later w); auto. Qed.
Lemma redisFaults_tick : redisFaults (tick w) = redisFaults w.
Proof. unfold tick, new_Date; simpl; destruct (later w); auto. Qed.
Lemma random_tick : random (tick w) = random w.
Proof. unfold tick, new_Date; simpl; destruct (later w); auto. Qed.

Lemma kv_drawn : kv (drawn w) = kv w.
Proof. unfold drawn, Math_random; destruct (random w); auto. Qed.
Lemma redisEnabled_drawn : redisEnabled (drawn w) = redisEnabled w.
Proof. unfold drawn, Math_random; destruct (random w); auto. Qed.
Lemma redisFaults_drawn : redisFaults (drawn w) = redisFaults w.
Proof. unfold drawn, Math_random; destruct (random w); auto. Qed.

Lemma kv_set_kv : kv (set_kv f w) = f (kv w).
Proof. reflexivity. Qed.
Lemma kv_push : kv (push e w) = kv w.
Proof. reflexivity. Qed.

Lemma healthy_push : healthy w -> healthy (push e w).
Proof. auto. Qed.
Lemma healthy_pushes : healthy w -> healthy (pushes evs w).
Proof. unfold healthy; rewrite redisEnabled_pushes, redisFaults_pushes; auto. Qed.
Lemma healthy_set_kv : healthy w -> healthy (set_kv f w).
Proof. auto. Qed.
Lemma healthy_tick : healthy w -> healthy (tick w).
Proof. unfold healthy; rewrite redisEnabled_tick, redisFaults_tick; auto. Qed.
Lemma healthy_drawn : healthy w -> healthy (drawn w).
Proof. unfold healthy; rewrite redisEnabled_drawn, redisFaults_drawn; auto. Qed.
End WorldFields.

Create HintDb world.
Create Rewrite HintDb world_rw.

#[local] Hint Rewrite kv_pushes redisEnabled_pushes redisFaults_pushes
  diskFaults_pushes disk_pushes now_pushes later_pushes random_pushes
  kv_tick redisEnabled_tick redisFaults_tick random_tick
  kv_drawn redisEnabled_drawn redisFaults_drawn kv_set_kv kv_push : world_rw.

#[local] Hint Resolve healthy_push healthy_pushes healthy_set_kv healthy_tick
  healthy_drawn : world.

(** ** Running computations *)

Lemma bind_Ok {A B} (m : M A) (k : A -> M B) w a w' :
  m w = (Ok a, w') -> bind m k w = k a w'.
Proof. unfold bind; intros ->; reflexivity. Qed.

Lemma bind_Throw {A B} (m : M A) (k : A -> M B) w e w' :
  m w = (Throw e, w') -> bind m k w = (Throw e, w').
Proof. unfold bind; intros ->; reflexivity. Qed.

Lemma try_Ok {A} (m : M A) h w a w' :
  m w = (Ok a, w') -> try_catch m h w = (Ok a, w').
Proof. unfold try_catch; intros ->; reflexivity. Qed.

Lemma try_Throw {A} (m : M A) h w e w' :
  m w = (Throw e, w') -> try_catch m h w = h e w'.
Proof. unfold try_catch; intros ->; reflexivity. Qed.

Lemma requireRedisClient_ok w :
  redisEnabled w = true -> requireRedisClient w = (Ok tt, w).
Proof.
  intros H; unfold requireRedisClient, bind, getRedisClient; rewrite H; reflexivity.
Qed.

Lemma requireRedisClient_off w :
  redisEnabled w = false ->
  exists w', requireRedisClient w = (Throw RedisNotAvailable, w').
Proof.
  intros H; unfold requireRedisClient, bind, getRedisClient; rewrite H.
  eexists; reflexivity.
Qed.

Lemma send_ok e w : redisFaults w = [] -> send e w = (Ok tt, push e w).
Proof. intros H; unfold send; simpl; rewrite H; reflexivity. Qed.

Lemma send_fault e w fs :
  redisFaults w = true :: fs ->
  send e w = (Throw ConnectionFault, set_redisFaults fs (push e w)).
Proof. intros H; unfold send; simpl; rewrite H; reflexivity. Qed.

Lemma Date_now_run w : Date_now w = (Ok (ms (now w)), tick w).
Proof. reflexivity. Qed.

(** ** What the store holds *)

Lemma fetch_string_spec key msg w :
  healthy w ->
  exists evs, fetch_string key msg w = (Ok (stored_doc (kv w) key), pushes evs w).
Proof.
  intros [He Hf]. unfold fetch_string.
  rewrite (bind_Ok _ _ _ _ _ (requireRedisClient_ok w He)).
  unfold try_catch, client_get, bind.
  rewrite (send_ok _ w Hf).
  unfold stored_doc, doc_of_text. simpl.
  destruct (kv w !! key) as [[t|h]|] eqn:E; simpl.
  - destruct (truthy t); simpl.
    + unfold bind, JSON_parse, ret.
      destruct (JSON_parse_text t); simpl.
      * exists [CmdGet key]; reflexivity.
      * exists [Log LError msg; CmdGet key]; reflexivity.
    + exists [CmdGet key]; reflexivity.
  - exists [Log LError msg; CmdGet key]; reflexivity.
  - exists [CmdGet key]; reflexivity.
Qed.

Lemma getTournamentConfig_spec id w :
  healthy w ->
  exists evs,
    getTournamentConfig id w
    = (Ok (stored_doc (kv w) (TOURNAMENT_PREFIX +:+ id)), pushes evs w).
Proof. apply fetch_string_spec. Qed.

Lemma getRoundData_spec id n w :
  healthy w ->
  exists evs,
    getRoundData id n w = (Ok (stored_doc (kv w) (roundKey id n)), pushes evs w).
Proof. apply fetch_string_spec. Qed.

Lemma getUserRoll_spec id uid w :
  healthy w ->
  exists evs,
    getUserRoll id uid w
    = (Ok (stored_field (kv w) (TOURNAMENT_ROLLS_PREFIX +:+ id) uid),
       pushes evs w).
Proof.
  intros [He Hf]. unfold getUserRoll.
  rewrite (bind_Ok _ _ _ _ _ (requireRedisClient_ok w He)).
  unfold try_catch, client_hget, bind.
  rewrite (send_ok _ w Hf).
  unfold stored_field, doc_of_text. simpl.
  set (key := TOURNAMENT_ROLLS_PREFIX +:+ id).
  destruct (kv w !! key) as [[t|h]|] eqn:E; simpl.
  - exists [Log LError "Failed to get user roll"; CmdHget key uid]; reflexivity.
  - destruct (hash_get uid h) as [t|]; simpl.
    + destruct (truthy t); simpl.
      * unfold bind, JSON_parse, ret.
        destruct (JSON_parse_text t); simpl.
        -- exists [CmdHget key uid]; reflexivity.
        -- exists [Log LError "Failed to get user roll"; CmdHget key uid];
             reflexivity.
      * exists [CmdHget key uid]; reflexivity.
    + exists [CmdHget key uid]; reflexivity.
  - exists [CmdHget key uid]; reflexivity.
Qed.

Lemma parse_each_run ts w :
  parse_each ts w
  = (match parse_all ts with Some ds => Ok ds | None => Throw SyntaxError end, w).
Proof.
  induction ts as [|t ts IH]; simpl; [reflexivity|].
  unfold bind, JSON_parse at 1.
  destruct t as [d|s|t]; simpl.
  - rewrite IH. destruct (parse_all ts); reflexivity.
  - reflexivity.
  - destruct (JSON_parse_text t) as [d|e] eqn:E; simpl.
    + rewrite IH. destruct (parse_all ts); reflexivity.
    + revert E. clear. induction t; simpl; intros; try congruence; auto.
Qed.

Lemma getAllUserRolls_spec id w :
  healthy w ->
  exists evs,
    getAllUserRolls id w
    = (Ok (stored_rolls (kv w) (TOURNAMENT_ROLLS_PREFIX +:+ id)), pushes evs w).
Proof.
  intros [He Hf]. unfold getAllUserRolls.
  rewrite (bind_Ok _ _ _ _ _ (requireRedisClient_ok w He)).
  unfold try_catch, client_hgetall, bind.
  rewrite (send_ok _ w Hf).
  unfold stored_rolls. simpl.
  set (key := TOURNAMENT_ROLLS_PREFIX +:+ id).
  destruct (kv w !! key) as [[t|h]|] eqn:E; simpl.
  - exists [Log LError "Failed to get all user rolls"; CmdHgetall key];
      reflexivity.
  - rewrite parse_each_run. destruct (parse_all (map snd h)); simpl.
    + exists [CmdHgetall key]; reflexivity.
    + exists [Log LError "Failed to get all user rolls"; CmdHgetall key];
        reflexivity.
  - exists [CmdHgetall key]; reflexivity.
Qed.

Lemma saveTournamentConfig_spec c w :
  healthy w ->
  exists evs,
    saveTournamentConfig c w
    = (Ok tt,
       pushes evs (set_kv (insert (TOURNAMENT_PREFIX +:+ cfg_id c)
                                  (RString (Json (DConfig c)))) w)).
Proof.
  intros [He Hf]. unfold saveTournamentConfig.
  rewrite (bind_Ok _ _ _ _ _ (requireRedisClient_ok w He)).
  unfold try_catch, client_set, bind.
  rewrite (send_ok _ w Hf). simpl.
  eexists [_; _]; reflexivity.
Qed.

Lemma saveRoundData_spec id n r w :
  healthy w ->
  exists evs,
    saveRoundData id n r w
    = (Ok tt,
       pushes evs (set_kv (insert (roundKey id n) (RString (Json (DRound r)))) w)).
Proof.
  intros [He Hf]. unfold saveRoundData.
  rewrite (bind_Ok _ _ _ _ _ (requireRedisClient_ok w He)).
  unfold try_catch, client_set, bind.
  rewrite (send_ok _ w Hf). simpl.
  eexists [_; _]; reflexivity.
Qed.

Lemma deleteAllUserRolls_spec id w :
  healthy w ->
  exists evs,
    deleteAllUserRolls id w
    = (Ok tt, pushes evs (set_kv (delete (TOURNAMENT_ROLLS_PREFIX +:+ id)) w)).
Proof.
  intros [He Hf]. unfold deleteAllUserRolls.
  rewrite (bind_Ok _ _ _ _ _ (requireRedisClient_ok w He)).
  unfold try_catch, client_del, bind.
  rewrite (send_ok _ w Hf). simpl.
  eexists [_; _]; reflexivity.
Qed.

Lemma saveUserRoll_spec id uid r w :
  healthy w ->
  let key := TOURNAMENT_ROLLS_PREFIX +:+ id in
  exists evs,
    saveUserRoll id uid r w
    = match hash_at (kv w) key with
      | Some h =>
          (Ok tt,
           pushes evs
             (set_kv (insert key (RHash (hash_set uid (Json (DRoll r)) h))) w))
      | None => (Throw WrongType, pushes evs w)
      end.
Proof.
  intros [He Hf] key. unfold saveUserRoll.
  rewrite (bind_Ok _ _ _ _ _ (requireRedisClient_ok w He)).
  unfold try_catch, client_hset, bind.
  rewrite (send_ok _ w Hf). unfold hash_at. simpl. fold key.
  destruct (kv w !! key) as [[t|h]|] eqn:E; simpl.
  - eexists [_; _]; reflexivity.
  - eexists [_; _]; reflexivity.
  - eexists [_; _]; reflexivity.
Qed.

(** ** The keys of one tournament are distinct *)

Lemma string_length_app (s1 s2 : string) :
  String.length (s1 +:+ s2) = (String.length s1 + String.length s2)%nat.
Proof.
  induction s1 as [|c s1 IH]; [reflexivity|].
  cbv [String.app]; fold (String.app s1 s2). simpl. rewrite IH. reflexivity.
Qed.

Lemma config_key_not_rolls_key id :
  TOURNAMENT_PREFIX +:+ id <> TOURNAMENT_ROLLS_PREFIX +:+ id.
Proof.
  intros H.
  assert (L : String.length (TOURNAMENT_PREFIX +:+ id)
              = String.length (TOURNAMENT_ROLLS_PREFIX +:+ id)) by (rewrite H; auto).
  rewrite !string_length_app in L. simpl in L. lia.
Qed.

Lemma round_key_not_rolls_key id n :
  roundKey id n <> TOURNAMENT_ROLLS_PREFIX +:+ id.
Proof.
  unfold roundKey, TOURNAMENT_ROLLS_PREFIX, TOURNAMENT_ROUND_PREFIX.
  intros H. cbv [String.app] in H. discriminate H.
Qed.

Lemma round_key_not_config_key id n :
  roundKey id n <> TOURNAMENT_PREFIX +:+ id.
Proof.
  intros H.
  assert (L : String.length (roundKey id n)
              = String.length (TOURNAMENT_PREFIX +:+ id)) by (rewrite H; auto).
  unfold roundKey in L. rewrite !string_length_app in L. simpl in L. lia.
Qed.

Lemma round_key_inj id n m : roundKey id n = roundKey id m -> n = m.
Proof.
  unfold roundKey. intros H.
  apply String.app_inj in H. apply String.app_inj in H.
  apply String.app_inj in H. apply pretty_Z_inj in H. exact H.
Qed.

(** ** Hashes *)

Lemma hash_get_set_eq f v h : hash_get f (hash_set f v h) = Some v.
Proof.
  induction h as [|[g u] h IH]; simpl.
  - destruct (decide (f = f)); congruence.
  - destruct (decide (g = f)) as [->|N]; simpl.
    + destruct (decide (f = f)); congruence.
    + destruct (decide (g = f)); congruence.
Qed.

Lemma hash_get_set_ne f g v h :
  g <> f -> hash_get g (hash_set f v h) = hash_get g h.
Proof.
  intros N. induction h as [|[k u] h IH]; simpl.
  - destruct (decide (f = g)); congruence.
  - destruct (decide (k = f)) as [->|N']; simpl.
    + destruct (decide (f = g)); congruence.
    + destruct (decide (k = g)); congruence.
Qed.

(** ** Sorting by roll, best first *)

Lemma insert_stable_perm {A} (cmp : A -> A -> Z) x l :
  Permutation (insert_stable cmp x l) (x :: l).
Proof.
  induction l as [|y l IH]; simpl; [reflexivity|].
  destruct (cmp y x <? 0); [|reflexivity].
  rewrite IH. apply perm_swap.
Qed.

Lemma Array_sort_perm {A} (cmp : A -> A -> Z) l :
  Permutation (Array_sort cmp l) l.
Proof.
  induction l as [|x l IH]; simpl; [reflexivity|].
  fold (Array_sort cmp l). rewrite insert_stable_perm, IH. reflexivity.
Qed.

Lemma Array_sort_length {A} (cmp : A -> A -> Z) l :
  length (Array_sort cmp l) = length l.
Proof. apply Permutation_length, Array_sort_perm. Qed.

Lemma insert_by_roll_sorted x l :
  StronglySorted desc l ->
  StronglySorted desc (insert_stable by_roll_desc x l).
Proof.
  induction 1 as [|y l S IH F]; simpl.
  - repeat constructor.
  - unfold by_roll_desc at 1. destruct (ur_roll x - ur_roll y <? 0) eqn:E.
    + apply Z.ltb_lt in E. constructor; [exact IH|].
      rewrite insert_stable_perm. constructor; [unfold desc; lia | exact F].
    + apply Z.ltb_ge in E. constructor; [constructor; assumption|].
      constructor; [unfold desc; lia|].
      eapply Forall_impl; [exact F|]. unfold desc; intros; simpl in *; lia.
Qed.

Lemma sort_by_roll_sorted l :
  StronglySorted desc (Array_sort by_roll_desc l).
Proof.
  induction l as [|x l IH]; simpl; [constructor|].
  apply insert_by_roll_sorted, IH.
Qed.

(** ** Symbolic execution *)

Lemma bind_ret {A B} (a : A) (k : A -> M B) w : bind (ret a) k w = k a w.
Proof. reflexivity. Qed.

Lemma bind_assoc {A B C} (m : M A) (f : A -> M B) (k : B -> M C) w :
  bind (bind m f) k w = bind m (fun a => bind (f a) k) w.
Proof. unfold bind. destruct (m w) as [[a|e] w']; reflexivity. Qed.

Lemma Math_random_run w : Math_random w = (Ok (hd 0%Q (random w)), drawn w).
Proof. unfold drawn, Math_random. destruct (random w); reflexivity. Qed.

Ltac red_now :=
  cbn [as_config as_roll as_round];
  rewrite ?bind_assoc, ?bind_ret; cbv beta iota.

Ltac finish_ends :=
  eexists; split; [reflexivity|];
  autorewrite with world_rw; split; [try reflexivity | auto 10 with world].

(** ** processUserRoll, case by case *)

Section ProcessUserRoll.
Variables (id uid name : string) (w : World).
Hypothesis Hw : healthy w.

Local Abbreviation cfgKey := (TOURNAMENT_PREFIX +:+ id).
Local Abbreviation rollsKey := (TOURNAMENT_ROLLS_PREFIX +:+ id).

Lemma processUserRoll_not_found :
  stored_doc (kv w) cfgKey = None ->
  ends (processUserRoll id uid name) w
       (Ok (mkRollResult false None "Tournament not found")) (kv w).
Proof.
  intros Hc. destruct (getTournamentConfig_spec id w Hw) as [ev1 E1].
  unfold ends, processUserRoll.
  rewrite (bind_Ok _ _ _ _ _ E1), Hc. finish_ends.
Qed.

Lemma processUserRoll_off_type d :
  stored_doc (kv w) cfgKey = Some d ->
  (forall c, d <> DConfig c) ->
  ends (processUserRoll id uid name) w (Throw TypeConfusion) (kv w).
Proof.
  intros Hc Hd. destruct (getTournamentConfig_spec id w Hw) as [ev1 E1].
  unfold ends, processUserRoll.
  rewrite (bind_Ok _ _ _ _ _ E1), Hc.
  destruct d; try (exfalso; eapply Hd; reflexivity); finish_ends.
Qed.

Lemma processUserRoll_not_active c :
  stored_doc (kv w) cfgKey = Some (DConfig c) ->
  cfg_status c <> ACTIVE ->
  ends (processUserRoll id uid name) w
       (Ok (mkRollResult false None "Tournament is not active")) (kv w).
Proof.
  intros Hc Hs. destruct (getTournamentConfig_spec id w Hw) as [ev1 E1].
  unfold ends, processUserRoll.
  rewrite (bind_Ok _ _ _ _ _ E1), Hc. red_now.
  rewrite bool_decide_eq_false_2 by assumption. cbn [negb]. finish_ends.
Qed.

Lemma processUserRoll_deadline c :
  stored_doc (kv w) cfgKey = Some (DConfig c) ->
  cfg_status c = ACTIVE ->
  cfg_deadline c < ms (now w) ->
  ends (processUserRoll id uid name) w
       (Ok (mkRollResult false None "Tournament deadline has passed")) (kv w).
Proof.
  intros Hc Hs Hd. destruct (getTournamentConfig_spec id w Hw) as [ev1 E1].
  unfold ends, processUserRoll.
  rewrite (bind_Ok _ _ _ _ _ E1), Hc. red_now.
  rewrite Hs, bool_decide_eq_true_2 by reflexivity. cbn [negb].
  rewrite (bind_Ok _ _ _ _ _ (Date_now_run _)). autorewrite with world_rw.
  destruct (Z.ltb_spec (cfg_deadline c) (ms (now w))) as [L|L]; [|lia].
  finish_ends.
Qed.

(** From here on the tournament is open: active, before its deadline. *)
Variable c : TournamentConfig.
Hypothesis Hc : stored_doc (kv w) cfgKey = Some (DConfig c).
Hypothesis Hs : cfg_status c = ACTIVE.
Hypothesis Hd : ms (now w) <= cfg_deadline c.

Local Abbreviation rollValue := (draw (hd 0%Q (random w)) (cfg_maxRoll c)).

Ltac open_tournament ev1 ev2 :=
  destruct (getTournamentConfig_spec id w Hw) as [ev1 E1];
  unfold ends, processUserRoll;
  rewrite (bind_Ok _ _ _ _ _ E1), Hc; red_now;
  rewrite Hs, bool_decide_eq_true_2 by reflexivity; cbn [negb];
  rewrite (bind_Ok _ _ _ _ _ (Date_now_run _)); autorewrite with world_rw;
  destruct (Z.ltb_spec (cfg_deadline c) (ms (now w))) as [L|L]; [lia|];
  assert (H1 : healthy (tick (pushes ev1 w))) by auto with world;
  destruct (getUserRoll_spec id uid _ H1) as [ev2 E2];
  rewrite (bind_Ok _ _ _ _ _ E2); autorewrite with world_rw.

Lemma processUserRoll_roll_off_type d :
  stored_field (kv w) rollsKey uid = Some d ->
  (forall r, d <> DRoll r) ->
  ends (processUserRoll id uid name) w (Throw TypeConfusion) (kv w).
Proof.
  intros He Hn. open_tournament ev1 ev2. rewrite He.
  destruct d; try (exfalso; eapply Hn; reflexivity); red_now; finish_ends.
Qed.

Lemma processUserRoll_limit e :
  stored_field (kv w) rollsKey uid = Some (DRoll e) ->
  cfg_rollLimit c <= ur_rollsUsed e ->
  ends (processUserRoll id uid name) w
       (Ok (mkRollResult false None (limit_message (cfg_rollLimit c))))
       (kv w).
Proof.
  intros He Hl. open_tournament ev1 ev2. rewrite He. red_now.
  destruct (Z.leb_spec (cfg_rollLimit c) (ur_rollsUsed e)) as [L'|L']; [|lia].
  finish_ends.
Qed.

Ltac draw_roll :=
  rewrite (bind_Ok _ _ _ _ _ (Math_random_run _)); autorewrite with world_rw;
  cbv beta iota zeta.

Ltac save_roll ev3 E3 :=
  match goal with
  | |- context [bind (saveUserRoll id uid ?r) _ ?w0] =>
      let H2 := fresh "H2" in
      assert (H2 : healthy w0) by auto 10 with world;
      destruct (saveUserRoll_spec id uid r w0 H2) as [ev3 E3];
      cbv zeta in E3; autorewrite with world_rw in E3
  end.

Lemma processUserRoll_better e h :
  stored_field (kv w) rollsKey uid = Some (DRoll e) ->
  hash_at (kv w) rollsKey = Some h ->
  ur_rollsUsed e < cfg_rollLimit c ->
  ur_roll e < rollValue ->
  let roll := mkRoll uid name rollValue (ms (now w)) (ur_rollsUsed e + 1) in
  ends (processUserRoll id uid name) w
       (Ok (mkRollResult true (Some roll)
              (rolled_message rollValue (ur_rollsUsed e + 1) (cfg_rollLimit c))))
       (<[rollsKey := RHash (hash_set uid (Json (DRoll roll)) h)]> (kv w)).
Proof.
  intros He Hh Hl Hb roll. open_tournament ev1 ev2. rewrite He. red_now.
  destruct (Z.leb_spec (cfg_rollLimit c) (ur_rollsUsed e)) as [L'|L']; [lia|].
  draw_roll.
  destruct (Z.ltb_spec (ur_roll e) rollValue) as [B|B]; [|lia].
  save_roll ev3 E3.
  rewrite Hh in E3. rewrite (bind_Ok _ _ _ _ _ E3). finish_ends.
Qed.

Lemma processUserRoll_not_better e h :
  stored_field (kv w) rollsKey uid = Some (DRoll e) ->
  hash_at (kv w) rollsKey = Some h ->
  ur_rollsUsed e < cfg_rollLimit c ->
  rollValue <= ur_roll e ->
  ends (processUserRoll id uid name) w
       (Ok (mkRollResult true (Some e)
              (not_better_message rollValue (ur_roll e) (ur_rollsUsed e + 1)
                 (cfg_rollLimit c))))
       (<[rollsKey := RHash (hash_set uid
             (Json (DRoll (set_rollsUsed (ur_rollsUsed e + 1) e))) h)]> (kv w)).
Proof.
  intros He Hh Hl Hb. open_tournament ev1 ev2. rewrite He. red_now.
  destruct (Z.leb_spec (cfg_rollLimit c) (ur_rollsUsed e)) as [L'|L']; [lia|].
  draw_roll.
  destruct (Z.ltb_spec (ur_roll e) rollValue) as [B|B]; [lia|].
  save_roll ev3 E3.
  rewrite Hh in E3. rewrite (bind_Ok _ _ _ _ _ E3). finish_ends.
Qed.

Lemma processUserRoll_first h :
  stored_field (kv w) rollsKey uid = None ->
  hash_at (kv w) rollsKey = Some h ->
  let roll := mkRoll uid name rollValue (ms (now w)) 1 in
  ends (processUserRoll id uid name) w
       (Ok (mkRollResult true (Some roll)
              (rolled_message rollValue 1 (cfg_rollLimit c))))
       (<[rollsKey := RHash (hash_set uid (Json (DRoll roll)) h)]> (kv w)).
Proof.
  intros He Hh roll. open_tournament ev1 ev2. rewrite He. red_now.
  draw_roll. save_roll ev3 E3.
  rewrite Hh in E3. rewrite (bind_Ok _ _ _ _ _ E3). finish_ends.
Qed.

Lemma processUserRoll_wrong_type :
  stored_field (kv w) rollsKey uid = None ->
  hash_at (kv w) rollsKey = None ->
  ends (processUserRoll id uid name) w (Throw WrongType) (kv w).
Proof.
  intros He Hh. open_tournament ev1 ev2. rewrite He. red_now.
  draw_roll. save_roll ev3 E3.
  rewrite Hh in E3. rewrite (bind_Throw _ _ _ _ _ E3). finish_ends.
Qed.
End ProcessUserRoll.

(** ** Stored configurations and rolls *)

Lemma stored_field_hash m key f d :
  stored_field m key f = Some d -> exists h, hash_at m key = Some h.
Proof.
  unfold stored_field, hash_at. destruct (m !! key) as [[t|h]|]; try discriminate.
  eauto.
Qed.

Lemma stored_field_after_hset m key uid r h v :
  hash_at m key = Some h ->
  stored_field (<[key := RHash (hash_set uid (Json (DRoll r)) h)]> m) key v
  = if decide (v = uid) then Some (DRoll r) else stored_field m key v.
Proof.
  intros Hh. unfold stored_field. rewrite lookup_insert_eq.
  destruct (decide (v = uid)) as [->|N].
  - rewrite hash_get_set_eq. reflexivity.
  - rewrite hash_get_set_ne by assumption.
    unfold hash_at in Hh. destruct (m !! key) as [[t|h']|]; try discriminate.
    + inversion Hh; reflexivity.
    + inversion Hh; reflexivity.
Qed.

Lemma stored_doc_insert_ne m key key' v :
  key' <> key -> stored_doc (<[key' := v]> m) key = stored_doc m key.
Proof. intros N. unfold stored_doc. rewrite lookup_insert_ne by assumption. reflexivity. Qed.

Lemma stored_doc_delete_ne m key key' :
  key' <> key -> stored_doc (delete key' m) key = stored_doc m key.
Proof. intros N. unfold stored_doc. rewrite lookup_delete_ne by assumption. reflexivity. Qed.

Lemma stored_doc_insert_eq m key d :
  stored_doc (<[key := RString (Json d)]> m) key = Some d.
Proof. unfold stored_doc. rewrite lookup_insert_eq. reflexivity. Qed.

(** Every way a call of [processUserRoll] can end, in a healthy world that
    holds the configuration: either the key space is untouched, or exactly
    the caller's field of the roll hash was set, to a roll that is at least
    as good as the one it replaces and counts one more draw. *)
Lemma processUserRoll_summary id uid name w c res w' :
  healthy w ->
  stored_config w id = Some c ->
  processUserRoll id uid name w = (res, w') ->
  healthy w' /\
  (kv w' = kv w \/
   exists h r',
     hash_at (kv w) (TOURNAMENT_ROLLS_PREFIX +:+ id) = Some h /\
     kv w' = <[TOURNAMENT_ROLLS_PREFIX +:+ id :=
                 RHash (hash_set uid (Json (DRoll r')) h)]> (kv w) /\
     match stored_roll w id uid with
     | Some e => ur_roll e <= ur_roll r' /\
                 ur_rollsUsed r' = ur_rollsUsed e + 1 /\
                 ur_rollsUsed e < cfg_rollLimit c
     | None => ur_rollsUsed r' = 1
     end).
Proof.
  intros Hw Hcfg Hrun. unfold stored_config in Hcfg.
  destruct (stored_doc (kv w) (TOURNAMENT_PREFIX +:+ id)) as [[c0| | | | |]|] eqn:Hc;
    try discriminate.
  inversion Hcfg; subst c0; clear Hcfg.
  assert (quiet : forall r, ends (processUserRoll id uid name) w r (kv w) ->
                  healthy w' /\ kv w' = kv w).
  { intros r (w'' & E & K & Hh). rewrite E in Hrun. inversion Hrun; subst.
    split; assumption. }
  destruct (decide (cfg_status c = ACTIVE)) as [Hs|Hs].
  2:{ destruct (quiet _ (processUserRoll_not_active id uid name w Hw c Hc Hs)).
      split; [|left]; assumption. }
  destruct (Z.lt_ge_cases (cfg_deadline c) (ms (now w))) as [Hd|Hd].
  { destruct (quiet _ (processUserRoll_deadline id uid name w Hw c Hc Hs Hd)).
    split; [|left]; assumption. }
  unfold stored_roll.
  destruct (stored_field (kv w) (TOURNAMENT_ROLLS_PREFIX +:+ id) uid)
    as [d|] eqn:He.
  - destruct (stored_field_hash _ _ _ _ He) as [h Hh].
    assert (off : (forall r, d <> DRoll r) ->
                  healthy w' /\ kv w' = kv w).
    { intros N. eapply quiet, processUserRoll_roll_off_type; eassumption. }
    destruct d as [|e| | | |];
      try (destruct off; [intros ? ?; discriminate|]; split; [|left]; assumption).
    clear off.
    destruct (Z.le_gt_cases (cfg_rollLimit c) (ur_rollsUsed e)) as [Hl|Hl].
    { destruct (quiet _ (processUserRoll_limit id uid name w Hw c Hc Hs Hd e He Hl)).
      split; [|left]; assumption. }
    destruct (Z.lt_ge_cases (ur_roll e)
                (draw (hd 0%Q (random w)) (cfg_maxRoll c))) as [Hb|Hb].
    + destruct (processUserRoll_better id uid name w Hw c Hc Hs Hd e h He Hh Hl Hb)
        as (w'' & E & K & Hh').
      rewrite E in Hrun; inversion Hrun; subst.
      split; [assumption|right]. eexists _, _. split; [eassumption|].
      split; [exact K|]. simpl. lia.
    + destruct (processUserRoll_not_better id uid name w Hw c Hc Hs Hd e h He Hh Hl Hb)
        as (w'' & E & K & Hh').
      rewrite E in Hrun; inversion Hrun; subst.
      split; [assumption|right]. eexists _, _. split; [eassumption|].
      split; [exact K|]. simpl. lia.
  - destruct (hash_at (kv w) (TOURNAMENT_ROLLS_PREFIX +:+ id)) as [h|] eqn:Hh.
    2:{ destruct (quiet _ (processUserRoll_wrong_type id uid name w Hw c Hc Hs Hd He Hh)).
        split; [|left]; assumption. }
    destruct (processUserRoll_first id uid name w Hw c Hc Hs Hd h He Hh)
      as (w'' & E & K & Hh').
    rewrite E in Hrun; inversion Hrun; subst.
    split; [assumption|right]. eexists _, _. split; [reflexivity|].
    split; [exact K|]. reflexivity.
Qed.

(** ** Rolling within a round *)

Lemma processUserRoll_step id uid name w c :
  healthy w ->
  stored_config w id = Some c ->
  1 <= cfg_rollLimit c ->
  let w' := snd (processUserRoll id uid name w) in
  healthy w' /\ stored_config w' id = Some c /\
  (within_limit w id (cfg_rollLimit c) -> within_limit w' id (cfg_rollLimit c)) /\
  no_worse w w' id.
Proof.
  intros Hw Hc Hl. destruct (processUserRoll id uid name w) as [res w'] eqn:Hrun.
  simpl. destruct (processUserRoll_summary _ _ _ _ _ _ _ Hw Hc Hrun) as [Hh [K|K]].
  - split; [assumption|]. unfold stored_config, within_limit, no_worse, stored_roll.
    rewrite K. split; [exact Hc|]. split; [auto|]. intros v r E. exists r. split; [exact E|lia].
  - destruct K as (h & r' & Hat & K & Hr). split; [assumption|].
    assert (Sr : forall v, stored_roll w' id v
                 = if decide (v = uid) then Some r' else stored_roll w id v).
    { intros v. unfold stored_roll. rewrite K.
      rewrite (stored_field_after_hset _ _ _ _ _ _ Hat).
      destruct (decide (v = uid)); reflexivity. }
    split.
    { unfold stored_config. rewrite K, stored_doc_insert_ne; [exact Hc|].
      intros E. symmetry in E. exact (config_key_not_rolls_key _ E). }
    split.
    + intros Hin v r E. rewrite Sr in E. destruct (decide (v = uid)) as [->|N].
      * inversion E; subst r'. destruct (stored_roll w id uid) as [e|] eqn:Ee.
        -- lia.
        -- lia.
      * eapply Hin; eassumption.
    + intros v r E. rewrite Sr. destruct (decide (v = uid)) as [->|N].
      * exists r'. split; [reflexivity|]. rewrite E in Hr. lia.
      * exists r. split; [exact E|lia].
Qed.

Lemma play_invariants id calls : forall w c,
  healthy w ->
  stored_config w id = Some c ->
  1 <= cfg_rollLimit c ->
  healthy (play id calls w) /\ stored_config (play id calls w) id = Some c /\
  (within_limit w id (cfg_rollLimit c) ->
   within_limit (play id calls w) id (cfg_rollLimit c)) /\
  no_worse w (play id calls w) id.
Proof.
  induction calls as [|[uid name] rest IH]; intros w c Hw Hc Hl; simpl.
  - split; [assumption|]. split; [assumption|]. split; [auto|].
    intros v r E. exists r. split; [exact E|lia].
  - destruct (processUserRoll_step id uid name w c Hw Hc Hl) as (H1 & C1 & L1 & M1).
    destruct (IH _ c H1 C1 Hl) as (H2 & C2 & L2 & M2).
    split; [assumption|]. split; [assumption|]. split; [auto|].
    intros v r E. destruct (M1 v r E) as (r1 & E1 & Le1).
    destruct (M2 v r1 E1) as (r2 & E2 & Le2). exists r2. split; [exact E2|lia].
Qed.

(** C2.  Rolling within a round, in a healthy world whose tournament allows
    at least one roll (the data model has [rollLimit] in 1..10) and in which
    no stored roll is over the limit (as at the start of a round).  After any
    sequence of [processUserRoll] calls:
    - no stored [rollsUsed] exceeds [rollLimit];
    - every stored roll is at least what it was;
    and the next call of a user who holds a roll, on the open tournament,
    draws [Math.floor(Math.random() * maxRoll) + 1], the product rounded to
    the nearest double, and
    - fails with "You have used all N rolls" and leaves the key space as it
      was when the user has used all rolls;
    - otherwise, when the draw does not exceed the stored roll, keeps the
      stored value and time, stores [rollsUsed + 1], returns the roll as it
      was, and names the losing draw, the kept roll and the new count in its
      message;
    - otherwise stores the draw with the time of the call and
      [rollsUsed + 1], and returns it. *)
Theorem C2_roll_limit_and_best_of id c w calls :
  healthy w ->
  stored_config w id = Some c ->
  1 <= cfg_rollLimit c ->
  within_limit w id (cfg_rollLimit c) ->
  let w1 := play id calls w in
  within_limit w1 id (cfg_rollLimit c) /\
  no_worse w w1 id /\
  forall uid name e,
    stored_roll w1 id uid = Some e ->
    cfg_status c = ACTIVE ->
    ms (now w1) <= cfg_deadline c ->
    let rollValue :=
      Qfloor (round_double (hd 0%Q (random w1) * inject_Z (cfg_maxRoll c))) + 1 in
    (cfg_rollLimit c <= ur_rollsUsed e ->
     exists w2,
       processUserRoll id uid name w1
       = (Ok (mkRollResult false None
                ("You have used all " +:+ pretty (cfg_rollLimit c) +:+ " rolls")),
          w2)
       /\ kv w2 = kv w1) /\
    (ur_rollsUsed e < cfg_rollLimit c -> rollValue <= ur_roll e ->
     exists w2,
       processUserRoll id uid name w1
       = (Ok (mkRollResult true (Some e)
                ("Rolled " +:+ pretty rollValue
                 +:+ ", but your previous roll of " +:+ pretty (ur_roll e)
                 +:+ " was better. (" +:+ pretty (ur_rollsUsed e + 1) +:+ "/"
                 +:+ pretty (cfg_rollLimit c) +:+ " rolls used)")), w2)
       /\ stored_roll w2 id uid
          = Some (mkRoll (ur_userId e) (ur_username e) (ur_roll e)
                         (ur_timestamp e) (ur_rollsUsed e + 1))) /\
    (ur_rollsUsed e < cfg_rollLimit c -> ur_roll e < rollValue ->
     exists w2,
       processUserRoll id uid name w1
       = (Ok (mkRollResult true
                (Some (mkRoll uid name rollValue (ms (now w1)) (ur_rollsUsed e + 1)))
                ("Rolled " +:+ pretty rollValue +:+ "! ("
                 +:+ pretty (ur_rollsUsed e + 1) +:+ "/"
                 +:+ pretty (cfg_rollLimit c) +:+ " rolls used)")), w2)
       /\ stored_roll w2 id uid
          = Some (mkRoll uid name rollValue (ms (now w1)) (ur_rollsUsed e + 1))).
Proof.
  intros Hw Hc Hl Hin w1.
  destruct (play_invariants id calls w c Hw Hc Hl) as (H1 & C1 & L1 & M1).
  fold w1 in H1, C1, L1, M1.
  split; [auto|]. split; [exact M1|].
  intros uid name e Ee Hs Hd.
  change (Qfloor (round_double (hd 0%Q (random w1) * inject_Z (cfg_maxRoll c))) + 1)
    with (draw (hd 0%Q (random w1)) (cfg_maxRoll c)).
  intros rollValue.
  unfold stored_config in C1.
  destruct (stored_doc (kv w1) (TOURNAMENT_PREFIX +:+ id)) as [[c0| | | | |]|] eqn:Hdoc;
    try discriminate.
  inversion C1; subst c0; clear C1.
  unfold stored_roll in Ee.
  destruct (stored_field (kv w1) (TOURNAMENT_ROLLS_PREFIX +:+ id) uid)
    as [[|e0| | | |]|] eqn:Hf; try discriminate.
  inversion Ee; subst e0; clear Ee.
  destruct (stored_field_hash _ _ _ _ Hf) as [h Hh].
  assert (Hset : forall r w2,
            kv w2 = <[TOURNAMENT_ROLLS_PREFIX +:+ id :=
                        RHash (hash_set uid (Json (DRoll r)) h)]> (kv w1) ->
            stored_roll w2 id uid = Some r).
  { intros r w2 K. unfold stored_roll.
    rewrite K, (stored_field_after_hset _ _ _ _ _ _ Hh).
    destruct (decide (uid = uid)); [reflexivity|congruence]. }
  split; [|split].
  - intros Hfull.
    destruct (processUserRoll_limit id uid name w1 H1 c Hdoc Hs Hd e Hf Hfull)
      as (w2 & E & K & _).
    exists w2. split; assumption.
  - intros Hfree Hlose.
    destruct (processUserRoll_not_better id uid name w1 H1 c Hdoc Hs Hd e h Hf Hh
                Hfree Hlose) as (w2 & E & K & _).
    exists w2. split; [exact E|]. exact (Hset _ _ K).
  - intros Hfree Hwin.
    destruct (processUserRoll_better id uid name w1 H1 c Hdoc Hs Hd e h Hf Hh
                Hfree Hwin) as (w2 & E & K & _).
    exists w2. split; [exact E|]. exact (Hset _ _ K).
Qed.

(** ** endRound, step by step *)

Lemma as_rolls_run ds w :
  as_rolls ds w
  = (match rolls_of ds with Some rs => Ok rs | None => Throw TypeConfusion end, w).
Proof.
  induction ds as [|d ds IH]; [reflexivity|].
  destruct d; try reflexivity. simpl. unfold bind, ret at 1. simpl.
  rewrite IH. destruct (rolls_of ds); reflexivity.
Qed.

Lemma rolls_of_map rs : rolls_of (map DRoll rs) = Some rs.
Proof. induction rs as [|r rs IH]; simpl; [|rewrite IH]; reflexivity. Qed.

Lemma startTime_run w id n w1 :
  healthy w1 ->
  kv w1 = kv w ->
  round_slot_typed w id n ->
  exists startTime w2,
    (match stored_doc (kv w) (roundKey id n) with
     | None => Date_now
     | Some d =>
         r <- as_round d ;;
         if rd_startTime r =? 0 then Date_now else ret (rd_startTime r)
     end) w1 = (Ok startTime, w2)
    /\ kv w2 = kv w /\ healthy w2.
Proof.
  intros Hw K Ht.
  destruct (stored_doc (kv w) (roundKey id n)) as [d|] eqn:E.
  - destruct (Ht d E) as [r ->]. red_now.
    destruct (rd_startTime r =? 0).
    + rewrite Date_now_run. eexists _, _. split; [reflexivity|].
      autorewrite with world_rw. auto with world.
    + eexists _, _. split; [reflexivity|]. auto.
  - rewrite Date_now_run. eexists _, _. split; [reflexivity|].
    autorewrite with world_rw. auto with world.
Qed.

Ltac exec_with spec :=
  lazymatch goal with
  | |- context [bind ?m _ ?w0] =>
      let H := fresh "Hh" in
      let ev := fresh "ev" in
      let E := fresh "E" in
      assert (H : healthy w0) by auto 12 with world;
      destruct (spec w0 H) as [ev E];
      rewrite (bind_Ok _ _ _ _ _ E); clear E;
      autorewrite with world_rw
  end.

Section EndRound.
Variables (id : string) (pct : Q) (w : World) (c : TournamentConfig).
Variable rs : list UserRoll.
Hypothesis Hw : healthy w.
Hypothesis Hc : stored_doc (kv w) (TOURNAMENT_PREFIX +:+ id) = Some (DConfig c).
Hypothesis Hs : cfg_status c = ACTIVE.
Hypothesis Hr : recorded_rolls w id = Some rs.
Hypothesis Hne : rs <> [].
Hypothesis Ht : round_slot_typed w id (cfg_currentRound c).

Local Abbreviation cur := (cfg_currentRound c).
Local Abbreviation sorted := (Array_sort by_roll_desc rs).
Local Abbreviation n := (Z.of_nat (length (Array_sort by_roll_desc rs))).
Local Abbreviation e := (eliminateCount (Z.of_nat (length (Array_sort by_roll_desc rs))) pct).
Local Abbreviation elim := (eliminated (Array_sort by_roll_desc rs) (eliminateCount (Z.of_nat (length (Array_sort by_roll_desc rs))) pct)).

Lemma endRound_run :
exists startTime endTime updatedAt top,
  sorted !! 0%nat = Some top /\
  let rd := mkRound cur startTime (Some endTime) (map ur_userId sorted) elim
              (Some (cutoffRoll sorted (cutoffIndex n e))) in
  let base := delete (TOURNAMENT_ROLLS_PREFIX +:+ id)
                (<[roundKey id cur := RString (Json (DRound rd))]> (kv w)) in
  if n - e <=? 1 then
    ends (endRound id pct) w
         (Ok (mkEndRoundResult true (complete_message (ur_username top))
                (Some elim)))
         (<[TOURNAMENT_PREFIX +:+ cfg_id c :=
              RString (Json (DConfig (set_status COMPLETED updatedAt c)))]> base)
  else
    exists startNext,
      ends (endRound id pct) w
           (Ok (mkEndRoundResult true (next_round_message (cur + 1) e)
                  (Some elim)))
           (<[roundKey id (cur + 1) :=
                RString (Json (DRound
                  (mkRound (cur + 1) startNext None
                     (map ur_userId (slice 0 (Some (n - e)) sorted)) [] None)))]>
              (<[TOURNAMENT_PREFIX +:+ cfg_id c :=
                   RString (Json (DConfig
                     (set_currentRound (cur + 1) updatedAt c)))]> base)).
Proof.
assert (Htop : exists top, sorted !! 0%nat = Some top).
{ destruct (Array_sort by_roll_desc rs) as [|t l] eqn:E.
  - apply (f_equal length) in E. rewrite Array_sort_length in E.
    destruct rs; [congruence|discriminate].
  - exists t; reflexivity. }
destruct Htop as [top Htop].
destruct (getTournamentConfig_spec id w Hw) as [ev1 E1].
unfold ends, endRound.
rewrite (bind_Ok _ _ _ _ _ E1), Hc. clear E1. red_now.
rewrite Hs, bool_decide_eq_true_2 by reflexivity. cbn [negb].
exec_with (getAllUserRolls_spec id).
unfold recorded_rolls in Hr.
match goal with
| |- context [bind (as_rolls ?ds) _ ?w0] =>
    assert (Ea : as_rolls ds w0 = (Ok rs, w0))
      by (rewrite as_rolls_run, Hr; reflexivity);
    rewrite (bind_Ok _ _ _ _ _ Ea); clear Ea
end.
rewrite bool_decide_eq_false_2 by (destruct rs; [congruence|discriminate]).
cbv zeta.
exec_with (getRoundData_spec id cur).
match goal with
| |- context [bind _ _ ?w0] =>
    destruct (startTime_run w id cur w0)
      as (startTime & w2 & Est & K2 & H2);
    [auto 12 with world | autorewrite with world_rw; reflexivity | exact Ht |]
end.
rewrite (bind_Ok _ _ _ _ _ Est). clear Est.
rewrite (bind_Ok _ _ _ _ _ (Date_now_run _)).
exec_with (saveRoundData_spec id cur
  (mkRound cur startTime (Some (ms (now w2))) (map ur_userId sorted) elim
     (Some (cutoffRoll sorted (cutoffIndex n e))))).
exec_with (deleteAllUserRolls_spec id).
exists startTime, (ms (now w2)).
match goal with
| |- context [pushes ev3 ?x] => set (W3 := pushes ev3 x) in *
end.
assert (HW3 : healthy W3) by (unfold W3; auto 14 with world).
assert (KW3 : kv W3 = delete (TOURNAMENT_ROLLS_PREFIX +:+ id)
                (<[roundKey id cur := RString (Json (DRound
                     (mkRound cur startTime (Some (ms (now w2)))
                        (map ur_userId sorted) elim
                        (Some (cutoffRoll sorted (cutoffIndex n e))))))]>
                   (kv w)))
  by (unfold W3; autorewrite with world_rw; rewrite K2; reflexivity).
clearbody W3.
exists (ms (now W3)), top. split; [exact Htop|]. cbv zeta.
destruct (n - e <=? 1).
- rewrite (bind_Ok _ _ _ _ _ (Date_now_run W3)).
  exec_with (saveTournamentConfig_spec (set_status COMPLETED (ms (now W3)) c)).
  change (index sorted 0) with (sorted !! 0%nat). rewrite Htop.
  eexists; split; [reflexivity|].
  autorewrite with world_rw. rewrite KW3. split; [reflexivity|auto 14 with world].
- rewrite (bind_Ok _ _ _ _ _ (Date_now_run W3)).
  exec_with (saveTournamentConfig_spec
               (set_currentRound (cur + 1) (ms (now W3)) c)).
  rewrite (bind_Ok _ _ _ _ _ (Date_now_run _)).
  cbn [cfg_currentRound set_currentRound].
  lazymatch goal with
  | |- context [bind (saveRoundData id (cur + 1) ?r) _ ?w0] =>
      assert (H5 : healthy w0) by auto 16 with world;
      destruct (saveRoundData_spec id (cur + 1) r w0 H5) as [ev5 E5];
      rewrite (bind_Ok _ _ _ _ _ E5); clear E5
  end.
  eexists. eexists; split; [reflexivity|].
  autorewrite with world_rw. rewrite KW3. split; [reflexivity|auto 16 with world].
Qed.
End EndRound.

(** ** Doubles *)

Section Doubles.
Local Open Scope Q_scope.

Lemma pow2_pos e : 0 < pow2 e.
Proof. apply Qpower_0_lt. reflexivity. Qed.

Lemma pow2_add a b : pow2 (a + b) == pow2 a * pow2 b.
Proof. apply Qpower_plus. discriminate. Qed.

Lemma pow2_le a b : (a <= b)%Z -> pow2 a <= pow2 b.
Proof. intros H. apply Qpower_le_compat_l; [exact H|discriminate]. Qed.

Lemma pow2_lt a b : (a < b)%Z -> pow2 a < pow2 b.
Proof. intros H. apply Qpower_lt_compat_l; [exact H|reflexivity]. Qed.

Lemma pow2_lt_inv a b : pow2 a < pow2 b -> (a < b)%Z.
Proof. intros H. eapply Qpower_lt_compat_l_inv; [exact H|reflexivity]. Qed.

Lemma pow2_Z k : (0 <= k)%Z -> pow2 k == inject_Z (2 ^ k).
Proof. intros H. unfold pow2. rewrite Zpower_Qpower by exact H. reflexivity. Qed.

(** [ilog2] *)
Lemma ilog2_spec q : 0 < q -> pow2 (ilog2 q) <= q /\ q < pow2 (ilog2 q + 1).
Proof.
  intros Hq. destruct q as [n d]. 
  assert (Hn : (0 < n)%Z) by (unfold Qlt in Hq; simpl in Hq; lia).
  unfold ilog2. cbn [Qnum Qden].
  set (a := Z.log2 n). set (b := Z.log2 (Z.pos d)).
  destruct (Z.log2_spec n Hn) as [A1 A2]. fold a in A1, A2.
  destruct (Z.log2_spec (Z.pos d) eq_refl) as [B1 B2]. fold b in B1, B2.
  assert (Ha : (0 <= a)%Z) by apply Z.log2_nonneg.
  assert (Hb : (0 <= b)%Z) by apply Z.log2_nonneg.
  assert (Qn : pow2 a <= inject_Z n /\ inject_Z n < pow2 (a + 1)).
  { rewrite !pow2_Z by lia. rewrite <- Zle_Qle, <- Zlt_Qlt. split; assumption. }
  assert (Qd : pow2 b <= inject_Z (Z.pos d) /\ inject_Z (Z.pos d) < pow2 (b + 1)).
  { rewrite !pow2_Z by lia. rewrite <- Zle_Qle, <- Zlt_Qlt. split; assumption. }
  assert (E : n # d == inject_Z n / inject_Z (Z.pos d)) by apply Qmake_Qdiv.
  assert (Dp : 0 < inject_Z (Z.pos d)) by reflexivity.
  assert (L : pow2 (a - b - 1) <= n # d).
  { rewrite E. apply Qle_shift_div_l; [exact Dp|].
    apply Qle_trans with (pow2 (a - b - 1) * pow2 (b + 1)).
    - apply Qmult_le_l; [apply pow2_pos|]. apply Qlt_le_weak, Qd.
    - rewrite <- pow2_add. replace (a - b - 1 + (b + 1))%Z with a by lia. apply Qn. }
  assert (U : n # d < pow2 (a - b + 1)).
  { rewrite E. apply Qlt_shift_div_r; [exact Dp|].
    apply Qlt_le_trans with (pow2 (a + 1)); [apply Qn|].
    replace (a + 1)%Z with (a - b + 1 + b)%Z by lia. rewrite pow2_add.
    apply Qmult_le_l; [apply pow2_pos|]. apply Qd. }
  destruct (Qle_bool (pow2 (a - b)) (n # d)) eqn:T.
  - apply Qle_bool_iff in T. split; assumption.
  - split; [exact L|]. replace (a - b - 1 + 1)%Z with (a - b)%Z by lia.
    apply Qnot_le_lt. intros C. apply Qle_bool_iff in C. congruence.
Qed.

Lemma ilog2_unique q k : pow2 k <= q -> q < pow2 (k + 1) -> ilog2 q = k.
Proof.
  intros L U.
  assert (Hq : 0 < q) by (eapply Qlt_le_trans; [apply pow2_pos|exact L]).
  destruct (ilog2_spec q Hq) as [L' U'].
  assert (A : (k < ilog2 q + 1)%Z)
    by (apply pow2_lt_inv; eapply Qle_lt_trans; eassumption).
  assert (B : (ilog2 q < k + 1)%Z)
    by (apply pow2_lt_inv; eapply Qle_lt_trans; eassumption).
  lia.
Qed.

Lemma ilog2_comp p q : 0 < p -> p == q -> ilog2 p = ilog2 q.
Proof.
  intros Hp E. destruct (ilog2_spec p Hp) as [L U].
  symmetry. apply ilog2_unique; rewrite <- E; assumption.
Qed.

Lemma ilog2_mono p q : 0 < p -> p <= q -> (ilog2 p <= ilog2 q)%Z.
Proof.
  intros Hp H.
  assert (Hq : 0 < q) by (eapply Qlt_le_trans; eassumption).
  destruct (ilog2_spec p Hp) as [L _]. destruct (ilog2_spec q Hq) as [_ U].
  assert (A : (ilog2 p < ilog2 q + 1)%Z).
  { apply pow2_lt_inv. eapply Qle_lt_trans; [exact L|].
    eapply Qle_lt_trans; eassumption. }
  lia.
Qed.

(** [rne] *)
Lemma rne_near x : x - (1 # 2) <= inject_Z (rne x) /\ inject_Z (rne x) <= x + (1 # 2).
Proof.
  unfold rne. pose proof (Qfloor_le x) as L. pose proof (Qlt_floor x) as U.
  rewrite inject_Z_plus in U. change (inject_Z 1) with 1 in U.
  destruct (Qcompare_spec (x - inject_Z (Qfloor x)) (1 # 2)) as [E|E|E];
    [destruct (Z.even (Qfloor x))| |];
    rewrite ?inject_Z_plus; change (inject_Z 1) with 1;
    set (f := inject_Z (Qfloor x)) in *; clearbody f; split; lra.
Qed.

Lemma rne_comp x y : x == y -> rne x = rne y.
Proof.
  intros E. unfold rne. rewrite (Qfloor_comp _ _ E).
  assert (C : (x - inject_Z (Qfloor y) ?= 1 # 2) = (y - inject_Z (Qfloor y) ?= 1 # 2))
    by (rewrite E; reflexivity).
  rewrite C. reflexivity.
Qed.

Lemma rne_Z z : rne (inject_Z z) = z.
Proof.
  unfold rne. rewrite Qfloor_Z.
  assert (C : (inject_Z z - inject_Z z ?= 1 # 2) = Lt)
    by (apply (proj1 (Qlt_alt _ _)); lra).
  rewrite C. reflexivity.
Qed.

Lemma rne_mono x y : x <= y -> (rne x <= rne y)%Z.
Proof.
  intros H. destruct (Z.le_gt_cases (rne x) (rne y)) as [L|G]; [exact L|].
  exfalso.
  destruct (rne_near x) as [_ X]. destruct (rne_near y) as [Y _].
  assert (S : inject_Z (rne y) + 1 <= inject_Z (rne x)).
  { change 1 with (inject_Z 1). rewrite <- inject_Z_plus, <- Zle_Qle. lia. }
  set (a := inject_Z (rne x)) in *. set (b := inject_Z (rne y)) in *.
  assert (E : x == y) by (clearbody a b; apply Qle_antisym; lra).
  apply rne_comp in E. lia.
Qed.

(** [nearest] *)
Lemma ulp_exponent_comp p q : 0 < p -> p == q -> ulp_exponent p = ulp_exponent q.
Proof. intros Hp E. unfold ulp_exponent. rewrite (ilog2_comp p q Hp E). reflexivity. Qed.

Lemma nearest_comp p q : 0 < p -> p == q -> nearest p == nearest q.
Proof.
  intros Hp E. unfold nearest. rewrite (ulp_exponent_comp p q Hp E).
  rewrite (rne_comp (p / pow2 (ulp_exponent q)) (q / pow2 (ulp_exponent q)))
    by (rewrite E; reflexivity).
  reflexivity.
Qed.

Lemma nearest_nonneg q : 0 <= q -> 0 <= nearest q.
Proof.
  intros H. unfold nearest.
  apply Qmult_le_0_compat; [|apply Qlt_le_weak, pow2_pos].
  rewrite <- (Zle_Qle 0). rewrite <- (rne_Z 0). apply rne_mono.
  apply Qle_shift_div_l; [apply pow2_pos|]. change (inject_Z 0) with 0. lra.
Qed.

(** The scaled value lies below [2^53], and from [2^52] on when the
    exponent is not the least one. *)
Lemma scaled_below q : 0 < q -> q / pow2 (ulp_exponent q) < pow2 53.
Proof.
  intros Hq. destruct (ilog2_spec q Hq) as [_ U].
  apply Qlt_shift_div_r; [apply pow2_pos|].
  eapply Qlt_le_trans; [exact U|]. rewrite <- pow2_add.
  apply pow2_le. unfold ulp_exponent. lia.
Qed.

Lemma scaled_above q :
  0 < q -> (-1074 <= ilog2 q - 52)%Z -> pow2 52 <= q / pow2 (ulp_exponent q).
Proof.
  intros Hq Hn. destruct (ilog2_spec q Hq) as [L _].
  apply Qle_shift_div_l; [apply pow2_pos|].
  eapply Qle_trans; [|exact L]. rewrite <- pow2_add.
  apply pow2_le. unfold ulp_exponent. lia.
Qed.

Lemma nearest_mono p q : 0 < p -> p <= q -> nearest p <= nearest q.
Proof.
  intros Hp H.
  assert (Hq : 0 < q) by (eapply Qlt_le_trans; eassumption).
  pose proof (ilog2_mono p q Hp H) as Hl.
  assert (He : (ulp_exponent p <= ulp_exponent q)%Z) by (unfold ulp_exponent; lia).
  unfold nearest.
  destruct (Z.eq_dec (ulp_exponent p) (ulp_exponent q)) as [E|N].
  - rewrite E. apply Qmult_le_r; [apply pow2_pos|].
    rewrite <- Zle_Qle. apply rne_mono.
    apply Qmult_le_r; [apply Qinv_lt_0_compat, pow2_pos|exact H].
  - assert (Hn : (-1074 <= ilog2 q - 52)%Z) by (unfold ulp_exponent in *; lia).
    pose proof (scaled_below p Hp) as B. pose proof (scaled_above q Hq Hn) as A.
    apply Qle_trans with (pow2 53 * pow2 (ulp_exponent p)).
    + apply Qmult_le_r; [apply pow2_pos|]. 
      rewrite (pow2_Z 53) by lia. rewrite <- Zle_Qle.
      rewrite <- (rne_Z (2 ^ 53)). apply rne_mono.
      rewrite <- pow2_Z by lia. apply Qlt_le_weak, B.
    + apply Qle_trans with (pow2 52 * pow2 (ulp_exponent q)).
      * rewrite <- !pow2_add. apply pow2_le. lia.
      * apply Qmult_le_r; [apply pow2_pos|].
        rewrite (pow2_Z 52) by lia. rewrite <- Zle_Qle.
        rewrite <- (rne_Z (2 ^ 52)). apply rne_mono.
        rewrite <- pow2_Z by lia. exact A.
Qed.

(** A number of at most 53 significant bits above the least exponent is a
    double. *)
Lemma nearest_exact q m k :
  (0 < m < 2 ^ 53)%Z -> (-1074 <= k)%Z -> q == inject_Z m * pow2 k ->
  nearest q == q.
Proof.
  intros Hm Hk E.
  assert (Mq : 0 < inject_Z m) by (rewrite <- (Zlt_Qlt 0); lia).
  assert (Hq : 0 < q)
    by (rewrite E; apply Qmult_lt_0_compat; [exact Mq|apply pow2_pos]).
  assert (Hl : ilog2 q = (Z.log2 m + k)%Z).
  { destruct (Z.log2_spec m ltac:(lia)) as [A1 A2].
    pose proof (Z.log2_nonneg m) as N.
    apply ilog2_unique; rewrite E.
    - rewrite pow2_add. apply Qmult_le_r; [apply pow2_pos|].
      rewrite pow2_Z by lia. rewrite <- Zle_Qle. exact A1.
    - replace (Z.log2 m + k + 1)%Z with (Z.log2 m + 1 + k)%Z by lia.
      rewrite pow2_add. apply Qmult_lt_r; [apply pow2_pos|].
      rewrite pow2_Z by lia. rewrite <- Zlt_Qlt. exact A2. }
  assert (L52 : (Z.log2 m <= 52)%Z).
  { assert (Z.log2 m < 53)%Z; [|lia]. apply Z.log2_lt_pow2; lia. }
  set (e := ulp_exponent q).
  assert (He : (e <= k)%Z) by (unfold e, ulp_exponent; lia).
  assert (S : q / pow2 e == inject_Z (m * 2 ^ (k - e))).
  { rewrite E, inject_Z_mult, <- pow2_Z by lia.
    replace k with ((k - e) + e)%Z at 1 by lia. rewrite pow2_add.
    field. apply Qnot_eq_sym, Qlt_not_eq, pow2_pos. }
  unfold nearest. fold e. rewrite (rne_comp _ _ S), rne_Z.
  rewrite E, inject_Z_mult, <- pow2_Z by lia.
  replace k with ((k - e) + e)%Z at 2 by lia. rewrite pow2_add. ring.
Qed.

(** The relative error of rounding upwards. *)
Lemma nearest_above q :
  0 < q ->
  nearest q <= q + (1 # 2) * pow2 (ulp_exponent q).
Proof.
  intros Hq. unfold nearest.
  destruct (rne_near (q / pow2 (ulp_exponent q))) as [_ U].
  pose proof (pow2_pos (ulp_exponent q)) as P.
  apply Qle_trans with ((q / pow2 (ulp_exponent q) + (1 # 2)) * pow2 (ulp_exponent q)).
  - apply Qmult_le_r; assumption.
  - apply Qle_lteq. right. field. apply Qnot_eq_sym, Qlt_not_eq, P.
Qed.

Lemma nearest_below q :
  0 < q ->
  q - (1 # 2) * pow2 (ulp_exponent q) <= nearest q.
Proof.
  intros Hq. unfold nearest.
  destruct (rne_near (q / pow2 (ulp_exponent q))) as [L _].
  pose proof (pow2_pos (ulp_exponent q)) as P.
  apply Qle_trans with ((q / pow2 (ulp_exponent q) - (1 # 2)) * pow2 (ulp_exponent q)).
  - apply Qle_lteq. right. field. apply Qnot_eq_sym, Qlt_not_eq, P.
  - apply Qmult_le_r; assumption.
Qed.

(** [round_double] *)
Lemma round_double_comp p q : p == q -> round_double p == round_double q.
Proof.
  intros E. unfold round_double.
  assert (C : (p ?= 0) = (q ?= 0)) by (rewrite E; reflexivity).
  rewrite <- C. destruct (Qcompare_spec p 0) as [H|H|H].
  - reflexivity.
  - apply Qopp_comp, nearest_comp; [lra|rewrite E; reflexivity].
  - apply nearest_comp; assumption.
Qed.

Lemma round_double_nonneg q : 0 <= q -> 0 <= round_double q.
Proof.
  intros H. unfold round_double. destruct (Qcompare_spec q 0) as [E|E|E].
  - apply Qle_refl.
  - lra.
  - apply nearest_nonneg, H.
Qed.

Lemma round_double_mono p q : p <= q -> round_double p <= round_double q.
Proof.
  intros H. unfold round_double at 1. destruct (Qcompare_spec p 0) as [E|E|E].
  - apply round_double_nonneg. lra.
  - unfold round_double. destruct (Qcompare_spec q 0) as [F|F|F].
    + assert (0 <= nearest (- p)) by (apply nearest_nonneg; lra). lra.
    + assert (nearest (- q) <= nearest (- p)) by (apply nearest_mono; lra). lra.
    + assert (0 <= nearest (- p)) by (apply nearest_nonneg; lra).
      assert (0 <= nearest q) by (apply nearest_nonneg; lra). lra.
  - unfold round_double. destruct (Qcompare_spec q 0) as [F|F|F]; [lra|lra|].
    apply nearest_mono; assumption.
Qed.

Lemma round_double_exact q m k :
  (0 <= m < 2 ^ 53)%Z -> (-1074 <= k)%Z -> q == inject_Z m * pow2 k ->
  round_double q == q.
Proof.
  intros Hm Hk E. unfold round_double.
  pose proof (pow2_pos k) as P.
  destruct (Qcompare_spec q 0) as [F|F|F].
  - symmetry. exact F.
  - exfalso. assert (0 <= inject_Z m) by (rewrite <- (Zle_Qle 0); lia).
    assert (0 <= inject_Z m * pow2 k) by (apply Qmult_le_0_compat; lra). lra.
  - apply (nearest_exact q m k); try assumption.
    destruct (Z.eq_dec m 0%Z) as [->|N]; [|lia].
    exfalso. rewrite E in F. change (inject_Z 0) with 0 in F. lra.
Qed.

Lemma round_double_Z n : (0 <= n < 2 ^ 53)%Z -> round_double (inject_Z n) == inject_Z n.
Proof.
  intros H. apply (round_double_exact _ n 0); [exact H|lia|].
  change (pow2 0) with 1. ring.
Qed.

(** The absolute error of rounding below [2^j]. *)
Lemma round_double_error q j :
  0 <= q -> q <= pow2 j -> (-1022 <= j)%Z ->
  q - pow2 (j - 53) <= round_double q /\ round_double q <= q + pow2 (j - 53).
Proof.
  intros H0 Hj Hn. unfold round_double.
  pose proof (pow2_pos (j - 53)) as P.
  destruct (Qcompare_spec q 0) as [F|F|F]; [split; lra|lra|].
  destruct (ilog2_spec q F) as [L _].
  assert (Hl : (ilog2 q <= j)%Z).
  { assert (ilog2 q < j + 1)%Z; [|lia]. apply pow2_lt_inv.
    eapply Qle_lt_trans; [exact L|]. eapply Qle_lt_trans; [exact Hj|].
    apply pow2_lt. lia. }
  assert (U : (1 # 2) * pow2 (ulp_exponent q) <= pow2 (j - 53)).
  { change (1 # 2) with (pow2 (-1)). rewrite <- pow2_add. apply pow2_le.
    unfold ulp_exponent. lia. }
  pose proof (nearest_above q F). pose proof (nearest_below q F).
  split; lra.
Qed.

(** A double below 1 is at most [1 - 2^-53]. *)
Lemma double_below_one u :
  0 <= u -> u < 1 -> is_double u -> u <= 1 - pow2 (-53).
Proof.
  intros H0 H1 D. unfold is_double, round_double in D.
  destruct (Qcompare_spec u 0) as [F|F|F].
  - rewrite F. vm_compute. discriminate.
  - lra.
  - destruct (ilog2_spec u F) as [L U].
    assert (Hl : (ilog2 u < 0)%Z).
    { apply pow2_lt_inv. eapply Qle_lt_trans; [exact L|exact H1]. }
    set (e := ulp_exponent u) in *.
    destruct (Z.eq_dec e (-53)%Z) as [E|N].
    + unfold nearest in D. fold e in D. rewrite E in D.
      set (k := rne (u / pow2 (-53))) in *.
      assert (K : (k < 2 ^ 53)%Z).
      { rewrite Zlt_Qlt. rewrite <- pow2_Z by lia.
        apply Qmult_lt_r with (pow2 (-53)); [apply pow2_pos|].
        rewrite D. rewrite <- pow2_add. exact H1. }
      assert (K' : inject_Z k <= pow2 53 - 1).
      { assert (inject_Z k + 1 <= pow2 53); [|lra].
        rewrite pow2_Z by lia. change 1 with (inject_Z 1).
        rewrite <- inject_Z_plus, <- Zle_Qle. lia. }
      rewrite <- D.
      apply Qle_trans with ((pow2 53 - 1) * pow2 (-53)).
      * apply Qmult_le_r; [apply pow2_pos|exact K'].
      * vm_compute. discriminate.
    + assert (B : u < pow2 (-1)).
      { eapply Qlt_le_trans; [exact U|]. apply pow2_le.
        unfold e, ulp_exponent in N. lia. }
      eapply Qle_trans; [apply Qlt_le_weak, B|]. vm_compute. discriminate.
Qed.

Lemma draw_range u maxRoll :
  (1 <= maxRoll)%Z -> 0 <= u -> u <= 1 - pow2 (-53) ->
  (1 <= draw u maxRoll <= maxRoll)%Z.
Proof.
  intros Hm H0 H1. unfold draw.
  assert (M : 1 <= inject_Z maxRoll) by (rewrite <- (Zle_Qle 1); exact Hm).
  set (x := u * inject_Z maxRoll).
  assert (X0 : 0 <= x) by (apply Qmult_le_0_compat; lra).
  assert (L : (0 <= Qfloor (round_double x))%Z).
  { change 0%Z with (Qfloor 0). apply Qfloor_resp_le, round_double_nonneg, X0. }
  assert (U : round_double x < inject_Z maxRoll).
  { unfold round_double. destruct (Qcompare_spec x 0) as [F|F|F]; [lra| |].
    - assert (0 <= nearest (- x)) by (apply nearest_nonneg; lra). lra.
    - pose proof (nearest_above x F) as A.
      destruct (ilog2_spec x F) as [Lx Ux].
      assert (X1 : x <= (1 - pow2 (-53)) * inject_Z maxRoll)
        by (apply Qmult_le_r; lra).
      destruct (Z.le_gt_cases (-1074)%Z (ilog2 x - 52)%Z) as [N|S].
      + assert (E : (1 # 2) * pow2 (ulp_exponent x) <= pow2 (-53) * x).
        { unfold ulp_exponent. rewrite Z.max_l by lia.
          change (1 # 2) with (pow2 (-1)). rewrite <- pow2_add.
          replace (-1 + (ilog2 x - 52))%Z with (-53 + ilog2 x)%Z by lia.
          rewrite pow2_add. apply Qmult_le_l; [apply pow2_pos|exact Lx]. }
        assert (T : x * (1 + pow2 (-53)) < inject_Z maxRoll).
        { apply Qle_lt_trans
            with ((1 - pow2 (-53)) * inject_Z maxRoll * (1 + pow2 (-53))).
          - apply Qmult_le_r; [vm_compute; reflexivity|exact X1].
          - setoid_replace ((1 - pow2 (-53)) * inject_Z maxRoll * (1 + pow2 (-53)))
              with (inject_Z maxRoll - pow2 (-53) * pow2 (-53) * inject_Z maxRoll)
              using relation Qeq by ring.
            assert (0 < pow2 (-53) * pow2 (-53) * inject_Z maxRoll).
            { apply Qmult_lt_0_compat; [|lra].
              apply Qmult_lt_0_compat; apply pow2_pos. }
            lra. }
        lra.
      + assert (E : pow2 (ulp_exponent x) <= 1 # 2).
        { change (1 # 2) with (pow2 (-1)). apply pow2_le. unfold ulp_exponent. lia. }
        assert (B : x < 1 # 2).
        { eapply Qlt_le_trans; [exact Ux|]. change (1 # 2) with (pow2 (-1)).
          apply pow2_le. lia. }
        lra. }
  assert (U' : (Qfloor (round_double x) < maxRoll)%Z).
  { rewrite Zlt_Qlt. eapply Qle_lt_trans; [apply Qfloor_le|exact U]. }
  lia.
Qed.

Lemma eliminateCount_comp n p q : p == q -> eliminateCount n p = eliminateCount n q.
Proof.
  intros E. unfold eliminateCount. apply Qfloor_comp, round_double_comp.
  apply Qmult_comp; [reflexivity|]. apply round_double_comp. rewrite E. reflexivity.
Qed.

Lemma percentage_share pct :
  0 <= pct -> pct <= 100 ->
  0 <= round_double (pct / 100) /\ round_double (pct / 100) <= 1.
Proof.
  intros H0 H100.
  assert (A : 0 <= pct / 100) by (apply Qle_shift_div_l; [reflexivity|lra]).
  assert (B : pct / 100 <= 1) by (apply Qle_shift_div_r; [reflexivity|lra]).
  split; [apply round_double_nonneg, A|].
  apply Qle_trans with (round_double 1); [apply round_double_mono, B|].
  vm_compute. discriminate.
Qed.

Lemma eliminateCount_bounds n pct :
  (0 <= n < 2 ^ 53)%Z -> 0 <= pct -> pct <= 100 ->
  (0 <= eliminateCount n pct <= n)%Z.
Proof.
  intros Hn H0 H100. unfold eliminateCount.
  destruct (percentage_share pct H0 H100) as [A B].
  set (d := round_double (pct / 100)) in *.
  assert (N : 0 <= inject_Z n) by (rewrite <- (Zle_Qle 0); lia).
  split.
  - change 0%Z with (Qfloor 0). apply Qfloor_resp_le, round_double_nonneg.
    apply Qmult_le_0_compat; assumption.
  - rewrite <- (Qfloor_Z n) at 2. apply Qfloor_resp_le.
    rewrite <- (round_double_Z n Hn) at 2. apply round_double_mono.
    rewrite <- (Qmult_1_r (inject_Z n)) at 2.
    rewrite !(Qmult_comm (inject_Z n)). apply Qmult_le_compat_r; assumption.
Qed.

Lemma eliminateCount_mono n p q :
  (0 <= n)%Z -> p <= q -> (eliminateCount n p <= eliminateCount n q)%Z.
Proof.
  intros Hn H. unfold eliminateCount. apply Qfloor_resp_le, round_double_mono.
  assert (N : 0 <= inject_Z n) by (rewrite <- (Zle_Qle 0); lia).
  rewrite !(Qmult_comm (inject_Z n)). apply Qmult_le_compat_r; [|exact N].
  apply round_double_mono. apply Qmult_le_r; [reflexivity|exact H].
Qed.

Lemma eliminateCount_half n pct :
  (0 <= n < 2 ^ 53)%Z -> pct == 50 -> eliminateCount n pct = (n / 2)%Z.
Proof.
  intros Hn E. rewrite (eliminateCount_comp n pct 50 E). unfold eliminateCount.
  rewrite Zdiv_Qdiv. apply Qfloor_comp.
  assert (H : round_double (50 / 100) == pow2 (-1)) by (vm_compute; reflexivity).
  rewrite (round_double_exact (inject_Z n * round_double (50 / 100)) n (-1));
    [| exact Hn | lia | rewrite H; reflexivity].
  rewrite H. change (inject_Z 2) with 2. change (pow2 (-1)) with (1 # 2). field.
Qed.

(** The count is within one of [floor (n * pct / 100)]. *)
Lemma eliminateCount_near n pct :
  (0 <= n < 2 ^ 32)%Z -> 0 <= pct -> pct <= 100 ->
  (Qfloor (inject_Z n * pct / 100) - 1 <= eliminateCount n pct
   <= Qfloor (inject_Z n * pct / 100) + 1)%Z.
Proof.
  intros Hn H0 H100. unfold eliminateCount.
  destruct (percentage_share pct H0 H100) as [A B].
  assert (A' : 0 <= pct / 100) by (apply Qle_shift_div_l; [reflexivity|lra]).
  assert (B' : pct / 100 <= pow2 0)
    by (change (pow2 0) with 1; apply Qle_shift_div_r; [reflexivity|lra]).
  destruct (round_double_error (pct / 100) 0 A' B' ltac:(lia)) as [D1 D2].
  set (x := pct / 100) in *. set (d := round_double x) in *.
  assert (N0 : 0 <= inject_Z n) by (rewrite <- (Zle_Qle 0); lia).
  assert (N1 : inject_Z n <= pow2 32)
    by (rewrite pow2_Z by lia; rewrite <- Zle_Qle; lia).
  assert (Y0 : 0 <= inject_Z n * d) by (apply Qmult_le_0_compat; assumption).
  assert (Y1 : inject_Z n * d <= pow2 32).
  { apply Qle_trans with (inject_Z n * 1); [|lra].
    rewrite !(Qmult_comm (inject_Z n)). apply Qmult_le_compat_r; assumption. }
  destruct (round_double_error (inject_Z n * d) 32 Y0 Y1 ltac:(lia)) as [E1 E2].
  set (r := round_double (inject_Z n * d)) in *.
  assert (S : inject_Z n * pow2 (0 - 53) <= pow2 (32 - 53)).
  { apply Qle_trans with (pow2 32 * pow2 (0 - 53)).
    - apply Qmult_le_compat_r; [exact N1|vm_compute; discriminate].
    - vm_compute. discriminate. }
  assert (P1 : inject_Z n * d <= inject_Z n * x + inject_Z n * pow2 (0 - 53)).
  { rewrite <- Qmult_plus_distr_r. rewrite !(Qmult_comm (inject_Z n)).
    apply Qmult_le_compat_r; assumption. }
  assert (P2 : inject_Z n * x - inject_Z n * pow2 (0 - 53) <= inject_Z n * d).
  { setoid_replace (inject_Z n * x - inject_Z n * pow2 (0 - 53))
      with (inject_Z n * (x - pow2 (0 - 53))) using relation Qeq by ring.
    rewrite !(Qmult_comm (inject_Z n)). apply Qmult_le_compat_r; assumption. }
  assert (T : pow2 (32 - 53) + pow2 (32 - 53) < 1) by (vm_compute; reflexivity).
  assert (X : inject_Z n * pct / 100 == inject_Z n * x) by (unfold x; field).
  rewrite (Qfloor_comp _ _ X). set (y := inject_Z n * x) in *.
  pose proof (Qfloor_le y) as F1. pose proof (Qlt_floor y) as F2.
  pose proof (Qfloor_le r) as G1. pose proof (Qlt_floor r) as G2.
  rewrite inject_Z_plus in F2, G2. change (inject_Z 1) with 1 in F2, G2.
  set (fy := Qfloor y) in *. set (fr := Qfloor r) in *.
  assert (L : inject_Z fy < inject_Z fr + 1 + 1) by lra.
  assert (U : inject_Z fr < inject_Z fy + 1 + 1) by lra.
  change 1 with (inject_Z 1) in L, U.
  rewrite <- !inject_Z_plus, <- Zlt_Qlt in L.
  rewrite <- !inject_Z_plus, <- Zlt_Qlt in U. lia.
Qed.

(** No integer is nearer than the one [rne] picks. *)
Lemma rne_nearest x j : Qabs (inject_Z (rne x) - x) <= Qabs (inject_Z j - x).
Proof.
  destruct (rne_near x) as [L U].
  destruct (Z.lt_trichotomy j (rne x)) as [H|[->|H]]; [|apply Qle_refl|].
  - assert (S : inject_Z j + 1 <= inject_Z (rne x)).
    { change 1 with (inject_Z 1). rewrite <- inject_Z_plus, <- Zle_Qle. lia. }
    set (a := inject_Z (rne x)) in *. set (b := inject_Z j) in *. clearbody a b.
    apply (Qabs_case (a - x)); intros Ha; apply (Qabs_case (b - x)); intros Hb; lra.
  - assert (S : inject_Z (rne x) + 1 <= inject_Z j).
    { change 1 with (inject_Z 1). rewrite <- inject_Z_plus, <- Zle_Qle. lia. }
    set (a := inject_Z (rne x)) in *. set (b := inject_Z j) in *. clearbody a b.
    apply (Qabs_case (a - x)); intros Ha; apply (Qabs_case (b - x)); intros Hb; lra.
Qed.

(** No multiple of the last bit is nearer than [nearest q]. *)
Lemma nearest_on_grid q j :
  0 < q ->
  Qabs (nearest q - q) <= Qabs (inject_Z j * pow2 (ulp_exponent q) - q).
Proof.
  intros Hq. unfold nearest. set (e := ulp_exponent q).
  pose proof (pow2_pos e) as P.
  assert (N : ~ pow2 e == 0) by (apply Qnot_eq_sym, Qlt_not_eq, P).
  assert (A : forall i, inject_Z i * pow2 e - q == (inject_Z i - q / pow2 e) * pow2 e)
    by (intros i; field; exact N).
  rewrite (Qabs_wd _ _ (A (rne (q / pow2 e)))), (Qabs_wd _ _ (A j)).
  rewrite !Qabs_Qmult. apply Qmult_le_compat_r; [apply rne_nearest|apply Qabs_nonneg].
Qed.

Lemma representable_opp d : representable d -> representable (- d).
Proof.
  intros (m & k & E & Hm & Hk). exists (- m)%Z, k.
  split; [rewrite E, inject_Z_opp; ring|]. split; [lia|exact Hk].
Qed.

Lemma nearest_representable q : 0 < q -> representable (nearest q).
Proof.
  intros Hq. unfold nearest. set (e := ulp_exponent q).
  set (M := rne (q / pow2 e)).
  assert (He : (-1074 <= e)%Z) by (unfold e, ulp_exponent; lia).
  assert (M0 : (0 <= M)%Z).
  { unfold M. rewrite <- (rne_Z 0). apply rne_mono.
    apply Qle_shift_div_l; [apply pow2_pos|]. change (inject_Z 0) with 0. lra. }
  assert (M1 : (M <= 2 ^ 53)%Z).
  { unfold M. rewrite <- (rne_Z (2 ^ 53)). apply rne_mono.
    rewrite <- pow2_Z by lia. apply Qlt_le_weak, scaled_below, Hq. }
  destruct (Z.eq_dec M (2 ^ 53)%Z) as [E|N].
  - exists (2 ^ 52)%Z, (e + 1)%Z. split; [|split; lia].
    rewrite E, pow2_add. change (pow2 1) with 2.
    change (inject_Z (2 ^ 53)) with (inject_Z (2 ^ 52) * 2). ring.
  - exists M, e. split; [reflexivity|]. split; lia.
Qed.

Lemma nearest_is_nearest q d :
  0 < q -> representable d -> Qabs (nearest q - q) <= Qabs (d - q).
Proof.
  intros Hq (m & k & E & Hm & Hk).
  set (e := ulp_exponent q).
  destruct (Z.le_gt_cases e k) as [G|G].
  - (* [d] is a multiple of the last bit *)
    assert (D : d == inject_Z (m * 2 ^ (k - e)) * pow2 e).
    { rewrite E, inject_Z_mult, <- pow2_Z by lia.
      replace k with ((k - e) + e)%Z at 1 by lia. rewrite pow2_add. ring. }
    assert (D' : d - q == inject_Z (m * 2 ^ (k - e)) * pow2 e - q)
      by (rewrite D; reflexivity).
    rewrite (Qabs_wd _ _ D'). apply nearest_on_grid, Hq.
  - (* [d] lies below the binade of [q] *)
    assert (Hn : (-1074 <= ilog2 q - 52)%Z) by (unfold e, ulp_exponent in G; lia).
    assert (Ee : e = (ilog2 q - 52)%Z) by (unfold e, ulp_exponent; lia).
    destruct (ilog2_spec q Hq) as [L _].
    assert (B : d < pow2 (ilog2 q)).
    { rewrite E. apply Qlt_le_trans with (pow2 53 * pow2 k).
      - apply Qmult_lt_r; [apply pow2_pos|].
        rewrite pow2_Z by lia. rewrite <- Zlt_Qlt. lia.
      - rewrite <- pow2_add. apply pow2_le. lia. }
    assert (Gd : Qabs (nearest q - q)
                 <= Qabs (inject_Z (2 ^ 52) * pow2 e - q))
      by (apply nearest_on_grid, Hq).
    assert (T : inject_Z (2 ^ 52) * pow2 e == pow2 (ilog2 q)).
    { rewrite <- pow2_Z by lia. rewrite <- pow2_add. rewrite Ee.
      replace (52 + (ilog2 q - 52))%Z with (ilog2 q) by lia. reflexivity. }
    assert (T' : inject_Z (2 ^ 52) * pow2 e - q == pow2 (ilog2 q) - q)
      by (rewrite T; reflexivity).
    rewrite (Qabs_wd _ _ T') in Gd.
    eapply Qle_trans; [exact Gd|].
    set (l := pow2 (ilog2 q)) in *. clearbody l.
    apply (Qabs_case (l - q)); intros Ha; apply (Qabs_case (d - q)); intros Hb; lra.
Qed.

(** [round_double x] is a double, and no double is nearer to [x]. *)
Lemma round_double_nearest x : nearest_double x (round_double x).
Proof.
  unfold round_double. destruct (Qcompare_spec x 0) as [F|F|F].
  - split.
    + exists 0%Z, 0%Z. split; [reflexivity|]. split; [reflexivity|lia].
    + intros d _. rewrite F. 
      assert (Z0 : 0 - 0 == 0) by ring. rewrite (Qabs_wd _ _ Z0).
      apply Qabs_nonneg.
  - assert (Hq : 0 < - x) by lra. split.
    + apply representable_opp, nearest_representable, Hq.
    + intros d Hd.
      assert (A : - nearest (- x) - x == - (nearest (- x) - - x)) by ring.
      assert (B : d - x == - (- d - - x)) by ring.
      rewrite (Qabs_wd _ _ A), (Qabs_wd _ _ B), !Qabs_opp.
      apply nearest_is_nearest; [exact Hq|apply representable_opp, Hd].
  - split; [apply nearest_representable, F|].
    intros d Hd. apply nearest_is_nearest; assumption.
Qed.


Lemma rne_tie_even x j :
  j <> rne x ->
  Qabs (inject_Z j - x) == Qabs (inject_Z (rne x) - x) ->
  Z.even (rne x) = true.
Proof.
  intros Hj T. destruct (rne_near x) as [L U].
  assert (H : x - inject_Z (Qfloor x) == 1 # 2).
  { pose proof (Qfloor_le x) as F1. pose proof (Qlt_floor x) as F2.
    rewrite inject_Z_plus in F2. change (inject_Z 1) with 1 in F2.
    revert Hj L U T. unfold rne.
    destruct (Qcompare_spec (x - inject_Z (Qfloor x)) (1 # 2)) as [E|E|E];
      [intros; exact E| |]; intros Hj L U T; exfalso.
    - (* below the middle: [rne x] is the floor, and strictly nearest *)
      destruct (Z.lt_trichotomy j (Qfloor x)) as [H|[H|H]]; [|congruence|].
      + assert (S : inject_Z j + 1 <= inject_Z (Qfloor x)).
        { change 1 with (inject_Z 1). rewrite <- inject_Z_plus, <- Zle_Qle. lia. }
        set (a := inject_Z (Qfloor x)) in *. set (b := inject_Z j) in *.
        clearbody a b. revert T.
        apply (Qabs_case (a - x)); intros Ha; apply (Qabs_case (b - x)); intros Hb T; lra.
      + assert (S : inject_Z (Qfloor x) + 1 <= inject_Z j).
        { change 1 with (inject_Z 1). rewrite <- inject_Z_plus, <- Zle_Qle. lia. }
        set (a := inject_Z (Qfloor x)) in *. set (b := inject_Z j) in *.
        clearbody a b. revert T.
        apply (Qabs_case (a - x)); intros Ha; apply (Qabs_case (b - x)); intros Hb T; lra.
    - rewrite inject_Z_plus in L, U, T. change (inject_Z 1) with 1 in L, U, T.
      destruct (Z.lt_trichotomy j (Qfloor x + 1)%Z) as [H|[H|H]]; [|congruence|].
      + assert (S : inject_Z j <= inject_Z (Qfloor x))
          by (rewrite <- Zle_Qle; lia).
        set (a := inject_Z (Qfloor x)) in *. set (b := inject_Z j) in *.
        clearbody a b. revert T.
        apply (Qabs_case (a + 1 - x)); intros Ha; apply (Qabs_case (b - x)); intros Hb T; lra.
      + assert (S : inject_Z (Qfloor x) + 1 + 1 <= inject_Z j).
        { change 1 with (inject_Z 1). rewrite <- !inject_Z_plus, <- Zle_Qle. lia. }
        set (a := inject_Z (Qfloor x)) in *. set (b := inject_Z j) in *.
        clearbody a b. revert T.
        apply (Qabs_case (a + 1 - x)); intros Ha; apply (Qabs_case (b - x)); intros Hb T; lra. }
  unfold rne. apply (proj1 (Qeq_alt _ _)) in H. rewrite H.
  destruct (Z.even (Qfloor x)) eqn:Ev; [exact Ev|].
  rewrite Z.even_add, Ev. reflexivity.
Qed.

(** Where another double is as near as [nearest q], the last bit of
    [nearest q] is 0. *)
Lemma nearest_tie_even q d :
  0 < q -> representable d -> ~ d == nearest q ->
  Qabs (d - q) == Qabs (nearest q - q) ->
  Z.even (rne (q / pow2 (ulp_exponent q))) = true.
Proof.
  intros Hq (m & k & E & Hm & Hk) Hd T.
  set (e := ulp_exponent q) in *.
  pose proof (pow2_pos e) as P.
  assert (N : ~ pow2 e == 0) by (apply Qnot_eq_sym, Qlt_not_eq, P).
  destruct (Z.le_gt_cases e k) as [G|G].
  - set (j := (m * 2 ^ (k - e))%Z).
    assert (D : d == inject_Z j * pow2 e).
    { unfold j. rewrite E, inject_Z_mult, <- pow2_Z by lia.
      replace k with ((k - e) + e)%Z at 1 by lia. rewrite pow2_add. ring. }
    apply (rne_tie_even _ j).
    + intros Ej. apply Hd. unfold nearest. fold e. rewrite D, Ej. reflexivity.
    + assert (A : forall i, inject_Z i * pow2 e - q == (inject_Z i - q / pow2 e) * pow2 e)
        by (intros i; field; exact N).
      assert (T1 : d - q == (inject_Z j - q / pow2 e) * pow2 e)
        by (rewrite D; apply A).
      assert (T2 : nearest q - q == (inject_Z (rne (q / pow2 e)) - q / pow2 e) * pow2 e)
        by (unfold nearest; fold e; apply A).
      rewrite (Qabs_wd _ _ T1), (Qabs_wd _ _ T2), !Qabs_Qmult in T.
      apply Qmult_inj_r in T; [exact T|].
      rewrite Qabs_pos by (apply Qlt_le_weak, P). exact N.
  - exfalso.
    assert (Hn : (-1074 <= ilog2 q - 52)%Z) by (unfold e, ulp_exponent in G; lia).
    assert (Ee : e = (ilog2 q - 52)%Z) by (unfold e, ulp_exponent; lia).
    destruct (ilog2_spec q Hq) as [L _].
    assert (B : d < pow2 (ilog2 q)).
    { rewrite E. apply Qlt_le_trans with (pow2 53 * pow2 k).
      - apply Qmult_lt_r; [apply pow2_pos|].
        rewrite pow2_Z by lia. rewrite <- Zlt_Qlt. lia.
      - rewrite <- pow2_add. apply pow2_le. lia. }
    assert (Gd : Qabs (nearest q - q)
                 <= Qabs (inject_Z (2 ^ 52) * pow2 e - q))
      by (apply nearest_on_grid, Hq).
    assert (T0 : inject_Z (2 ^ 52) * pow2 e == pow2 (ilog2 q)).
    { rewrite <- pow2_Z by lia. rewrite <- pow2_add. rewrite Ee.
      replace (52 + (ilog2 q - 52))%Z with (ilog2 q) by lia. reflexivity. }
    assert (T' : inject_Z (2 ^ 52) * pow2 e - q == pow2 (ilog2 q) - q)
      by (rewrite T0; reflexivity).
    rewrite (Qabs_wd _ _ T') in Gd. rewrite <- T in Gd.
    set (l := pow2 (ilog2 q)) in *. clearbody l. revert Gd.
    apply (Qabs_case (l - q)); intros Ha; apply (Qabs_case (d - q)); intros Hb Gd; lra.
Qed.

(** Ties go to the even one: where another double is as near to [x] as
    [round_double x], the last of the 53 bits of [round_double x] is 0. *)
Lemma round_double_ties_to_even x d :
  representable d -> ~ d == round_double x ->
  Qabs (d - x) == Qabs (round_double x - x) ->
  exists m, round_double x == inject_Z m * pow2 (ulp_exponent (Qabs x)) /\
            Z.even m = true.
Proof.
  intros Hd Hne T. unfold round_double in *.
  destruct (Qcompare_spec x 0) as [F|F|F].
  - exists 0%Z. split; [ring|reflexivity].
  - assert (Hq : 0 < - x) by lra.
    assert (Ea : ulp_exponent (Qabs x) = ulp_exponent (- x)).
    { symmetry. apply ulp_exponent_comp; [exact Hq|].
      symmetry. apply Qabs_neg. lra. }
    rewrite Ea. exists (- rne (- x / pow2 (ulp_exponent (- x))))%Z. split.
    + unfold nearest. rewrite inject_Z_opp. ring.
    + rewrite Z.even_opp. apply (nearest_tie_even (- x) (- d) Hq).
      * apply representable_opp, Hd.
      * intros C. apply Hne. rewrite <- C. ring.
      * assert (A : - nearest (- x) - x == - (nearest (- x) - - x)) by ring.
        assert (B : d - x == - (- d - - x)) by ring.
        rewrite (Qabs_wd _ _ A), (Qabs_wd _ _ B), !Qabs_opp in T. exact T.
  - assert (Ea : ulp_exponent (Qabs x) = ulp_exponent x).
    { symmetry. apply ulp_exponent_comp; [exact F|].
      symmetry. apply Qabs_pos. lra. }
    rewrite Ea. exists (rne (x / pow2 (ulp_exponent x))). split; [reflexivity|].
    apply (nearest_tie_even x d F Hd Hne T).
Qed.

(** A double is rounded to itself. *)
Lemma round_double_of_double d : representable d -> is_double d.
Proof.
  intros (m & k & E & Hm & Hk). unfold is_double.
  pose proof (pow2_pos k) as P.
  destruct (Z.le_gt_cases 0%Z m) as [G|G].
  - apply (round_double_exact d m k); [lia|exact Hk|exact E].
  - assert (Mq : inject_Z m < 0)
      by (change 0 with (inject_Z 0); rewrite <- Zlt_Qlt; lia).
    assert (D : d < 0).
    { rewrite E. setoid_replace 0 with (0 * pow2 k) using relation Qeq by ring.
      apply Qmult_lt_compat_r; assumption. }
    unfold round_double. destruct (Qcompare_spec d 0) as [F|F|F]; [lra| |lra].
    rewrite (nearest_exact (- d) (- m) k); [ring|lia|exact Hk|].
    rewrite E, inject_Z_opp. ring.
Qed.

End Doubles.

(** ** The arithmetic of elimination *)

Lemma slice_tail {A} (l : list A) (k : Z) :
  0 <= k <= Z.of_nat (length l) ->
  slice k None l = drop (Z.to_nat k) l.
Proof.
  intros Hk. unfold slice.
  destruct (Z.ltb_spec k 0) as [L|L]; [lia|].
  rewrite Z.min_l by lia.
  apply take_ge. rewrite length_drop. lia.
Qed.

Lemma sorted_tail_below_head (l : list UserRoll) (k : nat) x y :
  StronglySorted desc l -> x ∈ drop k l -> y ∈ take k l -> ur_roll x <= ur_roll y.
Proof.
  intros S Hx Hy. rewrite <- (take_drop k l) in S.
  exact (StronglySorted_app_1_elem_of desc _ _ y x S Hy Hx).
Qed.

Lemma sorted_extremes rs :
  rs <> [] ->
  let sorted := Array_sort by_roll_desc rs in
  exists hi lo,
    index sorted 0 = Some hi /\
    index sorted (Z.of_nat (length sorted) - 1) = Some lo /\
    hi ∈ rs /\ lo ∈ rs /\
    forall r, r ∈ rs -> ur_roll lo <= ur_roll r <= ur_roll hi.
Proof.
  intros Hne sorted.
  assert (P : Permutation sorted rs) by apply Array_sort_perm.
  assert (S : StronglySorted desc sorted) by apply sort_by_roll_sorted.
  assert (Hlen : length sorted = length rs) by apply Array_sort_length.
  assert (Hpos : (0 < length sorted)%nat)
    by (rewrite Hlen; destruct rs; [congruence|simpl; lia]).
  destruct (lookup_lt_is_Some_2 sorted 0%nat Hpos) as [hi Hhi].
  destruct (lookup_lt_is_Some_2 sorted (length sorted - 1)%nat) as [lo Hlo]; [lia|].
  exists hi, lo. unfold index.
  destruct (Z.ltb_spec (Z.of_nat (length sorted) - 1) 0) as [L|L]; [lia|].
  replace (Z.to_nat (Z.of_nat (length sorted) - 1)) with (length sorted - 1)%nat by lia.
  split; [exact Hhi|]. split; [exact Hlo|].
  split; [rewrite <- P; eapply list_elem_of_lookup_2; exact Hhi|].
  split; [rewrite <- P; eapply list_elem_of_lookup_2; exact Hlo|].
  intros r Hr. rewrite <- P in Hr.
  apply list_elem_of_lookup_1 in Hr. destruct Hr as [i Hi].
  assert (Hi' : (i < length sorted)%nat) by (eapply lookup_lt_Some; exact Hi).
  split.
  - destruct (decide (i = length sorted - 1)%nat) as [->|N].
    + rewrite Hlo in Hi. inversion Hi. lia.
    + apply (sorted_tail_below_head sorted (length sorted - 1) lo r S).
      * apply (list_elem_of_lookup_2 _ 0%nat). rewrite lookup_drop.
        rewrite Nat.add_0_r. exact Hlo.
      * apply (list_elem_of_lookup_2 _ i). rewrite lookup_take_lt by lia. exact Hi.
  - destruct i as [|i].
    + rewrite Hhi in Hi. inversion Hi. lia.
    + apply (sorted_tail_below_head sorted 1 r hi S).
      * apply (list_elem_of_lookup_2 _ i). rewrite lookup_drop. exact Hi.
      * apply (list_elem_of_lookup_2 _ 0%nat). rewrite lookup_take_lt by lia. exact Hhi.
Qed.

Lemma cutoffRoll_at (l : list UserRoll) (i : Z) r :
  0 <= i -> l !! Z.to_nat i = Some r -> cutoffRoll l i = ur_roll r.
Proof.
  intros Hi E. unfold cutoffRoll, index.
  destruct (Z.ltb_spec i 0) as [L|L]; [lia|]. rewrite E.
  destruct (Z.eqb_spec (ur_roll r) 0) as [Z0|Z0]; [rewrite Z0|]; reflexivity.
Qed.

Lemma stored_config_doc w id c :
  stored_config w id = Some c ->
  stored_doc (kv w) (TOURNAMENT_PREFIX +:+ id) = Some (DConfig c).
Proof.
  unfold stored_config.
  destruct (stored_doc (kv w) (TOURNAMENT_PREFIX +:+ id)) as [[c0| | | | |]|];
    intros E; inversion E; reflexivity.
Qed.

(** The round data of the round that ends is still under its key when
    [endRound] is over, in both of its branches. *)
Lemma round_data_survives id c m rd v1 :
  cfg_id c = id ->
  stored_doc
    (<[TOURNAMENT_PREFIX +:+ cfg_id c := v1]>
       (delete (TOURNAMENT_ROLLS_PREFIX +:+ id)
          (<[roundKey id (cfg_currentRound c) := RString (Json (DRound rd))]> m)))
    (roundKey id (cfg_currentRound c)) = Some (DRound rd).
Proof.
  intros ->.
  rewrite stored_doc_insert_ne
    by (intros E; symmetry in E; exact (round_key_not_config_key _ _ E)).
  rewrite stored_doc_delete_ne
    by (intros E; symmetry in E; exact (round_key_not_rolls_key _ _ E)).
  apply stored_doc_insert_eq.
Qed.

(** C1 (amended).  [endRound] on an active tournament with [n >= 1] recorded
    rolls (fewer than 2^32, as in every array) and an elimination percentage
    between 0 and 100.  The rolls are sorted by roll value, best first.  The
    number eliminated is [Math.floor(n * (pct / 100))] as the doubles give
    it, the quotient and the product each a double to which no double is
    nearer: a number between 0 and [n] that is within one of
    [floor (n * pct / 100)], that does not decrease when the percentage
    grows, and that is [floor (n / 2)] at 50%.  The
    eliminated are the entries of the sorted list from index
    [n - eliminateCount] on; the stored [cutoffRoll] is the roll at index
    [max 0 (n - eliminateCount - 1)]; no eliminated roll is above a
    surviving one; ten participants at 50% lose exactly five. *)
Theorem C1_elimination_within_0_100 id pct w c rs :
  healthy w ->
  stored_config w id = Some c ->
  cfg_id c = id ->
  cfg_status c = ACTIVE ->
  recorded_rolls w id = Some rs ->
  rs <> [] ->
  Z.of_nat (length rs) < 2 ^ 32 ->
  round_slot_typed w id (cfg_currentRound c) ->
  (0 <= pct)%Q -> (pct <= 100)%Q ->
  let sorted := Array_sort by_roll_desc rs in
  let n := Z.of_nat (length rs) in
  let share := round_double (pct / 100) in
  let product := round_double (inject_Z n * share) in
  let e := Qfloor product in
  let keep := Z.to_nat (n - e) in
  Permutation sorted rs /\ StronglySorted desc sorted /\
  nearest_double (pct / 100) share /\
  nearest_double (inject_Z n * share) product /\
  0 <= e <= n /\
  Qfloor (inject_Z n * pct / 100)%Q - 1 <= e
  <= Qfloor (inject_Z n * pct / 100)%Q + 1 /\
  (forall pct', (0 <= pct')%Q -> (pct' <= pct)%Q ->
     Qfloor (round_double (inject_Z n * round_double (pct' / 100))) <= e) /\
  (pct == 50 -> e = n / 2) /\
  length (drop keep sorted) = Z.to_nat e /\
  (forall x y, x ∈ drop keep sorted -> y ∈ take keep sorted ->
               ur_roll x <= ur_roll y) /\
  (exists cut res w' startTime endTime,
     sorted !! Z.to_nat (Z.max 0 (n - e - 1)) = Some cut /\
     endRound id pct w = (Ok res, w') /\
     er_success res = true /\
     er_eliminated res = Some (map ur_userId (drop keep sorted)) /\
     stored_doc (kv w') (roundKey id (cfg_currentRound c))
     = Some (DRound (mkRound (cfg_currentRound c) startTime (Some endTime)
                       (map ur_userId sorted)
                       (map ur_userId (drop keep sorted))
                       (Some (ur_roll cut))))) /\
  (length rs = 10%nat -> pct == 50 -> length (drop keep sorted) = 5%nat).
Proof.
  intros Hw Hc Hid Hs Hr Hne Hsize Ht H0 H100 sorted n share product.
  change (Qfloor product) with (eliminateCount n pct).
  intros e keep.
  assert (Hlen : length sorted = length rs) by apply Array_sort_length.
  assert (Hn : 0 <= n < 2 ^ 32) by (unfold n; lia).
  assert (Hn' : 0 <= n < 2 ^ 53) by lia.
  assert (He : 0 <= e <= n) by (apply eliminateCount_bounds; assumption).
  assert (Hdrop : length (drop keep sorted) = Z.to_nat e)
    by (rewrite length_drop, Hlen; unfold keep, n in *; lia).
  split; [apply Array_sort_perm|].
  split; [apply sort_by_roll_sorted|].
  split; [apply round_double_nearest|].
  split; [apply round_double_nearest|].
  split; [exact He|].
  split; [apply eliminateCount_near; assumption|].
  split; [intros pct' _ Hle; apply (eliminateCount_mono n pct' pct); [lia|exact Hle]|].
  split; [intros H50; apply eliminateCount_half; assumption|].
  split; [exact Hdrop|].
  split; [intros x y; apply sorted_tail_below_head, sort_by_roll_sorted|].
  split.
  - assert (Hpos : (0 < length rs)%nat) by (destruct rs; [congruence|simpl; lia]).
    destruct (lookup_lt_is_Some_2 sorted (Z.to_nat (Z.max 0 (n - e - 1))))
      as [cut Hcut]; [rewrite Hlen; unfold n in *; lia|].
    destruct (endRound_run id pct w c rs Hw (stored_config_doc _ _ _ Hc) Hs Hr Hne Ht)
      as (startTime & endTime & updatedAt & top & Htop & Hrun).
    cbv zeta in Hrun. fold sorted in Hrun. rewrite Hlen in Hrun.
    fold n in Hrun. fold e in Hrun.
    assert (El : eliminated sorted e = map ur_userId (drop keep sorted)).
    { unfold eliminated. rewrite slice_tail by (rewrite Hlen; fold n; lia).
      rewrite Hlen. reflexivity. }
    assert (Ec : cutoffRoll sorted (cutoffIndex n e) = ur_roll cut)
      by (apply cutoffRoll_at; [unfold cutoffIndex; lia | exact Hcut]).
    rewrite El, Ec in Hrun.
    exists cut. destruct (n - e <=? 1).
    + destruct Hrun as (w' & E & K & _).
      eexists _, w', startTime, endTime. split; [exact Hcut|].
      split; [exact E|]. split; [reflexivity|]. split; [reflexivity|].
      rewrite K. apply round_data_survives, Hid.
    + destruct Hrun as (startNext & w' & E & K & _).
      eexists _, w', startTime, endTime. split; [exact Hcut|].
      split; [exact E|]. split; [reflexivity|]. split; [reflexivity|].
      rewrite K, stored_doc_insert_ne.
      * apply round_data_survives, Hid.
      * intros E'. apply round_key_inj in E'. lia.
  - intros H10 H50. rewrite Hdrop. unfold e.
    rewrite (eliminateCount_half _ _ Hn' H50). unfold n. rewrite H10. reflexivity.
Qed.

(** C3.  When at most one player remains after elimination, [endRound]
    moves the tournament to [completed] and names as winner the participant
    at the head of the sort, who is a recorded participant with a roll that
    no recorded roll exceeds; the slot of the next round is left as it was.
    One participant at 50% gives [eliminateCount = 0] and completes. *)
Theorem C3_completion id pct w c rs :
  healthy w ->
  stored_config w id = Some c ->
  cfg_id c = id ->
  cfg_status c = ACTIVE ->
  recorded_rolls w id = Some rs ->
  rs <> [] ->
  round_slot_typed w id (cfg_currentRound c) ->
  let sorted := Array_sort by_roll_desc rs in
  let n := Z.of_nat (length rs) in
  let e := Qfloor (round_double (inject_Z n * round_double (pct / 100))) in
  (n - e <= 1 ->
   exists top res w' updatedAt,
     sorted !! 0%nat = Some top /\
     top ∈ rs /\
     (forall r, r ∈ rs -> ur_roll r <= ur_roll top) /\
     endRound id pct w = (Ok res, w') /\
     er_success res = true /\
     er_message res = "Tournament complete! Winner: " +:+ ur_username top /\
     stored_config w' id
     = Some (mkConfig (cfg_id c) (cfg_name c) (cfg_maxRoll c) (cfg_rollLimit c)
               (cfg_deadline c) (cfg_currentRound c) COMPLETED (cfg_messageId c)
               (cfg_channelId c) (cfg_createdAt c) updatedAt) /\
     kv w' !! roundKey id (cfg_currentRound c + 1)
     = kv w !! roundKey id (cfg_currentRound c + 1)) /\
  (forall r, rs = [r] -> pct == 50 -> e = 0 /\ n - e <= 1 /\ sorted = [r]).
Proof.
  intros Hw Hc Hid Hs Hr Hne Ht sorted n.
  change (Qfloor (round_double (inject_Z n * round_double (pct / 100))))
    with (eliminateCount n pct).
  intros e.
  assert (Hlen : length sorted = length rs) by apply Array_sort_length.
  split.
  - intros Hrem.
    destruct (endRound_run id pct w c rs Hw (stored_config_doc _ _ _ Hc) Hs Hr Hne Ht)
      as (startTime & endTime & updatedAt & top & Htop & Hrun).
    cbv zeta in Hrun. fold sorted in Hrun. rewrite Hlen in Hrun.
    fold n in Hrun. fold e in Hrun.
    destruct (Z.leb_spec (n - e) 1) as [L|L]; [|lia].
    destruct Hrun as (w' & E & K & _).
    destruct (sorted_extremes rs Hne) as (hi & lo & Ehi & _ & Ihi & _ & B).
    assert (Eq : Some top = Some hi) by exact (eq_trans (eq_sym Htop) Ehi).
    inversion Eq; subst hi; clear Eq Ehi.
    exists top. eexists _, w', updatedAt. split; [exact Htop|].
    split; [exact Ihi|]. split; [intros r Hin; apply B, Hin|].
    split; [exact E|]. split; [reflexivity|]. split; [reflexivity|].
    split.
    + unfold stored_config. rewrite K, <- Hid, stored_doc_insert_eq. reflexivity.
    + rewrite K, Hid.
      rewrite lookup_insert_ne
        by (intros E'; symmetry in E'; exact (round_key_not_config_key _ _ E')).
      rewrite lookup_delete_ne
        by (intros E'; symmetry in E'; exact (round_key_not_rolls_key _ _ E')).
      rewrite lookup_insert_ne; [reflexivity|].
      intros E'. apply round_key_inj in E'. lia.
  - intros r -> H50. unfold e, n.
    assert (H1 : 0 <= Z.of_nat (length [r]) < 2 ^ 53) by (simpl length; lia).
    rewrite (eliminateCount_half _ _ H1 H50).
    split; [reflexivity|]. split; [|reflexivity]. vm_compute. discriminate.
Qed.

(** ** Status transitions *)

Lemma endRound_not_active id pct w c :
  healthy w ->
  stored_config w id = Some c ->
  cfg_status c <> ACTIVE ->
  ends (endRound id pct) w
       (Ok (mkEndRoundResult false "Tournament is not active" None)) (kv w).
Proof.
  intros Hw Hc Hs. apply stored_config_doc in Hc.
  destruct (getTournamentConfig_spec id w Hw) as [ev1 E1].
  unfold ends, endRound.
  rewrite (bind_Ok _ _ _ _ _ E1), Hc. red_now.
  rewrite bool_decide_eq_false_2 by assumption. cbn [negb]. finish_ends.
Qed.

Lemma cancelTournament_found id w c :
  healthy w ->
  stored_config w id = Some c ->
  ends (cancelTournament id) w (Ok true)
       (<[TOURNAMENT_PREFIX +:+ cfg_id c :=
            RString (Json (DConfig (set_status CANCELLED (ms (now w)) c)))]>
          (kv w)).
Proof.
  intros Hw Hc. apply stored_config_doc in Hc.
  destruct (getTournamentConfig_spec id w Hw) as [ev1 E1].
  unfold ends, cancelTournament.
  rewrite (bind_Ok _ _ _ _ _ E1), Hc. red_now.
  rewrite (bind_Ok _ _ _ _ _ (Date_now_run _)). autorewrite with world_rw.
  exec_with (saveTournamentConfig_spec (set_status CANCELLED (ms (now w)) c)).
  unfold logger, bind, ret. finish_ends.
Qed.

Lemma cancelTournament_not_found id w :
  healthy w ->
  stored_doc (kv w) (TOURNAMENT_PREFIX +:+ id) = None ->
  ends (cancelTournament id) w (Ok false) (kv w).
Proof.
  intros Hw Hc.
  destruct (getTournamentConfig_spec id w Hw) as [ev1 E1].
  unfold ends, cancelTournament.
  rewrite (bind_Ok _ _ _ _ _ E1), Hc. finish_ends.
Qed.

(** C6 (amended).  [processUserRoll] and [endRound] refuse a tournament that
    is not active and store nothing, so for them completed and cancelled are
    terminal; [processUserRoll] never changes the configuration; [endRound]
    leaves an active tournament active or completed; [cancelTournament]
    stores status cancelled whatever the status was, completed and cancelled
    included, and answers true; it answers false, storing nothing, when the
    tournament is not found. *)
Theorem C6_status_transitions id w c :
  healthy w ->
  stored_config w id = Some c ->
  cfg_id c = id ->
  (cfg_status c <> ACTIVE ->
   (forall uid name, exists w',
       processUserRoll id uid name w
       = (Ok (mkRollResult false None "Tournament is not active"), w')
       /\ kv w' = kv w) /\
   (forall pct, exists w',
       endRound id pct w
       = (Ok (mkEndRoundResult false "Tournament is not active" None), w')
       /\ kv w' = kv w)) /\
  (forall uid name,
     stored_config (snd (processUserRoll id uid name w)) id = Some c) /\
  (forall pct rs,
     cfg_status c = ACTIVE ->
     recorded_rolls w id = Some rs -> rs <> [] ->
     round_slot_typed w id (cfg_currentRound c) ->
     exists c',
       stored_config (snd (endRound id pct w)) id = Some c' /\
       (cfg_status c' = ACTIVE \/ cfg_status c' = COMPLETED)) /\
  (exists w',
     cancelTournament id w = (Ok true, w') /\
     stored_config w' id = Some (set_status CANCELLED (ms (now w)) c)) /\
  (forall w0,
     healthy w0 -> stored_doc (kv w0) (TOURNAMENT_PREFIX +:+ id) = None ->
     exists w', cancelTournament id w0 = (Ok false, w') /\ kv w' = kv w0).
Proof.
  intros Hw Hc Hid. split; [|split; [|split; [|split]]].
  - intros Hs. split.
    + intros uid name.
      destruct (processUserRoll_not_active id uid name w Hw c
                  (stored_config_doc _ _ _ Hc) Hs) as (w' & E & K & _).
      exists w'. split; assumption.
    + intros pct.
      destruct (endRound_not_active id pct w c Hw Hc Hs) as (w' & E & K & _).
      exists w'. split; assumption.
  - intros uid name.
    destruct (processUserRoll id uid name w) as [res w'] eqn:Hrun. simpl.
    destruct (processUserRoll_summary _ _ _ _ _ _ _ Hw Hc Hrun) as [_ [K|K]].
    + unfold stored_config. rewrite K. exact Hc.
    + destruct K as (h & r' & _ & K & _).
      unfold stored_config. rewrite K, stored_doc_insert_ne; [exact Hc|].
      intros E. symmetry in E. exact (config_key_not_rolls_key _ E).
  - intros pct rs Hs Hr Hne Ht.
    destruct (endRound_run id pct w c rs Hw (stored_config_doc _ _ _ Hc) Hs Hr Hne Ht)
      as (startTime & endTime & updatedAt & top & Htop & Hrun).
    cbv zeta in Hrun.
    destruct (_ <=? 1).
    + destruct Hrun as (w' & E & K & _). rewrite E. simpl.
      eexists. unfold stored_config. rewrite K, Hid, stored_doc_insert_eq.
      split; [reflexivity|right; reflexivity].
    + destruct Hrun as (startNext & w' & E & K & _). rewrite E. simpl.
      eexists. unfold stored_config. rewrite K, Hid.
      rewrite stored_doc_insert_ne by apply round_key_not_config_key.
      rewrite stored_doc_insert_eq.
      split; [reflexivity|left; exact Hs].
  - destruct (cancelTournament_found id w c Hw Hc) as (w' & E & K & _).
    exists w'. split; [exact E|].
    unfold stored_config. rewrite K, Hid, stored_doc_insert_eq. reflexivity.
  - intros w0 Hw0 Hnone.
    destruct (cancelTournament_not_found id w0 Hw0 Hnone) as (w' & E & K & _).
    exists w'. split; assumption.
Qed.

Lemma JSON_parse_text_error t e : JSON_parse_text t = Throw e -> e = SyntaxError.
Proof. induction t; simpl; intros H; try congruence; auto. Qed.

(** ** Faults of the Redis client *)

Ltac first_fault :=
  intros [en fl m df d nw lt rnd tr] fs He Hf; simpl in He, Hf; subst;
  eexists; split; [cbn; reflexivity|split; reflexivity].

Ltac no_client :=
  intros [en fl m df d nw lt rnd tr] He; simpl in He; subst;
  eexists; split; [cbn; reflexivity|reflexivity].

Ltac conjuncts := repeat match goal with |- _ /\ _ => split end.

Lemma savers_fail_loud c id uid r n rd st :
  fail_loud (saveTournamentConfig c) "Failed to save tournament config" /\
  fail_loud (deleteTournamentConfig id) "Failed to delete tournament config" /\
  fail_loud (saveUserRoll id uid r) "Failed to save user roll" /\
  fail_loud (deleteAllUserRolls id) "Failed to delete user rolls" /\
  fail_loud (saveRoundData id n rd) "Failed to save round data" /\
  fail_loud (saveTournamentStats id st) "Failed to save tournament stats".
Proof. conjuncts; first_fault. Qed.

Lemma getters_fail_soft id uid n :
  fail_soft (getTournamentConfig id) None "Failed to get tournament config" /\
  fail_soft (getUserRoll id uid) None "Failed to get user roll" /\
  fail_soft (getAllUserRolls id) [] "Failed to get all user rolls" /\
  fail_soft (getRoundData id n) None "Failed to get round data" /\
  fail_soft (getAllRoundData id) [] "Failed to get all round data" /\
  fail_soft (getTournamentStats id) None "Failed to get tournament stats" /\
  fail_soft listActiveTournaments [] "Failed to list active tournaments".
Proof. conjuncts; first_fault. Qed.

Lemma all_need_client c id uid r n rd st :
  needs_client (saveTournamentConfig c) /\
  needs_client (deleteTournamentConfig id) /\
  needs_client (saveUserRoll id uid r) /\
  needs_client (deleteAllUserRolls id) /\
  needs_client (saveRoundData id n rd) /\
  needs_client (saveTournamentStats id st) /\
  needs_client (getTournamentConfig id) /\
  needs_client (getUserRoll id uid) /\
  needs_client (getAllUserRolls id) /\
  needs_client (getRoundData id n) /\
  needs_client (getAllRoundData id) /\
  needs_client (getTournamentStats id) /\
  needs_client listActiveTournaments.
Proof. repeat split; no_client. Qed.

(** *** A rejection at any command *)

Lemma tracks_ret {A} (a : A) : tracks (ret a).
Proof.
  intros w out w1 E. inversion E; subst. split; [reflexivity|].
  exists []. split; [reflexivity|]. intros H. inversion H.
Qed.

Lemma tracks_throw {A} e : tracks (@throw A e).
Proof.
  intros w out w1 E. inversion E; subst. split; [reflexivity|].
  exists []. split; [reflexivity|]. intros H. inversion H.
Qed.

Lemma tracks_JSON_parse t : tracks (JSON_parse t).
Proof.
  intros w out w1 E. inversion E; subst. split; [reflexivity|].
  exists []. split; [reflexivity|]. intros H. inversion H.
Qed.

Lemma tracks_bind {A B} (m : M A) (k : A -> M B) :
  tracks m -> (forall a, tracks (k a)) -> tracks (bind m k).
Proof.
  intros Hm Hk w out w2 E. unfold bind in E.
  destruct (m w) as [[a|e] w1] eqn:Em.
  - destruct (Hm _ _ _ Em) as (K1 & u1 & F1 & T1).
    destruct (Hk a _ _ _ E) as (K2 & u2 & F2 & T2).
    split; [congruence|]. exists (u1 ++ u2).
    split; [rewrite F1, F2; apply List.app_assoc|].
    intros H. apply elem_of_app in H. destruct H as [H|H].
    + specialize (T1 H). discriminate.
    + exact (T2 H).
  - inversion E; subst. exact (Hm _ _ _ Em).
Qed.

Lemma tracks_send e : tracks (send e).
Proof.
  intros [en fl m df d nw lt rnd tr] out w1 E. unfold send in E. cbn in E.
  destruct fl as [|[|] fs]; inversion E; subst; cbn; (split; [reflexivity|]).
  - exists []. split; [reflexivity|]. intros H. inversion H.
  - exists [true]. split; [reflexivity|]. reflexivity.
  - exists [false]. split; [reflexivity|].
    intros H. apply list_elem_of_singleton in H. discriminate.
Qed.

Lemma tracks_client_get key : tracks (client_get key).
Proof.
  apply tracks_bind; [apply tracks_send|]. intros _.
  intros w out w1 E. split.
  - destruct (kv w !! key) as [[|]|]; inversion E; reflexivity.
  - exists []. split; [|intros H; inversion H].
    destruct (kv w !! key) as [[|]|]; inversion E; reflexivity.
Qed.

Lemma tracks_client_hget key field : tracks (client_hget key field).
Proof.
  apply tracks_bind; [apply tracks_send|]. intros _.
  intros w out w1 E. split.
  - destruct (kv w !! key) as [[|]|]; inversion E; reflexivity.
  - exists []. split; [|intros H; inversion H].
    destruct (kv w !! key) as [[|]|]; inversion E; reflexivity.
Qed.

Lemma tracks_client_hgetall key : tracks (client_hgetall key).
Proof.
  apply tracks_bind; [apply tracks_send|]. intros _.
  intros w out w1 E. split.
  - destruct (kv w !! key) as [[|]|]; inversion E; reflexivity.
  - exists []. split; [|intros H; inversion H].
    destruct (kv w !! key) as [[|]|]; inversion E; reflexivity.
Qed.

Lemma tracks_client_keys pattern : tracks (client_keys pattern).
Proof.
  apply tracks_bind; [apply tracks_send|]. intros _.
  intros w out w1 E. inversion E; subst. split; [reflexivity|].
  exists []. split; [reflexivity|]. intros H. inversion H.
Qed.

Lemma tracks_get_one key : 
  tracks (data <- client_get key ;;
          match data with
          | None => ret None
          | Some t => if truthy t then d <- JSON_parse t ;; ret (Some d) else ret None
          end).
Proof.
  apply tracks_bind; [apply tracks_client_get|]. intros [t|]; [|apply tracks_ret].
  destruct (truthy t); [|apply tracks_ret].
  apply tracks_bind; [apply tracks_JSON_parse|]. intros d. apply tracks_ret.
Qed.

Lemma tracks_parse_each ts : tracks (parse_each ts).
Proof.
  induction ts as [|t ts IH]; [apply tracks_ret|].
  cbn [parse_each]. apply tracks_bind; [apply tracks_JSON_parse|]. intros d.
  apply tracks_bind; [exact IH|]. intros ds. apply tracks_ret.
Qed.

Lemma tracks_get_and_parse_each keys : tracks (get_and_parse_each keys).
Proof.
  induction keys as [|key keys IH]; [apply tracks_ret|].
  cbn [get_and_parse_each]. apply tracks_bind; [apply tracks_client_get|].
  intros [t|]; [|exact IH]. destruct (truthy t); [|exact IH].
  apply tracks_bind; [apply tracks_JSON_parse|]. intros d.
  apply tracks_bind; [exact IH|]. intros ds. apply tracks_ret.
Qed.

Lemma tracks_as_rounds ds : tracks (as_rounds ds).
Proof.
  induction ds as [|d ds IH]; [apply tracks_ret|].
  cbn [as_rounds]. apply tracks_bind.
  - destruct d; first [apply tracks_ret | apply tracks_throw].
  - intros r. apply tracks_bind; [exact IH|]. intros rs. apply tracks_ret.
Qed.

Lemma fates_used_app w w' used :
  redisFaults w = used ++ redisFaults w' -> fates_used w w' = used.
Proof.
  intros E. unfold fates_used. rewrite E, length_app.
  replace (length used + length (redisFaults w') - length (redisFaults w'))%nat
    with (length used) by lia.
  apply take_app_length.
Qed.

(** A reader: the body in a [try] whose [catch] logs and answers [a]. *)
Lemma swallowing_swallows {A} (body : M A) (msg : string) (a : A) :
  tracks body ->
  swallows (requireRedisClient ;;;
            try_catch body (fun error => logger LError msg ;;; ret a)) a msg.
Proof.
  intros T w He. rewrite (bind_Ok _ _ _ _ _ (requireRedisClient_ok w He)).
  unfold try_catch. destruct (body w) as [[x|e] w1] eqn:E;
    destruct (T _ _ _ E) as (K & used & F & R).
  - exists x, w1. split; [reflexivity|]. split; [exact K|].
    intros Hr. unfold rejected in Hr. rewrite (fates_used_app _ _ _ F) in Hr.
    specialize (R Hr). discriminate.
  - exists a. eexists. split; [reflexivity|]. split; [exact K|].
    intros _. split; reflexivity.
Qed.

(** A writer: the body in a [try] whose [catch] logs and throws again. *)
Lemma rethrowing_rethrows {A} (body : M A) (msg : string) :
  tracks body ->
  rethrows (requireRedisClient ;;;
            try_catch body (fun error => logger LError msg ;;; throw error)) msg.
Proof.
  intros T w out w' He E Hr.
  rewrite (bind_Ok _ _ _ _ _ (requireRedisClient_ok w He)) in E.
  unfold try_catch in E. destruct (body w) as [[x|e] w1] eqn:Eb;
    destruct (T _ _ _ Eb) as (K & used & F & R).
  - inversion E; subst. unfold rejected in Hr.
    rewrite (fates_used_app _ _ _ F) in Hr. specialize (R Hr). discriminate.
  - cbn in E. inversion E; subst. unfold rejected, fates_used in Hr. cbn in Hr.
    change (true ∈ fates_used w w1) in Hr.
    rewrite (fates_used_app _ _ _ F) in Hr. specialize (R Hr).
    cbn in R. inversion R; subst. split; [reflexivity|]. split; [exact K|reflexivity].
Qed.


(** A writer: one command and a note in a [try] whose [catch] logs and
    throws again. *)
Lemma writer_rethrows ev (g : M unit) (okmsg msg : string) :
  keeps_fates g ->
  rethrows (requireRedisClient ;;;
            try_catch ((send ev ;;; g) ;;; logger LInfo okmsg)
                      (fun error => logger LError msg ;;; throw error)) msg.
Proof.
  intros G w out w' He E Hr.
  rewrite (bind_Ok _ _ _ _ _ (requireRedisClient_ok w He)) in E.
  unfold try_catch, bind in E.
  destruct (send ev w) as [[[]|e] w1] eqn:Es;
    destruct (tracks_send _ _ _ _ Es) as (K & used & F & R).
  - exfalso. destruct (g w1) as [[[]|e] w2] eqn:Eg;
      pose proof (G _ _ _ Eg) as F2; cbn in E; inversion E; subst;
      unfold rejected, fates_used in Hr; cbn [redisFaults push logger] in Hr;
      rewrite ?F2 in Hr;
      change (true ∈ fates_used w w1) in Hr;
      rewrite (fates_used_app _ _ _ F) in Hr; specialize (R Hr); discriminate.
  - cbn in E. inversion E; subst.
    unfold rejected, fates_used in Hr. cbn [redisFaults push] in Hr.
    change (true ∈ fates_used w w1) in Hr.
    rewrite (fates_used_app _ _ _ F) in Hr. specialize (R Hr).
    cbn in R. inversion R; subst. split; [reflexivity|]. split; [exact K|reflexivity].
Qed.

Lemma keeps_fates_set_kv {A} (a : A) f : keeps_fates (fun w => (Ok a, set_kv f w)).
Proof. intros w out w1 E. inversion E; subst. reflexivity. Qed.

Lemma keeps_fates_hset key field value :
  keeps_fates
    (fun w => match kv w !! key with
              | None => (Ok tt, set_kv (insert key (RHash [(field, value)])) w)
              | Some (RHash h) =>
                  (Ok tt, set_kv (insert key (RHash (hash_set field value h))) w)
              | Some (RString _) => (Throw WrongType, w)
              end).
Proof.
  intros w out w1 E. destruct (kv w !! key) as [[|]|]; inversion E; subst; reflexivity.
Qed.

Lemma savers_rethrow c id uid r n rd st :
  rethrows (saveTournamentConfig c) "Failed to save tournament config" /\
  rethrows (deleteTournamentConfig id) "Failed to delete tournament config" /\
  rethrows (saveUserRoll id uid r) "Failed to save user roll" /\
  rethrows (deleteAllUserRolls id) "Failed to delete user rolls" /\
  rethrows (saveRoundData id n rd) "Failed to save round data" /\
  rethrows (saveTournamentStats id st) "Failed to save tournament stats".
Proof.
  unfold saveTournamentConfig, deleteTournamentConfig, saveUserRoll,
    deleteAllUserRolls, saveRoundData, saveTournamentStats,
    client_set, client_del, client_hset.
  cbv zeta.
  repeat match goal with |- _ /\ _ => split end;
    first [ apply writer_rethrows, keeps_fates_set_kv
          | apply writer_rethrows, keeps_fates_hset ].
Qed.

Lemma getters_swallow id uid n :
  swallows (getTournamentConfig id) None "Failed to get tournament config" /\
  swallows (getUserRoll id uid) None "Failed to get user roll" /\
  swallows (getAllUserRolls id) [] "Failed to get all user rolls" /\
  swallows (getRoundData id n) None "Failed to get round data" /\
  swallows (getTournamentStats id) None "Failed to get tournament stats" /\
  swallows listActiveTournaments [] "Failed to list active tournaments".
Proof.
  repeat match goal with |- _ /\ _ => split end; apply swallowing_swallows.
  - apply tracks_get_one.
  - apply tracks_bind; [apply tracks_client_hget|]. intros [t|]; [|apply tracks_ret].
    destruct (truthy t); [|apply tracks_ret].
    apply tracks_bind; [apply tracks_JSON_parse|]. intros d. apply tracks_ret.
  - apply tracks_bind; [apply tracks_client_hgetall|]. intros h.
    apply tracks_parse_each.
  - apply tracks_get_one.
  - apply tracks_get_one.
  - apply tracks_bind; [apply tracks_client_keys|]. intros keys.
    apply tracks_get_and_parse_each.
Qed.

Lemma getAllRoundData_swallows id :
  swallows_unless_off_type (getAllRoundData id) [] "Failed to get all round data".
Proof.
  intros w He. unfold getAllRoundData.
  rewrite (bind_Ok _ _ _ _ _ (requireRedisClient_ok w He)).
  cbv zeta. unfold try_catch.
  match goal with |- context [match ?b w with _ => _ end] => set (body := b) end.
  assert (T : tracks body).
  { unfold body. apply tracks_bind; [apply tracks_client_keys|]. intros keys.
    apply tracks_bind; [apply tracks_get_and_parse_each|]. intros ds.
    apply tracks_bind; [apply tracks_as_rounds|]. intros rs. apply tracks_ret. }
  destruct (body w) as [[x|e] w1] eqn:E;
    destruct (T _ _ _ E) as (K & used & F & R).
  - eexists _, w1. split; [reflexivity|]. split; [exact K|].
    split; [intros e He'; discriminate He'|].
    intros Hr. unfold rejected in Hr. rewrite (fates_used_app _ _ _ F) in Hr.
    specialize (R Hr). discriminate.
  - assert (Hrej : rejected w w1 -> e = ConnectionFault).
    { intros Hr. unfold rejected in Hr. rewrite (fates_used_app _ _ _ F) in Hr.
      specialize (R Hr). cbn in R. congruence. }
    destruct e; try (eexists _, _; split; [reflexivity|]; split; [exact K|];
                     split; [intros e He'; discriminate He'|];
                     intros _; split; reflexivity).
    eexists _, _. split; [reflexivity|]. split; [exact K|].
    split; [intros e He'; cbn in He'; congruence|].
    intros Hr. specialize (Hrej Hr). discriminate.
Qed.

Lemma send_pass e w fs :
  redisFaults w = false :: fs ->
  send e w = (Ok tt, set_redisFaults fs (push e w)).
Proof. intros H; unfold send; simpl; rewrite H; reflexivity. Qed.

(** With the first [j] commands accepted and the next one rejected, a loop
    over more than [j] keys ends in an exception: the rejection, or before
    it a value of the wrong kind or a text that does not parse. *)
Lemma get_and_parse_each_gives_up keys : forall j fs w,
  redisFaults w = replicate j false ++ true :: fs ->
  (j < length keys)%nat ->
  exists e w1,
    get_and_parse_each keys w = (Throw e, w1) /\ e <> TypeConfusion /\
    kv w1 = kv w.
Proof.
  induction keys as [|key keys IH]; intros j fs w Hf Hj; [simpl in Hj; lia|].
  cbn [get_and_parse_each]. unfold client_get.
  destruct j as [|j]; cbn [replicate app] in Hf.
  - rewrite bind_assoc, (bind_Throw _ _ _ _ _ (send_fault _ _ _ Hf)).
    eexists _, _. split; [reflexivity|]. split; [discriminate|reflexivity].
  - cbn [length] in Hj.
    rewrite bind_assoc, (bind_Ok _ _ _ _ _ (send_pass _ _ _ Hf)).
    set (w1 := set_redisFaults _ _).
    assert (F1 : redisFaults w1 = replicate j false ++ true :: fs) by reflexivity.
    assert (K1 : kv w1 = kv w) by reflexivity.
    destruct (IH j fs w1 F1 ltac:(lia)) as (e & w2 & E & Ne & K2).
    unfold bind at 1. rewrite K1. destruct (kv w !! key) as [[t|h]|].
    + destruct (truthy t).
      * unfold bind at 1, JSON_parse.
        destruct (JSON_parse_text t) as [doc|e'] eqn:Ep.
        -- rewrite (bind_Throw _ _ _ _ _ E). eexists _, _.
           split; [reflexivity|]. split; [exact Ne|]. rewrite K2. exact K1.
        -- eexists _, _. split; [reflexivity|]. split; [|exact K1].
           rewrite (JSON_parse_text_error _ _ Ep). discriminate.
      * rewrite E. eexists _, _. split; [reflexivity|].
        split; [exact Ne|]. rewrite K2. exact K1.
    + eexists _, _. split; [reflexivity|]. split; [discriminate|exact K1].
    + rewrite E. eexists _, _. split; [reflexivity|].
      split; [exact Ne|]. rewrite K2. exact K1.
Qed.

Lemma readers_give_up id :
  gives_up_at_any_command listActiveTournaments scanned_keys
    "Failed to list active tournaments" /\
  gives_up_at_any_command (getAllRoundData id) (fun w => round_keys w id)
    "Failed to get all round data".
Proof.
  split; intros w i fs He Hf Hi.
  - unfold listActiveTournaments.
    rewrite (bind_Ok _ _ _ _ _ (requireRedisClient_ok w He)).
    cbv zeta. unfold try_catch, client_keys.
    destruct i as [|i]; cbn [replicate app] in Hf.
    + rewrite !bind_assoc, (bind_Throw _ _ _ _ _ (send_fault _ _ _ Hf)).
      eexists. split; [reflexivity|]. split; reflexivity.
    + rewrite !bind_assoc, (bind_Ok _ _ _ _ _ (send_pass _ _ _ Hf)).
      set (w1 := set_redisFaults _ _).
      unfold bind at 1.
      change (filter _ (map fst (map_to_list (kv w1)))) with (scanned_keys w).
      destruct (get_and_parse_each_gives_up (scanned_keys w) i fs w1 eq_refl
                  ltac:(lia)) as (e & w2 & E & Ne & K2).
      rewrite E. eexists. split; [reflexivity|]. split; [exact K2|reflexivity].
  - unfold getAllRoundData.
    rewrite (bind_Ok _ _ _ _ _ (requireRedisClient_ok w He)).
    cbv zeta. unfold try_catch, client_keys.
    destruct i as [|i]; cbn [replicate app] in Hf.
    + rewrite !bind_assoc, (bind_Throw _ _ _ _ _ (send_fault _ _ _ Hf)).
      eexists. split; [reflexivity|]. split; reflexivity.
    + rewrite !bind_assoc, (bind_Ok _ _ _ _ _ (send_pass _ _ _ Hf)).
      set (w1 := set_redisFaults _ _).
      unfold bind at 1.
      change (filter _ (map fst (map_to_list (kv w1)))) with (round_keys w id).
      destruct (get_and_parse_each_gives_up (round_keys w id) i fs w1 eq_refl
                  ltac:(lia)) as (e & w2 & E & Ne & K2).
      rewrite (bind_Throw _ _ _ _ _ E).
      destruct e; try congruence;
        (eexists; split; [reflexivity|]; split; [exact K2|reflexivity]).
Qed.

(** *** A value on typed round keys *)

Lemma castless_bind {A B} (m : M A) (k : A -> M B) :
  castless m -> (forall a, castless (k a)) -> castless (bind m k).
Proof.
  intros Hm Hk w out w2 E. unfold bind in E.
  destruct (m w) as [[a|e] w1] eqn:Em.
  - exact (Hk a _ _ _ E).
  - inversion E; subst. exact (Hm _ _ _ Em).
Qed.

Lemma castless_ret {A} (a : A) : castless (ret a).
Proof. intros w out w1 E. inversion E; subst. discriminate. Qed.

Lemma castless_send e : castless (send e).
Proof.
  intros w out w1 E. unfold send in E.
  destruct (redisFaults (push e w)) as [|[|] fs]; inversion E; subst; discriminate.
Qed.

Lemma castless_client_get key : castless (client_get key).
Proof.
  apply castless_bind; [apply castless_send|]. intros _ w out w1 E.
  destruct (kv w !! key) as [[|]|]; inversion E; subst; discriminate.
Qed.

Lemma castless_client_keys pattern : castless (client_keys pattern).
Proof.
  apply castless_bind; [apply castless_send|]. intros _ w out w1 E.
  inversion E; subst. discriminate.
Qed.

Lemma castless_JSON_parse t : castless (JSON_parse t).
Proof.
  intros w out w1 E. inversion E; subst.
  destruct (JSON_parse_text t) as [d|e] eqn:Ep; [discriminate|].
  rewrite (JSON_parse_text_error _ _ Ep). discriminate.
Qed.

Lemma castless_get_and_parse_each keys : castless (get_and_parse_each keys).
Proof.
  induction keys as [|key keys IH]; [apply castless_ret|].
  cbn [get_and_parse_each]. apply castless_bind; [apply castless_client_get|].
  intros [t|]; [|exact IH]. destruct (truthy t); [|exact IH].
  apply castless_bind; [apply castless_JSON_parse|]. intros d.
  apply castless_bind; [exact IH|]. intros ds. apply castless_ret.
Qed.

Lemma client_get_reads key w t w1 :
  client_get key w = (Ok (Some t), w1) -> kv w !! key = Some (RString t).
Proof.
  intros E. unfold client_get, bind in E.
  destruct (send (CmdGet key) w) as [[[]|e] w2] eqn:Es; [|discriminate].
  destruct (tracks_send _ _ _ _ Es) as [K2 _]. rewrite <- K2.
  destruct (kv w2 !! key) as [[t'|h]|]; inversion E; reflexivity.
Qed.

(** What the loop returns was read under one of the keys. *)
Lemma get_and_parse_each_reads keys : forall w ds w1,
  get_and_parse_each keys w = (Ok ds, w1) ->
  Forall (fun d => exists k, k ∈ keys /\ stored_doc (kv w) k = Some d) ds.
Proof.
  induction keys as [|key keys IH]; intros w ds w1 E.
  - inversion E; subst. constructor.
  - cbn [get_and_parse_each] in E. unfold bind at 1 in E.
    destruct (client_get key w) as [[data|e] w0] eqn:Eg; [|discriminate].
    destruct (tracks_client_get key _ _ _ Eg) as [K0 _].
    assert (later : forall ds' w', get_and_parse_each keys w0 = (Ok ds', w') ->
              Forall (fun d => exists k, k ∈ key :: keys /\
                                 stored_doc (kv w) k = Some d) ds').
    { intros ds' w' E'. rewrite <- K0.
      eapply Forall_impl; [exact (IH _ _ _ E')|].
      intros d (k & Hk & Hd). exists k. split; [right; exact Hk|exact Hd]. }
    destruct data as [t|]; [|exact (later _ _ E)].
    destruct (truthy t) eqn:Tr; [|exact (later _ _ E)].
    unfold bind at 1, JSON_parse in E.
    destruct (JSON_parse_text t) as [d|e] eqn:Ep; [|discriminate].
    unfold bind in E.
    destruct (get_and_parse_each keys w0) as [[ds'|e] w'] eqn:E'; [|discriminate].
    inversion E; subst. constructor; [|exact (later _ _ eq_refl)].
    exists key. split; [left|].
    unfold stored_doc. rewrite (client_get_reads _ _ _ _ Eg).
    unfold doc_of_text. rewrite Tr, Ep. reflexivity.
Qed.

Lemma as_rounds_typed ds w :
  Forall (fun d => exists r, d = DRound r) ds ->
  exists rs, as_rounds ds w = (Ok rs, w).
Proof.
  induction 1 as [|d ds [r ->] _ [rs IH]]; [exists []; reflexivity|].
  exists (r :: rs). cbn [as_rounds as_round]. rewrite bind_ret.
  rewrite (bind_Ok _ _ _ _ _ IH). reflexivity.
Qed.

Lemma client_keys_scans pattern w keys w1 :
  client_keys pattern w = (Ok keys, w1) ->
  keys = filter (fun k => glob_match pattern k = true) (map fst (map_to_list (kv w)))
  /\ kv w1 = kv w.
Proof.
  intros E. unfold client_keys, bind in E.
  destruct (send (CmdKeys pattern) w) as [[[]|e] w2] eqn:Es; [|discriminate].
  destruct (tracks_send _ _ _ _ Es) as [K2 _].
  inversion E; subst. rewrite K2. split; reflexivity.
Qed.

Lemma getAllRoundData_typed id w :
  redisEnabled w = true -> rounds_typed w id ->
  exists rs w', getAllRoundData id w = (Ok rs, w').
Proof.
  intros He Ht. unfold getAllRoundData.
  rewrite (bind_Ok _ _ _ _ _ (requireRedisClient_ok w He)).
  cbv zeta. unfold try_catch.
  set (pattern := TOURNAMENT_ROUND_PREFIX +:+ id +:+ ":*").
  destruct (client_keys pattern w) as [[keys|e] w0] eqn:Ek.
  2:{ rewrite (bind_Throw _ _ _ _ _ Ek).
      pose proof (castless_client_keys _ _ _ _ Ek) as N.
      destruct e; try (eexists _, _; reflexivity). exfalso; apply N; reflexivity. }
  rewrite (bind_Ok _ _ _ _ _ Ek).
  destruct (client_keys_scans _ _ _ _ Ek) as [Hkeys K0].
  change (filter _ _) with (round_keys w id) in Hkeys. subst keys.
  destruct (get_and_parse_each (round_keys w id) w0) as [[ds|e] w1] eqn:Eg.
  - rewrite (bind_Ok _ _ _ _ _ Eg).
    destruct (as_rounds_typed ds w1) as [rs Er].
    { eapply Forall_impl; [exact (get_and_parse_each_reads _ _ _ _ Eg)|].
      intros d (k & Hk & Hd). rewrite K0 in Hd. exact (Ht k d Hk Hd). }
    rewrite (bind_Ok _ _ _ _ _ Er). eexists _, _. reflexivity.
  - rewrite (bind_Throw _ _ _ _ _ Eg).
    pose proof (castless_get_and_parse_each _ _ _ _ Eg) as N.
    destruct e; try (eexists _, _; reflexivity). exfalso; apply N; reflexivity.
Qed.

(** C4 (amended).  The saving and deleting operations of the tournament
    store log a fault of the client and raise it again.  The reading
    operations (get, get-all, list) catch it, log it and answer null or the
    empty list, whichever of their commands is rejected: the only one, the
    scan of the keys, or the fetch of any of the keys found.  While a client
    exists they return a value; for [getAllRoundData], which uses what it
    read as round data, this is shown where the round keys hold round data.
    Every operation throws when there is no client. *)
Theorem C4_fault_policy_of_the_store c id uid r n rd st :
  (fail_loud (saveTournamentConfig c) "Failed to save tournament config" /\
   fail_loud (deleteTournamentConfig id) "Failed to delete tournament config" /\
   fail_loud (saveUserRoll id uid r) "Failed to save user roll" /\
   fail_loud (deleteAllUserRolls id) "Failed to delete user rolls" /\
   fail_loud (saveRoundData id n rd) "Failed to save round data" /\
   fail_loud (saveTournamentStats id st) "Failed to save tournament stats") /\
  (rethrows (saveTournamentConfig c) "Failed to save tournament config" /\
   rethrows (deleteTournamentConfig id) "Failed to delete tournament config" /\
   rethrows (saveUserRoll id uid r) "Failed to save user roll" /\
   rethrows (deleteAllUserRolls id) "Failed to delete user rolls" /\
   rethrows (saveRoundData id n rd) "Failed to save round data" /\
   rethrows (saveTournamentStats id st) "Failed to save tournament stats") /\
  (fail_soft (getTournamentConfig id) None "Failed to get tournament config" /\
   fail_soft (getUserRoll id uid) None "Failed to get user roll" /\
   fail_soft (getAllUserRolls id) [] "Failed to get all user rolls" /\
   fail_soft (getRoundData id n) None "Failed to get round data" /\
   fail_soft (getAllRoundData id) [] "Failed to get all round data" /\
   fail_soft (getTournamentStats id) None "Failed to get tournament stats" /\
   fail_soft listActiveTournaments [] "Failed to list active tournaments") /\
  (swallows (getTournamentConfig id) None "Failed to get tournament config" /\
   swallows (getUserRoll id uid) None "Failed to get user roll" /\
   swallows (getAllUserRolls id) [] "Failed to get all user rolls" /\
   swallows (getRoundData id n) None "Failed to get round data" /\
   swallows (getTournamentStats id) None "Failed to get tournament stats" /\
   swallows listActiveTournaments [] "Failed to list active tournaments") /\
  swallows_unless_off_type (getAllRoundData id) []
    "Failed to get all round data" /\
  (forall w, redisEnabled w = true -> rounds_typed w id ->
     exists rs w', getAllRoundData id w = (Ok rs, w')) /\
  (gives_up_at_any_command listActiveTournaments scanned_keys
     "Failed to list active tournaments" /\
   gives_up_at_any_command (getAllRoundData id) (fun w => round_keys w id)
     "Failed to get all round data") /\
  (needs_client (saveTournamentConfig c) /\
   needs_client (deleteTournamentConfig id) /\
   needs_client (saveUserRoll id uid r) /\
   needs_client (deleteAllUserRolls id) /\
   needs_client (saveRoundData id n rd) /\
   needs_client (saveTournamentStats id st) /\
   needs_client (getTournamentConfig id) /\
   needs_client (getUserRoll id uid) /\
   needs_client (getAllUserRolls id) /\
   needs_client (getRoundData id n) /\
   needs_client (getAllRoundData id) /\
   needs_client (getTournamentStats id) /\
   needs_client listActiveTournaments).
Proof.
  split; [apply savers_fail_loud|].
  split; [apply savers_rethrow|].
  split; [apply getters_fail_soft|].
  split; [apply getters_swallow|].
  split; [apply getAllRoundData_swallows|].
  split; [intros w; apply getAllRoundData_typed|].
  split; [apply readers_give_up|].
  apply all_need_client.
Qed.

(** ** Reading all the rolls *)

Lemma parse_all_Some ts ds :
  parse_all ts = Some ds <-> Forall2 (fun t d => JSON_parse_text t = Ok d) ts ds.
Proof.
  revert ds. induction ts as [|t ts IH]; intros ds; simpl.
  - split; [intros E; inversion E; constructor | intros F; inversion F; reflexivity].
  - destruct (JSON_parse_text t) as [d|e] eqn:Et.
    + destruct (parse_all ts) as [ds'|] eqn:Ep.
      * split.
        -- intros E; inversion E; subst. constructor; [exact Et|]. apply IH; reflexivity.
        -- intros F; inversion F; subst.
           assert (d = y) by congruence. subst y.
           f_equal. f_equal. apply (inj Some). apply IH. assumption.
      * split; [discriminate|].
        intros F; inversion F; subst.
        match goal with H : Forall2 _ ts _ |- _ => apply IH in H; discriminate end.
    + split; [discriminate|]. intros F; inversion F; subst. congruence.
Qed.

Lemma parse_all_None ts :
  Exists (fun t => exists e, JSON_parse_text t = Throw e) ts -> parse_all ts = None.
Proof.
  induction 1 as [t ts [e E]|t ts _ IH]; simpl.
  - rewrite E. reflexivity.
  - rewrite IH. destruct (JSON_parse_text t); reflexivity.
Qed.

(** C5 (amended).  [getAllUserRolls] returns every entry of the roll map
    when every entry deserializes; when one entry fails to deserialize, the
    whole read is given up: the failure is logged once and the result is the
    empty list. *)
Theorem C5_one_bad_entry_empties_the_read id w h :
  healthy w ->
  kv w !! (TOURNAMENT_ROLLS_PREFIX +:+ id) = Some (RHash h) ->
  (forall ds,
     Forall2 (fun t d => JSON_parse_text t = Ok d) (map snd h) ds ->
     exists w', getAllUserRolls id w = (Ok ds, w') /\ length ds = length h) /\
  (Exists (fun t => exists e, JSON_parse_text t = Throw e) (map snd h) ->
   exists w',
     getAllUserRolls id w = (Ok [], w') /\
     head (trace w') = Some (Log LError "Failed to get all user rolls")).
Proof.
  intros [He Hf] Hk.
  assert (E : getAllUserRolls id w
    = match parse_all (map snd h) with
      | Some ds => (Ok ds, push (CmdHgetall (TOURNAMENT_ROLLS_PREFIX +:+ id)) w)
      | None => (Ok [], push (Log LError "Failed to get all user rolls")
                          (push (CmdHgetall (TOURNAMENT_ROLLS_PREFIX +:+ id)) w))
      end).
  { unfold getAllUserRolls.
    rewrite (bind_Ok _ _ _ _ _ (requireRedisClient_ok w He)).
    unfold try_catch, client_hgetall, bind.
    rewrite (send_ok _ w Hf). simpl. rewrite Hk. rewrite parse_each_run.
    destruct (parse_all (map snd h)); reflexivity. }
  split.
  - intros ds F. pose proof F as F'. apply parse_all_Some in F. rewrite F in E.
    eexists; split; [exact E|].
    apply Forall2_length in F'. rewrite length_map in F'. symmetry; exact F'.
  - intros X. rewrite (parse_all_None _ X) in E.
    eexists; split; [exact E|reflexivity].
Qed.

(** ** The storage facade *)

Lemma setRedis_spec key value ttl w :
  exists evs w1,
    setRedis key value ttl w = (Ok (cache_ok w), w1) /\
    kv w1 = (if cache_ok w then <[key := RString value]> (kv w) else kv w) /\
    disk w1 = disk w /\ diskFaults w1 = diskFaults w /\
    now w1 = now w /\ later w1 = later w /\
    trace w1 = evs ++ cache_event key value ttl w :: trace w /\
    forallb (fun e => negb (is_file_write e)) evs = true.
Proof.
  destruct w as [en fl m df d nw lt rnd tr]. unfold cache_ok, cache_event. simpl.
  destruct en; [|exists []; eexists; cbn; repeat split; reflexivity].
  destruct ttl as [t|]; [destruct (Z.eqb_spec t 0) as [->|N]|];
    destruct fl as [|[] fl]; unfold setRedis; cbn;
    try rewrite (proj2 (Z.eqb_neq _ _) N); cbn;
    (exists [] + exists [Log LError "Failed to set Redis key"]);
    eexists; repeat split; reflexivity.
Qed.

Lemma writeDisk_spec path value w :
  exists evs w2,
    writeDisk path value w = (Ok (disk_ok w), w2) /\
    disk w2 = (if disk_ok w then <[path := [value]]> (disk w) else disk w) /\
    kv w2 = kv w /\ diskFaults w2 = drop 2 (diskFaults w) /\
    now w2 = now w /\ later w2 = later w /\
    trace w2 = evs ++ trace w /\
    In (FsWriteFile path value) evs.
Proof.
  destruct w as [en fl m df d nw lt rnd tr]. unfold disk_ok. simpl.
  destruct df as [|[] [|[] df]]; unfold writeDisk; cbn;
    (eexists [_; _; _] + eexists [_; _; _; _]); eexists;
    (split; [reflexivity|]); cbn;
    do 6 (split; [reflexivity|]); simpl; auto 8.
Qed.

Lemma no_file_write_in evs e :
  forallb (fun e => negb (is_file_write e)) evs = true ->
  is_file_write e = true -> ~ In e evs.
Proof.
  intros F W I. rewrite forallb_forall in F. specialize (F e I).
  rewrite W in F. discriminate.
Qed.

Lemma storeData_spec key value options w :
  exists evs w',
    storeData key value options w
    = (Ok (cache_ok w || disk_attempted options w && disk_ok w), w') /\
    kv w' = (if cache_ok w then <[key := RString value]> (kv w) else kv w) /\
    disk w' = (if disk_attempted options w && disk_ok w
               then <[cachePath key := [value]]> (disk w) else disk w) /\
    diskFaults w' = (if disk_attempted options w then drop 2 (diskFaults w)
                     else diskFaults w) /\
    now w' = now w /\ later w' = later w /\
    trace w' = evs ++ cache_event key value (opt_ttl options) w :: trace w /\
    (In (FsWriteFile (cachePath key) value) evs <-> disk_attempted options w = true).
Proof.
  destruct (setRedis_spec key value (opt_ttl options) w)
    as (evs1 & w1 & E1 & K1 & D1 & F1 & N1 & L1 & T1 & Q1).
  unfold storeData, disk_attempted. rewrite (bind_Ok _ _ _ _ _ E1).
  destruct (default false (opt_persistToDisk options) || negb (cache_ok w)) eqn:A.
  - destruct (writeDisk_spec (cachePath key) value w1)
      as (evs2 & w2 & E2 & D2 & K2 & F2 & N2 & L2 & T2 & I2).
    assert (Ok1 : disk_ok w1 = disk_ok w) by (unfold disk_ok; rewrite F1; reflexivity).
    rewrite Ok1 in E2, D2. rewrite (bind_Ok _ _ _ _ _ E2).
    assert (In2 : forall pre, In (FsWriteFile (cachePath key) value)
                                 (pre ++ evs2 ++ evs1))
      by (intros pre; apply in_or_app; right; apply in_or_app; left; exact I2).
    destruct (cache_ok w) eqn:C, (disk_ok w) eqn:Dk; cbn [negb andb orb];
      [exists ([] ++ evs2 ++ evs1), w2
      |exists ([] ++ evs2 ++ evs1), w2
      |exists ([] ++ evs2 ++ evs1), w2
      |exists ([Log LError "Failed to store data in both Redis and disk"]
               ++ evs2 ++ evs1),
              (push (Log LError "Failed to store data in both Redis and disk") w2)];
      (split; [reflexivity|]);
      cbn [kv disk diskFaults now later trace push];
      (split; [congruence|]); (split; [congruence|]); (split; [congruence|]);
      (split; [congruence|]); (split; [congruence|]);
      (split; [rewrite T2, T1; cbn [app]; rewrite <- ?List.app_assoc; reflexivity|]);
      (split; [reflexivity | intros _; apply In2]).
  - apply orb_false_iff in A. destruct A as [_ A].
    apply negb_false_iff in A. rewrite A in *. cbn [negb andb orb].
    exists evs1, w1. split; [reflexivity|].
    repeat split; auto.
    + intros I. exfalso.
      exact (no_file_write_in evs1 (FsWriteFile (cachePath key) value) Q1 eq_refl I).
    + discriminate.
Qed.

(** C8.  [storeData] writes to the cache tier first; it writes to the disk
    tier as well exactly when [persistToDisk] is set or the cache write
    failed; it answers true when one of the writes it made succeeded and
    false when both failed; it always returns, never throws.  With no cache
    client and [persistToDisk] set, a successful disk write makes it answer
    true. *)
Theorem C8_storeData_cache_then_disk key value options w :
  exists evs b w',
    storeData key value options w = (Ok b, w') /\
    trace w' = evs ++ cache_event key value (opt_ttl options) w :: trace w /\
    (In (FsWriteFile (cachePath key) value) evs
     <-> default false (opt_persistToDisk options) = true \/ cache_ok w = false) /\
    b = (cache_ok w || disk_attempted options w && disk_ok w) /\
    (b = false <-> cache_ok w = false /\ disk_ok w = false) /\
    kv w' = (if cache_ok w then <[key := RString value]> (kv w) else kv w) /\
    disk w' = (if disk_attempted options w && disk_ok w
               then <[cachePath key := [value]]> (disk w) else disk w) /\
    (redisEnabled w = false -> opt_persistToDisk options = Some true ->
     disk_ok w = true ->
     b = true /\ disk w' !! cachePath key = Some [value]).
Proof.
  destruct (storeData_spec key value options w)
    as (evs & w' & E & K & D & _ & _ & _ & T & I).
  exists evs, (cache_ok w || disk_attempted options w && disk_ok w), w'.
  split; [exact E|]. split; [exact T|].
  split.
  { rewrite I. unfold disk_attempted.
    destruct (default false (opt_persistToDisk options)), (cache_ok w);
      simpl; intuition congruence. }
  split; [reflexivity|].
  split.
  { unfold disk_attempted.
    destruct (default false (opt_persistToDisk options)), (cache_ok w),
      (disk_ok w); simpl; intuition congruence. }
  split; [exact K|]. split; [exact D|].
  intros Hoff Hp Hd. unfold disk_attempted, cache_ok in *.
  rewrite Hoff, Hp, Hd in *. simpl in *. split; [reflexivity|].
  rewrite D. apply lookup_insert_eq.
Qed.

Lemma appendDisk_spec path data w :
  exists b w',
    appendDisk path data w = (Ok b, w') /\ kv w' = kv w /\
    forall p, p <> path -> disk w' !! p = disk w !! p.
Proof.
  destruct w as [en fl m df d nw lt rnd tr].
  destruct df as [|[] [|[] df]]; unfold appendDisk; cbn;
    eexists _, _; (split; [reflexivity|]); cbn;
    (split; [reflexivity|]); intros p N;
    try reflexivity; rewrite lookup_insert_ne by congruence; reflexivity.
Qed.

Lemma new_Date_run w : new_Date w = (Ok (now w), tick w).
Proof. reflexivity. Qed.

Lemma disk_tick w : disk (tick w) = disk w.
Proof. unfold tick, new_Date; simpl; destruct (later w); reflexivity. Qed.

Lemma logEvent_spec logType event w :
  exists b w',
    logEvent logType event w = (Ok b, w') /\ kv w' = kv w /\
    forall key, disk w' !! cachePath key = disk w !! cachePath key.
Proof.
  unfold logEvent.
  rewrite (bind_Ok _ _ _ _ _ (new_Date_run _)).
  rewrite (bind_Ok _ _ _ _ _ (new_Date_run _)).
  match goal with
  | |- context [appendDisk ?p ?d ?w0] =>
      destruct (appendDisk_spec p d w0) as (b & w' & E & K & D)
  end.
  exists b, w'. split; [exact E|].
  split; [rewrite K; autorewrite with world_rw; reflexivity|].
  intros key. rewrite D, !disk_tick; [reflexivity|].
  unfold cachePath. intros H. cbv [String.app] in H. discriminate H.
Qed.

(** C10.  [createGame] builds a fresh state (status pending, no players,
    [data = initialData]) and hands it to the storage without looking at
    what the slot of [gameId] holds: where a tier accepts the write, the slot
    holds the fresh state afterwards, whatever it held before.  It answers
    true exactly when the storage write succeeded, that is, when the cache
    write or the disk write did. *)
Theorem C10_createGame_overwrites gameId type initialData w :
  let state := mkGame gameId type Pending [] None None initialData in
  exists w',
    createGame gameId type initialData w = (Ok (cache_ok w || disk_ok w), w') /\
    fst (storeGameState gameId state w) = Ok (cache_ok w || disk_ok w) /\
    (cache_ok w = true ->
     kv w' !! gameKey gameId = Some (RString (Json (DGame state)))) /\
    (cache_ok w = false -> kv w' = kv w) /\
    (disk_ok w = true ->
     disk w' !! cachePath (gameKey gameId) = Some [Json (DGame state)]) /\
    (disk_ok w = false ->
     disk w' !! cachePath (gameKey gameId)
     = disk w !! cachePath (gameKey gameId)).
Proof.
  intros state.
  destruct (storeData_spec (gameKey gameId) (Json (DGame state))
              (mkOptions (Some 86400) (Some true)) w)
    as (evs & w1 & E & K & D & _ & _ & _ & _ & _).
  assert (A : disk_attempted (mkOptions (Some 86400) (Some true)) w = true)
    by reflexivity.
  rewrite A in E, D. cbn [andb] in E, D.
  assert (S : storeGameState gameId state w = (Ok (cache_ok w || disk_ok w), w1)).
  { unfold storeGameState, storeJSON, JSON_stringify. apply try_Ok. exact E. }
  assert (R : exists w',
    createGame gameId type initialData w = (Ok (cache_ok w || disk_ok w), w')
    /\ kv w' = kv w1
    /\ disk w' !! cachePath (gameKey gameId) = disk w1 !! cachePath (gameKey gameId)).
  { unfold createGame. fold state. rewrite (bind_Ok _ _ _ _ _ S).
    destruct (cache_ok w || disk_ok w).
    - match goal with
      | |- context [logEvent ?t ?ev] =>
          destruct (logEvent_spec t ev w1) as (b & w2 & El & Kl & Dl)
      end.
      rewrite bind_assoc, (bind_Ok _ _ _ _ _ El).
      eexists. split; [reflexivity|]. split; [exact Kl|apply Dl].
    - eexists. split; [reflexivity|]. split; reflexivity. }
  destruct R as (w' & Ec & Kc & Dc).
  exists w'. split; [exact Ec|]. split; [rewrite S; reflexivity|].
  rewrite Kc, Dc, K, D.
  split; [intros ->; apply lookup_insert_eq|].
  split; [intros ->; reflexivity|].
  split; [intros ->; apply lookup_insert_eq|].
  intros ->; reflexivity.
Qed.

(** ** Listing the tournaments *)

Lemma get_and_parse_each_run m keys : forall w,
  healthy w -> kv w = m ->
  Forall (fun k => is_Some (string_at m k)) keys ->
  exists w',
    get_and_parse_each keys w
    = (match parse_all (texts_at m keys) with
       | Some ds => Ok ds
       | None => Throw SyntaxError
       end, w').
Proof.
  induction keys as [|k keys IH]; intros w Hw Hk F.
  - eexists; reflexivity.
  - inversion F as [|? ? [t Ht] F']; subst. simpl.
    unfold client_get. rewrite bind_assoc.
    rewrite (bind_Ok _ _ _ _ _ (send_ok _ w (proj2 Hw))).
    unfold bind at 1. cbn [kv push].
    unfold texts_at. cbn [omap]. fold (texts_at (kv w) keys).
    unfold string_at in Ht |- *.
    destruct (kv w !! k) as [[t0|h]|]; try discriminate. inversion Ht; subst t0.
    destruct (truthy t) eqn:Tr.
    + assert (Hw1 : healthy (push (CmdGet k) w)) by auto with world.
      destruct (IH (push (CmdGet k) w) Hw1 eq_refl F') as [w' E].
      cbn [parse_all]. unfold bind at 1, JSON_parse at 1.
      destruct (JSON_parse_text t) as [d|e] eqn:Ep.
      * unfold bind. rewrite E.
        destruct (parse_all (texts_at (kv w) keys)); eexists; reflexivity.
      * assert (e = SyntaxError).
        { clear -Ep. induction t; simpl in Ep; try congruence; auto. }
        subst e. eexists; reflexivity.
    + assert (Hw1 : healthy (push (CmdGet k) w)) by auto with world.
      destruct (IH (push (CmdGet k) w) Hw1 eq_refl F') as [w' E].
      exists w'. exact E.
Qed.

(** C7 (amended).  Over a store whose keys under [tournament:] are all
    configuration keys holding strings, [listActiveTournaments] returns the
    parsed record of every such key with a non-empty value, in scan order,
    when all of them deserialize, and the empty list as soon as one of them
    fails to deserialize. *)
Theorem C7_listing_of_config_keys w :
  healthy w ->
  only_configs w = true ->
  fst (listActiveTournaments w)
  = Ok (default [] (parse_all (texts_at (kv w) (scanned_keys w)))).
Proof.
  intros Hw Hc. unfold listActiveTournaments.
  rewrite (bind_Ok _ _ _ _ _ (requireRedisClient_ok w (proj1 Hw))).
  unfold try_catch, client_keys. rewrite bind_assoc.
  rewrite (bind_Ok _ _ _ _ _ (send_ok _ w (proj2 Hw))).
  unfold bind at 1.
  change (filter _ (map fst (map_to_list
            (kv (push (CmdKeys (TOURNAMENT_PREFIX +:+ "*")) w)))))
    with (scanned_keys w).
  assert (F : Forall (fun k => is_Some (string_at (kv w) k)) (scanned_keys w)).
  { unfold only_configs in Hc. rewrite forallb_forall in Hc.
    apply Forall_forall. intros k Hk.
    apply list_elem_of_In in Hk. specialize (Hc k Hk).
    apply andb_true_iff in Hc. destruct Hc as [_ Hc].
    apply bool_decide_eq_true in Hc. exact Hc. }
  destruct (get_and_parse_each_run (kv w) (scanned_keys w)
              (push (CmdKeys (TOURNAMENT_PREFIX +:+ "*")) w)
              ltac:(auto with world) eq_refl F) as [w' E].
  rewrite E. destruct (parse_all (texts_at (kv w) (scanned_keys w))); reflexivity.
Qed.

(** * Further properties *)

(** ** Round trips of the tournament store *)

Lemma saveTournamentStats_spec id st w :
  healthy w ->
  exists evs,
    saveTournamentStats id st w
    = (Ok tt,
       pushes evs (set_kv (insert (TOURNAMENT_STATS_PREFIX +:+ id)
                                  (RString (Json (DStats st)))) w)).
Proof.
  intros [He Hf]. unfold saveTournamentStats.
  rewrite (bind_Ok _ _ _ _ _ (requireRedisClient_ok w He)).
  unfold try_catch, client_set, bind.
  rewrite (send_ok _ w Hf). simpl.
  eexists [_; _]; reflexivity.
Qed.

Lemma getTournamentStats_spec id w :
  healthy w ->
  exists evs,
    getTournamentStats id w
    = (Ok (stored_doc (kv w) (TOURNAMENT_STATS_PREFIX +:+ id)), pushes evs w).
Proof. apply fetch_string_spec. Qed.

Lemma stored_field_insert_eq m key uid d h :
  stored_field (<[key := RHash (hash_set uid (Json d) h)]> m) key uid = Some d.
Proof.
  unfold stored_field. rewrite lookup_insert_eq, hash_get_set_eq. reflexivity.
Qed.

(** X1.  In a healthy store, what a save operation of the tournament store
    wrote is what the matching get operation reads next: configuration,
    round data and statistics always; a roll whenever the rolls key does not
    hold a string (in which case [saveUserRoll] throws WRONGTYPE and stores
    nothing). *)
Theorem tournament_store_round_trips c id uid r n rd st w :
  healthy w ->
  (exists w1 w2,
     saveTournamentConfig c w = (Ok tt, w1) /\
     getTournamentConfig (cfg_id c) w1 = (Ok (Some (DConfig c)), w2)) /\
  (exists w1 w2,
     saveRoundData id n rd w = (Ok tt, w1) /\
     getRoundData id n w1 = (Ok (Some (DRound rd)), w2)) /\
  (exists w1 w2,
     saveTournamentStats id st w = (Ok tt, w1) /\
     getTournamentStats id w1 = (Ok (Some (DStats st)), w2)) /\
  (hash_at (kv w) (TOURNAMENT_ROLLS_PREFIX +:+ id) <> None ->
   exists w1 w2,
     saveUserRoll id uid r w = (Ok tt, w1) /\
     getUserRoll id uid w1 = (Ok (Some (DRoll r)), w2)) /\
  (hash_at (kv w) (TOURNAMENT_ROLLS_PREFIX +:+ id) = None ->
   exists w1, saveUserRoll id uid r w = (Throw WrongType, w1) /\ kv w1 = kv w).
Proof.
  intros Hw. repeat split.
  - destruct (saveTournamentConfig_spec c w Hw) as [ev E].
    match type of E with _ = (_, ?w0) =>
      assert (H1 : healthy w0) by auto with world;
      destruct (getTournamentConfig_spec (cfg_id c) w0 H1) as [ev' E'] end.
    autorewrite with world_rw in E'. rewrite stored_doc_insert_eq in E'.
    eexists _, _. split; [exact E|exact E'].
  - destruct (saveRoundData_spec id n rd w Hw) as [ev E].
    match type of E with _ = (_, ?w0) =>
      assert (H1 : healthy w0) by auto with world;
      destruct (getRoundData_spec id n w0 H1) as [ev' E'] end.
    autorewrite with world_rw in E'. rewrite stored_doc_insert_eq in E'.
    eexists _, _. split; [exact E|exact E'].
  - destruct (saveTournamentStats_spec id st w Hw) as [ev E].
    match type of E with _ = (_, ?w0) =>
      assert (H1 : healthy w0) by auto with world;
      destruct (getTournamentStats_spec id w0 H1) as [ev' E'] end.
    autorewrite with world_rw in E'. rewrite stored_doc_insert_eq in E'.
    eexists _, _. split; [exact E|exact E'].
  - intros Hh. destruct (saveUserRoll_spec id uid r w Hw) as [ev E]. cbv zeta in E.
    destruct (hash_at (kv w) (TOURNAMENT_ROLLS_PREFIX +:+ id)) as [h|]; [|congruence].
    match type of E with _ = (_, ?w0) =>
      assert (H1 : healthy w0) by auto with world;
      destruct (getUserRoll_spec id uid w0 H1) as [ev' E'] end.
    autorewrite with world_rw in E'. rewrite stored_field_insert_eq in E'.
    eexists _, _. split; [exact E|exact E'].
  - intros Hh. destruct (saveUserRoll_spec id uid r w Hw) as [ev E]. cbv zeta in E.
    rewrite Hh in E. eexists. split; [exact E|]. autorewrite with world_rw. reflexivity.
Qed.

(** ** Creating a tournament *)

Lemma createTournament_run name maxRoll rollLimit hours channel w :
  healthy w ->
  let t := ms (now w) in
  let c := mkConfig ("tournament-" +:+ pretty t) name maxRoll rollLimit
                    (t + hours * 60 * 60 * 1000) 1 ACTIVE None channel t t in
  ends (createTournament name maxRoll rollLimit hours channel) w (Ok c)
       (<[roundKey (cfg_id c) 1 := RString (Json (DRound (mkRound 1 t None [] [] None)))]>
          (<[TOURNAMENT_PREFIX +:+ cfg_id c := RString (Json (DConfig c))]> (kv w)))
  /\ now (snd (createTournament name maxRoll rollLimit hours channel w)) = now (tick w)
  /\ later (snd (createTournament name maxRoll rollLimit hours channel w)) = later (tick w).
Proof.
  intros Hw t c. unfold ends, createTournament.
  rewrite (bind_Ok _ _ _ _ _ (Date_now_run _)). fold t. fold c.
  assert (H1 : healthy (tick w)) by auto with world.
  destruct (saveTournamentConfig_spec c _ H1) as [ev1 E1].
  rewrite (bind_Ok _ _ _ _ _ E1).
  match goal with |- context [bind (saveRoundData ?i ?n ?r) _ ?w0] =>
    assert (H2 : healthy w0) by auto 10 with world;
    destruct (saveRoundData_spec i n r w0 H2) as [ev2 E2];
    rewrite (bind_Ok _ _ _ _ _ E2) end.
  unfold logger, bind, ret. cbn [snd].
  split; [|split; cbn [snd];
             repeat (rewrite ?now_pushes, ?later_pushes; cbn [now later set_kv push]);
             reflexivity].
  eexists. split; [reflexivity|]. autorewrite with world_rw.
  split; [reflexivity|auto 12 with world].
Qed.

(** X2.  In a healthy store [createTournament] returns an active
    configuration in round 1 whose id is ["tournament-" ++ now] and whose
    deadline is [now + hours * 3600000]; afterwards the configuration and an
    empty record of round 1 can be read back under that id.  The numbers are
    taken as given, and a rolls hash already under that id is left alone. *)
Theorem createTournament_opens_round_one name maxRoll rollLimit hours channel w :
  healthy w ->
  exists c w',
    createTournament name maxRoll rollLimit hours channel w = (Ok c, w') /\
    healthy w' /\
    cfg_id c = "tournament-" +:+ pretty (ms (now w)) /\
    cfg_status c = ACTIVE /\ cfg_currentRound c = 1 /\
    cfg_maxRoll c = maxRoll /\ cfg_rollLimit c = rollLimit /\
    cfg_deadline c = ms (now w) + hours * 3600000 /\
    stored_config w' (cfg_id c) = Some c /\
    stored_doc (kv w') (roundKey (cfg_id c) 1)
    = Some (DRound (mkRound 1 (ms (now w)) None [] [] None)) /\
    kv w' !! (TOURNAMENT_ROLLS_PREFIX +:+ cfg_id c)
    = kv w !! (TOURNAMENT_ROLLS_PREFIX +:+ cfg_id c).
Proof.
  intros Hw.
  destruct (createTournament_run name maxRoll rollLimit hours channel w Hw)
    as [(w' & E & K & Hh) _].
  eexists _, w'. split; [exact E|]. split; [exact Hh|].
  cbn [cfg_id cfg_status cfg_currentRound cfg_maxRoll cfg_rollLimit cfg_deadline].
  do 5 (split; [reflexivity|]). split; [lia|].
  unfold stored_config. rewrite K. cbn [cfg_id]. split; [|split].
  - rewrite stored_doc_insert_ne by apply round_key_not_config_key.
    rewrite stored_doc_insert_eq. reflexivity.
  - apply stored_doc_insert_eq.
  - rewrite lookup_insert_ne by apply round_key_not_rolls_key.
    rewrite lookup_insert_ne by apply config_key_not_rolls_key. reflexivity.
Qed.

(** X3.  The id of a tournament is the clock reading and nothing else: two
    creations that read the same millisecond get the same id, and the
    configuration of the second replaces that of the first. *)
Theorem createTournament_same_millisecond
    name1 maxRoll1 rollLimit1 hours1 channel1
    name2 maxRoll2 rollLimit2 hours2 channel2 w :
  healthy w ->
  ms (now (tick w)) = ms (now w) ->
  exists c1 w1 c2 w2,
    createTournament name1 maxRoll1 rollLimit1 hours1 channel1 w = (Ok c1, w1) /\
    createTournament name2 maxRoll2 rollLimit2 hours2 channel2 w1 = (Ok c2, w2) /\
    cfg_name c1 = name1 /\ cfg_name c2 = name2 /\
    cfg_id c2 = cfg_id c1 /\
    stored_config w2 (cfg_id c1) = Some c2.
Proof.
  intros Hw Hsame.
  destruct (createTournament_run name1 maxRoll1 rollLimit1 hours1 channel1 w Hw)
    as ((w1 & E1 & K1 & H1) & N1 & _).
  rewrite E1 in N1. cbn [snd] in N1.
  destruct (createTournament_run name2 maxRoll2 rollLimit2 hours2 channel2 w1 H1)
    as ((w2 & E2 & K2 & H2) & _).
  eexists _, w1, _, w2. split; [exact E1|]. split; [exact E2|].
  cbn [cfg_name cfg_id]. do 2 (split; [reflexivity|]).
  rewrite N1, Hsame. split; [reflexivity|].
  unfold stored_config. rewrite K2. cbn [cfg_id]. rewrite N1, Hsame.
  rewrite stored_doc_insert_ne by apply round_key_not_config_key.
  rewrite stored_doc_insert_eq. reflexivity.
Qed.

(** ** The leaderboard *)

Lemma slice_prefix {A} (l : list A) (k : Z) :
  slice 0 (Some k) l
  = take (Z.to_nat (if k <? 0 then Z.of_nat (length l) + k else k)) l.
Proof.
  unfold slice. cbn [Z.ltb Z.compare]. rewrite (Z.min_l 0) by lia.
  change (drop (Z.to_nat 0) l) with l.
  destruct (Z.ltb_spec k 0) as [L|L].
  - f_equal. lia.
  - destruct (Z.le_gt_cases k (Z.of_nat (length l))).
    + f_equal. lia.
    + rewrite !take_ge by lia. reflexivity.
Qed.

Lemma getLeaderboard_run id limit w rs :
  healthy w ->
  recorded_rolls w id = Some rs ->
  ends (getLeaderboard id limit) w
       (Ok (slice 0 (Some limit) (Array_sort by_roll_desc rs))) (kv w).
Proof.
  intros Hw Hr. unfold ends, getLeaderboard.
  exec_with (getAllUserRolls_spec id).
  unfold recorded_rolls in Hr.
  match goal with
  | |- context [bind (as_rolls ?ds) _ ?w0] =>
      assert (Ea : as_rolls ds w0 = (Ok rs, w0))
        by (rewrite as_rolls_run, Hr; reflexivity);
      rewrite (bind_Ok _ _ _ _ _ Ea); clear Ea
  end.
  finish_ends.
Qed.

(** X4.  [getLeaderboard] reads, and changes nothing.  With [limit >= 0] it
    returns the first [limit] entries of the rolls sorted best first (all of
    them when there are fewer); a negative [limit] is handed to [slice], which
    then cuts that many entries off the end of the ranking.  No entry left
    out has a higher roll than an entry listed. *)
Theorem getLeaderboard_ranking id limit w rs :
  healthy w ->
  recorded_rolls w id = Some rs ->
  let ranking := Array_sort by_roll_desc rs in
  let k := Z.to_nat (if limit <? 0 then Z.of_nat (length rs) + limit else limit) in
  exists w',
    getLeaderboard id limit w = (Ok (take k ranking), w') /\
    kv w' = kv w /\
    Permutation ranking rs /\
    StronglySorted desc (take k ranking) /\
    length (take k ranking) = Nat.min k (length rs) /\
    (forall x y, x ∈ take k ranking -> y ∈ drop k ranking ->
                 ur_roll y <= ur_roll x).
Proof.
  intros Hw Hr ranking k.
  destruct (getLeaderboard_run id limit w rs Hw Hr) as (w' & E & K & _).
  rewrite slice_prefix, Array_sort_length in E. fold ranking k in E.
  exists w'. split; [exact E|]. split; [exact K|].
  split; [apply Array_sort_perm|].
  assert (S : StronglySorted desc ranking) by apply sort_by_roll_sorted.
  split.
  - rewrite <- (take_drop k ranking) in S.
    exact (StronglySorted_app_1_l _ _ _ S).
  - split.
    + rewrite length_take. unfold ranking. rewrite Array_sort_length. reflexivity.
    + intros x y Hx Hy. exact (sorted_tail_below_head ranking k y x S Hy Hx).
Qed.

(** ** Statistics *)

Lemma foldl_sum (f : UserRoll -> Z) l : forall a,
  foldl (fun sum roll => sum + f roll) a l = a + foldr Z.add 0 (map f l).
Proof.
  induction l as [|x l IH]; intros a; simpl; [lia|]. rewrite IH. lia.
Qed.

Lemma sum_between (f : UserRoll -> Z) l lo hi :
  (forall r, r ∈ l -> lo <= f r <= hi) ->
  Z.of_nat (length l) * lo <= foldr Z.add 0 (map f l) <= Z.of_nat (length l) * hi.
Proof.
  induction l as [|x l IH]; intros H; simpl length; simpl foldr; [lia|].
  assert (Hx : lo <= f x <= hi) by (apply H; left).
  assert (Hl : forall r, r ∈ l -> lo <= f r <= hi) by (intros r Hr; apply H; right; exact Hr).
  specialize (IH Hl). lia.
Qed.

Lemma round2_between a b x :
  (inject_Z a <= x)%Q -> (x <= inject_Z b)%Q ->
  (inject_Z a <= round2 x)%Q /\ (round2 x <= inject_Z b)%Q.
Proof.
  intros Ha Hb. unfold round2.
  set (y := (x * 100 + (1 # 2))%Q).
  assert (Y1 : (inject_Z a * 100 + (1 # 2) <= y)%Q) by (unfold y; lra).
  assert (Y2 : (y <= inject_Z b * 100 + (1 # 2))%Q) by (unfold y; lra).
  clearbody y.
  assert (L : 100 * a <= Qfloor y).
  { rewrite <- (Qfloor_Z (100 * a)). apply Qfloor_resp_le.
    rewrite inject_Z_mult. change (inject_Z 100) with 100%Q. lra. }
  assert (U : Qfloor y <= 100 * b).
  { assert (F : (inject_Z (Qfloor y) <= y)%Q) by apply Qfloor_le.
    assert (G : (inject_Z (Qfloor y) < inject_Z (100 * b + 1))%Q).
    { rewrite inject_Z_plus, inject_Z_mult.
      change (inject_Z 100) with 100%Q. change (inject_Z 1) with 1%Q. lra. }
    rewrite <- Zlt_Qlt in G. lia. }
  split.
  - apply Qle_shift_div_l; [reflexivity|].
    change 100%Q with (inject_Z 100). rewrite <- inject_Z_mult, <- Zle_Qle. lia.
  - apply Qle_shift_div_r; [reflexivity|].
    change 100%Q with (inject_Z 100). rewrite <- inject_Z_mult, <- Zle_Qle. lia.
Qed.

Lemma calculateStats_run id w rs :
  healthy w ->
  recorded_rolls w id = Some rs ->
  rs <> [] ->
  let sorted := Array_sort by_roll_desc rs in
  let n := Z.of_nat (length rs) in
  let stats :=
    mkStats n n 0 (foldl (fun sum roll => sum + ur_rollsUsed roll) 0 rs)
            (round2 (inject_Z (foldl (fun sum roll => sum + ur_roll roll) 0 rs)
                     / inject_Z n))
            (index sorted 0) (index sorted (Z.of_nat (length sorted) - 1)) in
  ends (calculateStats id) w (Ok (Some stats))
       (<[TOURNAMENT_STATS_PREFIX +:+ id := RString (Json (DStats stats))]> (kv w)).
Proof.
  intros Hw Hr Hne sorted n stats. unfold ends, calculateStats.
  exec_with (getAllUserRolls_spec id).
  unfold recorded_rolls in Hr.
  match goal with
  | |- context [bind (as_rolls ?ds) _ ?w0] =>
      assert (Ea : as_rolls ds w0 = (Ok rs, w0))
        by (rewrite as_rolls_run, Hr; reflexivity);
      rewrite (bind_Ok _ _ _ _ _ Ea); clear Ea
  end.
  rewrite bool_decide_eq_false_2 by (destruct rs; [congruence|discriminate]).
  cbv zeta. fold sorted. fold n. fold stats.
  exec_with (saveTournamentStats_spec id stats).
  finish_ends.
Qed.

(** X5.  [calculateStats] in a healthy store.  Without recorded rolls it
    returns null and stores nothing.  Otherwise the statistics it returns are
    also what [getTournamentStats] reads afterwards; they count every
    recorded user as a participant and as active and nobody as eliminated;
    [totalRolls] is the sum of the users' [rollsUsed]; the highest and lowest
    rolls are recorded rolls that bound every recorded roll; and the average,
    rounded to two decimals, lies between the lowest and the highest roll. *)
Theorem calculateStats_summary id w rs :
  healthy w ->
  recorded_rolls w id = Some rs ->
  (rs = [] ->
   exists w', calculateStats id w = (Ok None, w') /\ kv w' = kv w) /\
  (rs <> [] ->
   exists st w' hi lo,
     calculateStats id w = (Ok (Some st), w') /\
     stored_doc (kv w') (TOURNAMENT_STATS_PREFIX +:+ id) = Some (DStats st) /\
     ts_totalParticipants st = Z.of_nat (length rs) /\
     ts_activeParticipants st = Z.of_nat (length rs) /\
     ts_eliminatedParticipants st = 0 /\
     ts_totalRolls st = foldr Z.add 0 (map ur_rollsUsed rs) /\
     ts_highestRoll st = Some hi /\ ts_lowestRoll st = Some lo /\
     hi ∈ rs /\ lo ∈ rs /\
     (forall r, r ∈ rs -> ur_roll lo <= ur_roll r <= ur_roll hi) /\
     (inject_Z (ur_roll lo) <= ts_averageRoll st)%Q /\
     (ts_averageRoll st <= inject_Z (ur_roll hi))%Q).
Proof.
  intros Hw Hr. split.
  - intros ->. unfold calculateStats.
    destruct (getAllUserRolls_spec id w Hw) as [ev E].
    rewrite (bind_Ok _ _ _ _ _ E). unfold recorded_rolls in Hr.
    assert (Ea : as_rolls (stored_rolls (kv w) (TOURNAMENT_ROLLS_PREFIX +:+ id))
                   (pushes ev w) = (Ok [], pushes ev w))
      by (rewrite as_rolls_run, Hr; reflexivity).
    rewrite (bind_Ok _ _ _ _ _ Ea). cbn.
    eexists. split; [reflexivity|]. apply kv_pushes.
  - intros Hne.
    destruct (calculateStats_run id w rs Hw Hr Hne) as (w' & E & K & _).
    destruct (sorted_extremes rs Hne) as (hi & lo & Ehi & Elo & Ihi & Ilo & B).
    cbv zeta in E, K, Ehi, Elo.
    eexists _, w', hi, lo. split; [exact E|].
    split; [rewrite K; apply stored_doc_insert_eq|].
    cbn [ts_totalParticipants ts_activeParticipants ts_eliminatedParticipants
         ts_totalRolls ts_highestRoll ts_lowestRoll ts_averageRoll].
    do 3 (split; [reflexivity|]).
    split; [rewrite foldl_sum; lia|].
    split; [exact Ehi|]. split; [exact Elo|].
    split; [exact Ihi|]. split; [exact Ilo|]. split; [exact B|].
    rewrite foldl_sum, Z.add_0_l.
    assert (Hn : 0 < Z.of_nat (length rs))
      by (destruct rs; [congruence|simpl length; lia]).
    assert (Hq : (0 < inject_Z (Z.of_nat (length rs)))%Q)
      by (rewrite <- (Zlt_Qlt 0); exact Hn).
    destruct (sum_between ur_roll rs (ur_roll lo) (ur_roll hi) B) as [S1 S2].
    apply round2_between.
    + apply Qle_shift_div_l; [exact Hq|].
      rewrite <- inject_Z_mult, <- Zle_Qle. lia.
    + apply Qle_shift_div_r; [exact Hq|].
      rewrite <- inject_Z_mult, <- Zle_Qle. lia.
Qed.

(** ** Ending a round: the other branches *)

Lemma endRound_no_rolls id pct w c :
  healthy w ->
  stored_config w id = Some c ->
  cfg_status c = ACTIVE ->
  stored_rolls (kv w) (TOURNAMENT_ROLLS_PREFIX +:+ id) = [] ->
  ends (endRound id pct) w
       (Ok (mkEndRoundResult false "No participants in this round" None)) (kv w).
Proof.
  intros Hw Hc Hs Hr. apply stored_config_doc in Hc.
  destruct (getTournamentConfig_spec id w Hw) as [ev1 E1].
  unfold ends, endRound.
  rewrite (bind_Ok _ _ _ _ _ E1), Hc. clear E1. red_now.
  rewrite Hs, bool_decide_eq_true_2 by reflexivity. cbn [negb].
  exec_with (getAllUserRolls_spec id). rewrite Hr.
  cbn [as_rolls]. rewrite bind_ret.
  rewrite bool_decide_eq_true_2 by reflexivity.
  finish_ends.
Qed.

(** X6.  [endRound] on an active tournament whose rolls key holds no hash
    (nothing, or a string), an empty hash, or a hash one of whose entries
    does not parse, answers "No participants in this round" and stores
    nothing: a single damaged entry hides every roll of the round. *)
Theorem endRound_without_readable_rolls id pct w c :
  healthy w ->
  stored_config w id = Some c ->
  cfg_status c = ACTIVE ->
  (forall h,
     kv w !! (TOURNAMENT_ROLLS_PREFIX +:+ id) = Some (RHash h) ->
     h = [] \/ Exists (fun t => exists e, JSON_parse_text t = Throw e) (map snd h)) ->
  exists w',
    endRound id pct w
    = (Ok (mkEndRoundResult false "No participants in this round" None), w') /\
    kv w' = kv w.
Proof.
  intros Hw Hc Hs Hh.
  destruct (endRound_no_rolls id pct w c Hw Hc Hs) as (w' & E & K & _).
  - unfold stored_rolls.
    destruct (kv w !! (TOURNAMENT_ROLLS_PREFIX +:+ id)) as [[t|h]|]; try reflexivity.
    destruct (Hh h eq_refl) as [->|Bad]; [reflexivity|].
    rewrite (parse_all_None _ Bad). reflexivity.
  - exists w'. split; assumption.
Qed.

Lemma slice_split {A} (l : list A) (k : Z) :
  0 <= k -> slice 0 (Some k) l ++ slice k None l = l.
Proof.
  intros Hk. rewrite slice_prefix.
  destruct (Z.ltb_spec k 0) as [L|L]; [lia|].
  destruct (Z.le_gt_cases k (Z.of_nat (length l))) as [H|H].
  - rewrite slice_tail by lia. apply take_drop.
  - unfold slice. destruct (Z.ltb_spec k 0) as [L'|L']; [lia|].
    rewrite Z.min_r by lia. rewrite Z.sub_diag. cbn [Z.max Z.to_nat take].
    rewrite take_ge by lia. rewrite take_0. apply app_nil_r.
Qed.

(** X7.  When more than one player remains after elimination, [endRound]
    keeps the tournament active and moves it to the next round: the stored
    configuration has [currentRound + 1], the record of the next round is
    opened with the survivors (the ranking without the eliminated) as
    participants, nobody eliminated and no end time, and the rolls of the
    round are cleared.  Survivors followed by eliminated are the ranked
    participants.  The number in the message, and in the test for a next
    round, is [Math.floor(n * (pct / 100))] as the doubles give it. *)
Theorem endRound_starts_next_round id pct w c rs :
  healthy w ->
  stored_config w id = Some c ->
  cfg_id c = id ->
  cfg_status c = ACTIVE ->
  recorded_rolls w id = Some rs ->
  rs <> [] ->
  round_slot_typed w id (cfg_currentRound c) ->
  let sorted := Array_sort by_roll_desc rs in
  let n := Z.of_nat (length rs) in
  let e := Qfloor (round_double (inject_Z n * round_double (pct / 100))) in
  1 < n - e ->
  exists res w' updatedAt startNext survivors gone,
    endRound id pct w = (Ok res, w') /\ healthy w' /\
    er_success res = true /\
    er_message res
    = "Round " +:+ pretty (cfg_currentRound c) +:+ " ended. " +:+ pretty e
      +:+ " players eliminated. Starting round "
      +:+ pretty (cfg_currentRound c + 1) +:+ "!" /\
    er_eliminated res = Some (map ur_userId gone) /\
    survivors ++ gone = sorted /\
    length survivors = Z.to_nat (Z.min (n - e) n) /\
    stored_config w' id
    = Some (mkConfig (cfg_id c) (cfg_name c) (cfg_maxRoll c) (cfg_rollLimit c)
              (cfg_deadline c) (cfg_currentRound c + 1) ACTIVE (cfg_messageId c)
              (cfg_channelId c) (cfg_createdAt c) updatedAt) /\
    stored_doc (kv w') (roundKey id (cfg_currentRound c + 1))
    = Some (DRound (mkRound (cfg_currentRound c + 1) startNext None
                      (map ur_userId survivors) [] None)) /\
    kv w' !! (TOURNAMENT_ROLLS_PREFIX +:+ id) = None /\
    recorded_rolls w' id = Some [].
Proof.
  intros Hw Hc Hid Hs Hr Hne Ht sorted n.
  change (Qfloor (round_double (inject_Z n * round_double (pct / 100))))
    with (eliminateCount n pct).
  intros e Hrem.
  assert (Hlen : length sorted = length rs) by apply Array_sort_length.
  destruct (endRound_run id pct w c rs Hw (stored_config_doc _ _ _ Hc) Hs Hr Hne Ht)
    as (startTime & endTime & updatedAt & top & Htop & Hrun).
  cbv zeta in Hrun. fold sorted in Hrun. rewrite Hlen in Hrun.
  fold n in Hrun. fold e in Hrun.
  destruct (Z.leb_spec (n - e) 1) as [L|L]; [lia|].
  destruct Hrun as (startNext & w' & E & K & Hh).
  assert (Hk : kv w' !! (TOURNAMENT_ROLLS_PREFIX +:+ id) = None).
  { rewrite K, Hid.
    rewrite lookup_insert_ne by apply round_key_not_rolls_key.
    rewrite lookup_insert_ne by apply config_key_not_rolls_key.
    apply lookup_delete_eq. }
  eexists _, w', updatedAt, startNext,
    (slice 0 (Some (n - e)) sorted), (slice (n - e) None sorted).
  split; [exact E|]. split; [exact Hh|].
  split; [reflexivity|].
  split.
  { unfold next_round_message.
    replace (cfg_currentRound c + 1 - 1) with (cfg_currentRound c) by lia.
    reflexivity. }
  split; [unfold eliminated; rewrite Hlen; reflexivity|].
  split; [apply slice_split; lia|].
  split.
  { unfold slice. rewrite Hlen. fold n.
    destruct (Z.ltb_spec 0 0) as [?|_]; [lia|].
    destruct (Z.ltb_spec (n - e) 0) as [?|_]; [lia|].
    rewrite (Z.min_l 0) by lia. change (drop (Z.to_nat 0) sorted) with sorted.
    rewrite length_take, Hlen. unfold n. lia. }
  split; [|split; [|split; [exact Hk|]]].
  - unfold stored_config. rewrite K, <- Hid.
    rewrite stored_doc_insert_ne
      by (intros E'; exact (round_key_not_config_key _ _ E')).
    rewrite stored_doc_insert_eq. unfold set_currentRound. rewrite Hs. reflexivity.
  - rewrite K. apply stored_doc_insert_eq.
  - unfold recorded_rolls, stored_rolls. rewrite Hk. reflexivity.
Qed.

(** X8.  A round cannot be ended twice in a row.  After a successful
    [endRound], a second [endRound] (with any percentage) fails and stores
    nothing: the tournament is either completed ("Tournament is not
    active") or in a fresh round without rolls ("No participants in this
    round"). *)
Theorem endRound_again_is_refused id pct pct' w c rs :
  healthy w ->
  stored_config w id = Some c ->
  cfg_id c = id ->
  cfg_status c = ACTIVE ->
  recorded_rolls w id = Some rs ->
  rs <> [] ->
  round_slot_typed w id (cfg_currentRound c) ->
  exists res w1 msg w2,
    endRound id pct w = (Ok res, w1) /\ er_success res = true /\
    endRound id pct' w1 = (Ok (mkEndRoundResult false msg None), w2) /\
    kv w2 = kv w1 /\
    (msg = "Tournament is not active" \/ msg = "No participants in this round").
Proof.
  intros Hw Hc Hid Hs Hr Hne Ht.
  destruct (endRound_run id pct w c rs Hw (stored_config_doc _ _ _ Hc) Hs Hr Hne Ht)
    as (startTime & endTime & updatedAt & top & Htop & Hrun).
  cbv zeta in Hrun.
  destruct (_ <=? 1).
  - destruct Hrun as (w1 & E & K & H1).
    assert (C1 : stored_config w1 id = Some (set_status COMPLETED updatedAt c))
      by (unfold stored_config; rewrite K, Hid, stored_doc_insert_eq; reflexivity).
    destruct (endRound_not_active id pct' w1 _ H1 C1) as (w2 & E2 & K2 & _);
      [discriminate|].
    eexists _, w1, _, w2. split; [exact E|]. split; [reflexivity|].
    split; [exact E2|]. split; [exact K2|]. left; reflexivity.
  - destruct Hrun as (startNext & w1 & E & K & H1).
    assert (C1 : stored_config w1 id
                 = Some (set_currentRound (cfg_currentRound c + 1) updatedAt c)).
    { unfold stored_config. rewrite K, Hid.
      rewrite stored_doc_insert_ne
        by (intros E'; exact (round_key_not_config_key _ _ E')).
      rewrite stored_doc_insert_eq. reflexivity. }
    assert (Hk : kv w1 !! (TOURNAMENT_ROLLS_PREFIX +:+ id) = None).
    { rewrite K, Hid.
      rewrite lookup_insert_ne by apply round_key_not_rolls_key.
      rewrite lookup_insert_ne by apply config_key_not_rolls_key.
      apply lookup_delete_eq. }
    destruct (endRound_no_rolls id pct' w1 _ H1 C1 Hs) as (w2 & E2 & K2 & _).
    { unfold stored_rolls. rewrite Hk. reflexivity. }
    eexists _, w1, _, w2. split; [exact E|]. split; [reflexivity|].
    split; [exact E2|]. split; [exact K2|]. right; reflexivity.
Qed.

(** ** One roll, seen from the rest of the store *)

(** What a call of [processUserRoll] stores, when it stores: the new roll,
    or the old one with one more roll used. *)
Lemma processUserRoll_stores id uid name w c res w' :
  healthy w ->
  stored_config w id = Some c ->
  processUserRoll id uid name w = (res, w') ->
  kv w' = kv w \/
  exists h r',
    hash_at (kv w) (TOURNAMENT_ROLLS_PREFIX +:+ id) = Some h /\
    kv w' = <[TOURNAMENT_ROLLS_PREFIX +:+ id :=
                RHash (hash_set uid (Json (DRoll r')) h)]> (kv w) /\
    (ur_roll r' = draw (hd 0%Q (random w)) (cfg_maxRoll c) \/
     exists e, stored_roll w id uid = Some e /\ ur_roll r' = ur_roll e).
Proof.
  intros Hw Hcfg Hrun. unfold stored_config in Hcfg.
  destruct (stored_doc (kv w) (TOURNAMENT_PREFIX +:+ id)) as [[c0| | | | |]|] eqn:Hc;
    try discriminate.
  inversion Hcfg; subst c0; clear Hcfg.
  assert (quiet : forall r, ends (processUserRoll id uid name) w r (kv w) ->
                  kv w' = kv w).
  { intros r (w'' & E & K & Hh). rewrite E in Hrun. inversion Hrun; subst.
    assumption. }
  destruct (decide (cfg_status c = ACTIVE)) as [Hs|Hs].
  2:{ left. exact (quiet _ (processUserRoll_not_active id uid name w Hw c Hc Hs)). }
  destruct (Z.lt_ge_cases (cfg_deadline c) (ms (now w))) as [Hd|Hd].
  { left. exact (quiet _ (processUserRoll_deadline id uid name w Hw c Hc Hs Hd)). }
  unfold stored_roll.
  destruct (stored_field (kv w) (TOURNAMENT_ROLLS_PREFIX +:+ id) uid)
    as [d|] eqn:He.
  - destruct (stored_field_hash _ _ _ _ He) as [h Hh].
    assert (off : (forall r, d <> DRoll r) -> kv w' = kv w).
    { intros N. eapply quiet, processUserRoll_roll_off_type; eassumption. }
    destruct d as [|e| | | |];
      try (left; apply off; intros ? ?; discriminate).
    clear off.
    destruct (Z.le_gt_cases (cfg_rollLimit c) (ur_rollsUsed e)) as [Hl|Hl].
    { left. exact (quiet _ (processUserRoll_limit id uid name w Hw c Hc Hs Hd e He Hl)). }
    destruct (Z.lt_ge_cases (ur_roll e)
                (draw (hd 0%Q (random w)) (cfg_maxRoll c))) as [Hb|Hb].
    + destruct (processUserRoll_better id uid name w Hw c Hc Hs Hd e h He Hh Hl Hb)
        as (w'' & E & K & Hh').
      rewrite E in Hrun; inversion Hrun; subst.
      right. eexists _, _. split; [eassumption|].
      split; [exact K|]. left. reflexivity.
    + destruct (processUserRoll_not_better id uid name w Hw c Hc Hs Hd e h He Hh Hl Hb)
        as (w'' & E & K & Hh').
      rewrite E in Hrun; inversion Hrun; subst.
      right. eexists _, _. split; [eassumption|].
      split; [exact K|]. right. exists e. split; reflexivity.
  - destruct (hash_at (kv w) (TOURNAMENT_ROLLS_PREFIX +:+ id)) as [h|] eqn:Hh.
    2:{ left. exact (quiet _ (processUserRoll_wrong_type id uid name w Hw c Hc Hs Hd He Hh)). }
    destruct (processUserRoll_first id uid name w Hw c Hc Hs Hd h He Hh)
      as (w'' & E & K & Hh').
    rewrite E in Hrun; inversion Hrun; subst.
    right. eexists _, _. split; [reflexivity|].
    split; [exact K|]. left. reflexivity.
Qed.

Lemma stored_doc_after_hset m key v h k :
  hash_at m key = Some h ->
  stored_doc (<[key := RHash v]> m) k = stored_doc m k.
Proof.
  intros Hh. unfold stored_doc. destruct (decide (k = key)) as [->|N].
  - rewrite lookup_insert_eq. unfold hash_at in Hh.
    destruct (m !! key) as [[t|h']|]; [discriminate|reflexivity|reflexivity].
  - rewrite lookup_insert_ne by congruence. reflexivity.
Qed.

(** X9.  A call of [processUserRoll] touches one entry of one hash.  Every
    string document of the store (the configurations, round records and
    statistics of every tournament) reads afterwards as before, and so does
    the roll of every other user and of every other tournament. *)
Theorem processUserRoll_touches_one_entry id uid name w c :
  healthy w ->
  stored_config w id = Some c ->
  let w' := snd (processUserRoll id uid name w) in
  (forall key, stored_doc (kv w') key = stored_doc (kv w) key) /\
  (forall id', stored_config w' id' = stored_config w id') /\
  (forall v, v <> uid -> stored_roll w' id v = stored_roll w id v) /\
  (forall id' v, id' <> id -> stored_roll w' id' v = stored_roll w id' v).
Proof.
  intros Hw Hc. destruct (processUserRoll id uid name w) as [res w'] eqn:Hrun.
  cbn [snd].
  destruct (processUserRoll_stores _ _ _ _ _ _ _ Hw Hc Hrun)
    as [K|(h & r' & Hat & K & _)].
  - unfold stored_config, stored_roll. rewrite K. repeat split; reflexivity.
  - assert (D : forall key, stored_doc (kv w') key = stored_doc (kv w) key)
      by (intros key; rewrite K; eapply stored_doc_after_hset; exact Hat).
    split; [exact D|]. split; [intros id'; unfold stored_config; rewrite D; reflexivity|].
    split.
    + intros v N. unfold stored_roll. rewrite K.
      rewrite (stored_field_after_hset _ _ _ _ _ _ Hat).
      destruct (decide (v = uid)); [contradiction|reflexivity].
    + intros id' v N. unfold stored_roll, stored_field. rewrite K.
      rewrite lookup_insert_ne; [reflexivity|].
      intros E. apply String.app_inj in E. congruence.
Qed.

(** X10.  When [Math.random] yields a double in [0, 1) and [maxRoll >= 1],
    a call of [processUserRoll] keeps the stored rolls of the tournament
    within [1 .. maxRoll]: a new roll is drawn in that range, also where the
    product is rounded up, and an old one is only ever replaced by a drawn
    one or kept. *)
Theorem stored_rolls_stay_in_range id uid name w c :
  healthy w ->
  stored_config w id = Some c ->
  1 <= cfg_maxRoll c ->
  (0 <= hd 0 (random w))%Q -> (hd 0 (random w) < 1)%Q ->
  representable (hd 0%Q (random w)) ->
  (forall v r, stored_roll w id v = Some r -> 1 <= ur_roll r <= cfg_maxRoll c) ->
  let w' := snd (processUserRoll id uid name w) in
  forall v r, stored_roll w' id v = Some r -> 1 <= ur_roll r <= cfg_maxRoll c.
Proof.
  intros Hw Hc Hm H0 H1 Hd Hin.
  destruct (processUserRoll id uid name w) as [res w'] eqn:Hrun. cbn [snd].
  destruct (processUserRoll_stores _ _ _ _ _ _ _ Hw Hc Hrun)
    as [K|(h & r' & Hat & K & Hr)].
  - intros v r. unfold stored_roll. rewrite K. apply Hin.
  - intros v r. unfold stored_roll. rewrite K.
    rewrite (stored_field_after_hset _ _ _ _ _ _ Hat).
    destruct (decide (v = uid)) as [->|N]; [|apply Hin].
    intros E. inversion E; subst r'. destruct Hr as [->|(e & Ee & ->)].
    + apply draw_range; [exact Hm|exact H0|].
      apply double_below_one; [exact H0|exact H1|].
      apply round_double_of_double, Hd.
    + eapply Hin. exact Ee.
Qed.

(** X11.  The gate of [processUserRoll].  A tournament whose key holds no
    document that parses (nothing, an empty or damaged string, a hash) is
    "not found".  Past the deadline the call is refused before the user's
    rolls are looked at and nothing is stored; the comparison is strict, so
    at the very millisecond of the deadline a first roll is still taken and
    stored with that time. *)
Theorem processUserRoll_gate id uid name w :
  healthy w ->
  (stored_doc (kv w) (TOURNAMENT_PREFIX +:+ id) = None ->
   exists w',
     processUserRoll id uid name w
     = (Ok (mkRollResult false None "Tournament not found"), w') /\
     kv w' = kv w) /\
  (forall c,
     stored_config w id = Some c -> cfg_status c = ACTIVE ->
     (cfg_deadline c < ms (now w) ->
      exists w',
        processUserRoll id uid name w
        = (Ok (mkRollResult false None "Tournament deadline has passed"), w') /\
        kv w' = kv w) /\
     (ms (now w) = cfg_deadline c ->
      kv w !! (TOURNAMENT_ROLLS_PREFIX +:+ id) = None ->
      exists res w' r,
        processUserRoll id uid name w = (Ok res, w') /\
        rr_success res = true /\ rr_roll res = Some r /\
        ur_timestamp r = cfg_deadline c /\ ur_rollsUsed r = 1 /\
        stored_roll w' id uid = Some r)).
Proof.
  intros Hw. split.
  - intros Hn.
    destruct (processUserRoll_not_found id uid name w Hw Hn) as (w' & E & K & _).
    exists w'. split; assumption.
  - intros c Hc Hs. pose proof (stored_config_doc _ _ _ Hc) as Hd. split.
    + intros Hlate.
      destruct (processUserRoll_deadline id uid name w Hw c Hd Hs Hlate)
        as (w' & E & K & _).
      exists w'. split; assumption.
    + intros Hnow Hfree.
      assert (Hf : stored_field (kv w) (TOURNAMENT_ROLLS_PREFIX +:+ id) uid = None)
        by (unfold stored_field; rewrite Hfree; reflexivity).
      assert (Hh : hash_at (kv w) (TOURNAMENT_ROLLS_PREFIX +:+ id) = Some [])
        by (unfold hash_at; rewrite Hfree; reflexivity).
      destruct (processUserRoll_first id uid name w Hw c Hd Hs
                  ltac:(lia) [] Hf Hh) as (w' & E & K & _).
      eexists _, w', _. split; [exact E|].
      cbn [rr_success rr_roll ur_timestamp ur_rollsUsed].
      do 2 (split; [reflexivity|]). split; [exact Hnow|]. split; [reflexivity|].
      unfold stored_roll. rewrite K. rewrite stored_field_insert_eq. reflexivity.
Qed.

(** ** The rounds of a tournament *)







(** ** The two tiers in a calm world *)

Ltac calm_world w :=
  let en := fresh "en" in
  let m := fresh "m" in
  let d := fresh "d" in
  destruct w as [en ? m ? d ? ? ? ?];
  match goal with H : calm _ |- _ => destruct H as [? ?] end;
  cbn [redisFaults diskFaults] in *; subst.

Lemma getRedis_calm key w :
  calm w ->
  exists evs, getRedis key w = (Ok (cached w key), pushes evs w).
Proof.
  intros C. calm_world w. unfold cached, string_at. cbn [redisEnabled kv].
  destruct en.
  - unfold getRedis, getRedisClient, try_catch, client_get, send, bind, ret.
    cbn -[pushes]. destruct (m !! key) as [[t|h]|].
    + exists [CmdGet key]; reflexivity.
    + exists [Log LError "Failed to get Redis key"; CmdGet key]; reflexivity.
    + exists [CmdGet key]; reflexivity.
  - eexists [_]; reflexivity.
Qed.

Lemma readDisk_calm path w r :
  calm w ->
  match disk w !! path with
  | None => Some None
  | Some chunks => option_map Some (whole chunks)
  end = Some r ->
  exists evs, readDisk path w = (Ok r, pushes evs w).
Proof.
  intros C. calm_world w. cbn [disk].
  unfold readDisk, fs_readFile, try_catch, fs_fate, bind, ret, logger.
  cbn -[pushes whole]. destruct (d !! path) as [chunks|].
  - destruct (whole chunks) as [t|]; cbn -[pushes]; intros E; inversion E.
    eexists [_]; reflexivity.
  - intros E; inversion E. eexists [_]; reflexivity.
Qed.

Lemma setRedis_calm key value ttl w :
  calm w ->
  setRedis key value ttl w
  = (Ok (redisEnabled w),
     push (cache_event key value ttl w)
          (if redisEnabled w
           then set_kv (insert key (RString value)) w else w)).
Proof.
  intros C. calm_world w. unfold cache_event. cbn [redisEnabled]. destruct en.
  - unfold setRedis, getRedisClient, try_catch, client_set, client_setex, send,
      bind, ret.
    cbn. destruct ttl as [t|]; [destruct (t =? 0)|]; reflexivity.
  - reflexivity.
Qed.

Lemma writeDisk_calm path value w :
  calm w ->
  exists evs,
    writeDisk path value w
    = (Ok true, pushes evs (set_disk (insert path [value]) w)).
Proof.
  intros C. calm_world w. eexists [_; _; _]. reflexivity.
Qed.

Section Frames.
Variables (w : World) (e : Event) (evs : list Event).
Variable f : gmap string RVal -> gmap string RVal.
Variable g : gmap string (list Text) -> gmap string (list Text).

Lemma calm_push : calm w -> calm (push e w).
Proof. exact id. Qed.
Lemma calm_pushes : calm w -> calm (pushes evs w).
Proof. unfold calm. rewrite redisFaults_pushes, diskFaults_pushes. exact id. Qed.
Lemma calm_set_kv : calm w -> calm (set_kv f w).
Proof. exact id. Qed.
Lemma calm_set_disk : calm w -> calm (set_disk g w).
Proof. exact id. Qed.
Lemma calm_tick : calm w -> calm (tick w).
Proof. unfold tick, new_Date. destruct (later w); exact id. Qed.

Lemma redisEnabled_set_kv : redisEnabled (set_kv f w) = redisEnabled w.
Proof. reflexivity. Qed.
Lemma redisEnabled_set_disk : redisEnabled (set_disk g w) = redisEnabled w.
Proof. reflexivity. Qed.
Lemma kv_set_disk : kv (set_disk g w) = kv w.
Proof. reflexivity. Qed.
Lemma disk_set_disk : disk (set_disk g w) = g (disk w).
Proof. reflexivity. Qed.
Lemma disk_set_kv : disk (set_kv f w) = disk w.
Proof. reflexivity. Qed.
Lemma now_set_kv : now (set_kv f w) = now w.
Proof. reflexivity. Qed.
Lemma now_set_disk : now (set_disk g w) = now w.
Proof. reflexivity. Qed.
Lemma later_set_kv : later (set_kv f w) = later w.
Proof. reflexivity. Qed.
Lemma later_set_disk : later (set_disk g w) = later w.
Proof. reflexivity. Qed.
End Frames.

#[local] Hint Resolve calm_push calm_pushes calm_set_kv calm_set_disk calm_tick
  : world.
#[local] Hint Rewrite redisEnabled_set_kv redisEnabled_set_disk kv_set_disk
  disk_set_disk disk_set_kv disk_tick now_set_kv now_set_disk later_set_kv
  later_set_disk : world_rw.

Ltac ex_events :=
  first [ exists []; reflexivity
        | eexists [_]; reflexivity
        | eexists [_; _]; reflexivity
        | eexists [_; _; _]; reflexivity
        | eexists [_; _; _; _]; reflexivity
        | eexists [_; _; _; _; _]; reflexivity
        | eexists [_; _; _; _; _; _]; reflexivity
        | eexists [_; _; _; _; _; _; _]; reflexivity ].

Lemma trace_pushes evs w : trace (pushes evs w) = evs ++ trace w.
Proof. induction evs as [|e evs IH]; [reflexivity|]. simpl. rewrite IH. reflexivity. Qed.

Lemma pushes_app evs1 evs2 w :
  pushes evs1 (pushes evs2 w) = pushes (evs1 ++ evs2) w.
Proof. unfold pushes. rewrite foldr_app. reflexivity. Qed.

Lemma set_kv_pushes f evs w : set_kv f (pushes evs w) = pushes evs (set_kv f w).
Proof.
  induction evs as [|e evs IH]; [reflexivity|].
  cbn [pushes foldr]. fold (pushes evs w). fold (pushes evs (set_kv f w)).
  rewrite <- IH. reflexivity.
Qed.

Lemma set_disk_pushes g evs w :
  set_disk g (pushes evs w) = pushes evs (set_disk g w).
Proof.
  induction evs as [|e evs IH]; [reflexivity|].
  cbn [pushes foldr]. fold (pushes evs w). fold (pushes evs (set_disk g w)).
  rewrite <- IH. reflexivity.
Qed.

Lemma storeData_calm key value options w :
  calm w ->
  exists evs,
    storeData key value options w
    = (Ok true,
       pushes evs
         ((if default false (opt_persistToDisk options) || negb (redisEnabled w)
           then set_disk (insert (cachePath key) [value]) else id)
            ((if redisEnabled w
              then set_kv (insert key (RString value)) else id) w))).
Proof.
  intros C. unfold storeData.
  rewrite (bind_Ok _ _ _ _ _ (setRedis_calm key value (opt_ttl options) w C)).
  destruct (redisEnabled w) eqn:En; cbn [negb id].
  - destruct (default false (opt_persistToDisk options)); cbn [orb].
    + destruct (writeDisk_calm (cachePath key) value
                  (push (cache_event key value (opt_ttl options) w)
                        (set_kv (insert key (RString value)) w)))
        as [ev2 E2]; [auto with world|].
      rewrite (bind_Ok _ _ _ _ _ E2). cbn [negb andb].
      eexists (ev2 ++ [_]). rewrite <- pushes_app. reflexivity.
    + eexists [_]. reflexivity.
  - rewrite orb_true_r.
    destruct (writeDisk_calm (cachePath key) value
                (push (cache_event key value (opt_ttl options) w) w))
      as [ev2 E2]; [auto with world|].
    rewrite (bind_Ok _ _ _ _ _ E2). cbn [negb andb].
    eexists (ev2 ++ [_]). rewrite <- pushes_app. reflexivity.
Qed.

Lemma retrieveData_calm key w r :
  calm w ->
  held w key = Some r ->
  exists evs,
    retrieveData key w
    = (Ok r,
       pushes evs
         (match cached w key, r with
          | None, Some t =>
              if redisEnabled w then set_kv (insert key (RString t)) w else w
          | _, _ => w
          end)) /\
    (forall t, cached w key = None -> r = Some t -> redisEnabled w = true ->
               In (CmdSetex key 3600 t) evs).
Proof.
  intros C H. unfold retrieveData.
  destruct (getRedis_calm key w C) as [ev1 E1].
  rewrite (bind_Ok _ _ _ _ _ E1). clear E1.
  unfold held in H. destruct (cached w key) as [t|] eqn:Ec.
  - inversion H; subst r. exists ev1. split; [reflexivity|]. discriminate.
  - cbv zeta. unfold filed in H.
    destruct (readDisk_calm (cachePath key) (pushes ev1 w) r) as [ev2 E2];
      [auto with world | rewrite disk_pushes; exact H |].
    rewrite (bind_Ok _ _ _ _ _ E2). clear E2.
    destruct r as [t|].
    + rewrite (bind_Ok _ _ _ _ _
                 (setRedis_calm key t (Some 3600) (pushes ev2 (pushes ev1 w))
                    ltac:(auto with world))).
      unfold cache_event. autorewrite with world_rw. cbn [Z.eqb].
      destruct (redisEnabled w).
      * exists (CmdSetex key 3600 t :: ev2 ++ ev1).
        rewrite !set_kv_pushes, pushes_app. split; [reflexivity|].
        intros t' _ Et _. inversion Et. left. reflexivity.
      * eexists (_ :: ev2 ++ ev1). rewrite pushes_app.
        split; [reflexivity|]. discriminate.
    + exists (ev2 ++ ev1). rewrite pushes_app. split; [reflexivity|]. discriminate.
Qed.

(** X13.  [retrieveData] in a calm world reads through the cache.  A string
    in the cache is the answer, whatever the cache file says, and nothing is
    written.  Without one (no client, no such key, or a key that holds a
    hash) the content of the cache file is the answer, and it is written
    back to the cache with a time to live of 3600 seconds when there is a
    client.  Without either the answer is null and nothing is written. *)
Theorem retrieveData_reads_through key w :
  calm w ->
  (forall t,
     cached w key = Some t ->
     exists w',
       retrieveData key w = (Ok (Some t), w') /\
       kv w' = kv w /\ disk w' = disk w) /\
  (forall t,
     cached w key = None -> disk w !! cachePath key = Some [t] ->
     exists w',
       retrieveData key w = (Ok (Some t), w') /\
       disk w' = disk w /\
       kv w' = (if redisEnabled w then <[key := RString t]> (kv w) else kv w) /\
       (redisEnabled w = true -> In (CmdSetex key 3600 t) (trace w'))) /\
  (cached w key = None -> disk w !! cachePath key = None ->
   exists w',
     retrieveData key w = (Ok None, w') /\ kv w' = kv w /\ disk w' = disk w).
Proof.
  intros C. split; [|split].
  - intros t Hc.
    destruct (retrieveData_calm key w (Some t) C) as [evs [E _]].
    { unfold held. rewrite Hc. reflexivity. }
    rewrite Hc in E. eexists. split; [exact E|].
    autorewrite with world_rw. split; reflexivity.
  - intros t Hc Hd.
    destruct (retrieveData_calm key w (Some t) C) as [evs [E Hin]].
    { unfold held, filed. rewrite Hc, Hd. reflexivity. }
    rewrite Hc in E. eexists. split; [exact E|].
    rewrite trace_pushes.
    destruct (redisEnabled w) eqn:En; autorewrite with world_rw;
      (split; [reflexivity|]); (split; [reflexivity|]); [|discriminate].
    intros _. apply in_or_app. left. apply (Hin t); [exact Hc|reflexivity|reflexivity].
  - intros Hc Hd.
    destruct (retrieveData_calm key w None C) as [evs [E _]].
    { unfold held, filed. rewrite Hc, Hd. reflexivity. }
    rewrite Hc in E. eexists. split; [exact E|].
    autorewrite with world_rw. split; reflexivity.
Qed.

(** ** What the facade holds *)

Lemma held_pushes evs w key : held (pushes evs w) key = held w key.
Proof.
  unfold held, cached, filed.
  rewrite redisEnabled_pushes, kv_pushes, disk_pushes. reflexivity.
Qed.

Lemma held_push e w key : held (push e w) key = held w key.
Proof. reflexivity. Qed.

Lemma held_tick w key : held (tick w) key = held w key.
Proof.
  unfold held, cached, filed.
  rewrite redisEnabled_tick, kv_tick, disk_tick. reflexivity.
Qed.

Lemma cachePath_inj key key' : cachePath key = cachePath key' -> key = key'.
Proof.
  unfold cachePath. intros H. apply String.app_inj in H.
  assert (L : String.length (key +:+ ".txt") = String.length (key' +:+ ".txt"))
    by (rewrite H; reflexivity).
  rewrite !string_length_app in L. cbn [String.length] in L.
  assert (Hl : String.length key = String.length key') by lia. clear L.
  revert key' H Hl. induction key as [|c key IH]; intros [|c' key'] H Hl;
    try discriminate Hl; [reflexivity|].
  cbv [String.app] in H. fold (String.app key ".txt") in H.
  fold (String.app key' ".txt") in H. injection H as -> H.
  f_equal. apply IH; [exact H|]. cbn [String.length] in Hl. lia.
Qed.

(** Writing the text that the file holds back to the cache changes nothing
    that the facade holds. *)
Lemma held_promoted w key t key' :
  cached w key = None -> filed w key = Some (Some t) ->
  held (if redisEnabled w then set_kv (insert key (RString t)) w else w) key'
  = held w key'.
Proof.
  intros Hc Hf. destruct (redisEnabled w) eqn:En; [|reflexivity].
  unfold held, cached, filed, string_at in *.
  autorewrite with world_rw. rewrite En in *.
  destruct (decide (key' = key)) as [->|N].
  - rewrite lookup_insert_eq.
    destruct (kv w !! key) as [[t0|h]|]; try discriminate; symmetry; exact Hf.
  - rewrite lookup_insert_ne by congruence. reflexivity.
Qed.

Lemma held_stored w key value persist key' :
  held ((if persist || negb (redisEnabled w)
         then set_disk (insert (cachePath key) [value]) else id)
          ((if redisEnabled w
            then set_kv (insert key (RString value)) else id) w)) key'
  = if decide (key' = key) then Some (Some value) else held w key'.
Proof.
  unfold held, cached, filed, string_at.
  destruct (redisEnabled w) eqn:En, persist; cbn [orb negb id];
    autorewrite with world_rw; rewrite ?En;
    destruct (decide (key' = key)) as [->|N];
    rewrite ?lookup_insert_eq; try reflexivity;
    rewrite ?lookup_insert_ne by congruence;
    rewrite ?lookup_insert_ne
      by (intros E; apply cachePath_inj in E; congruence);
    reflexivity.
Qed.

Lemma retrieveData_keeps key w r :
  calm w ->
  held w key = Some r ->
  exists w',
    retrieveData key w = (Ok r, w') /\ steady w w' /\ same_held w w' /\
    now w' = now w /\ later w' = later w.
Proof.
  intros C H. destruct (retrieveData_calm key w r C H) as [evs [E _]].
  eexists. split; [exact E|].
  unfold held in H. destruct (cached w key) as [t|] eqn:Ec.
  - split; [split; [auto with world|apply redisEnabled_pushes]|].
    split; [intros k; apply held_pushes|].
    autorewrite with world_rw. split; reflexivity.
  - destruct r as [t|].
    + assert (P : forall k, held (pushes evs
                      (if redisEnabled w
                       then set_kv (insert key (RString t)) w else w)) k
                    = held w k)
        by (intros k; rewrite held_pushes; apply held_promoted; assumption).
      destruct (redisEnabled w) eqn:En.
      * split; [split; [auto with world|]|].
        { autorewrite with world_rw. reflexivity. }
        split; [exact P|]. autorewrite with world_rw. split; reflexivity.
      * split; [split; [auto with world|]|].
        { autorewrite with world_rw. reflexivity. }
        split; [exact P|]. autorewrite with world_rw. split; reflexivity.
    + split; [split; [auto with world|apply redisEnabled_pushes]|].
      split; [intros k; apply held_pushes|].
      autorewrite with world_rw. split; reflexivity.
Qed.


Lemma retrieveJSON_calm key w r :
  calm w ->
  held w key = Some r ->
  exists w',
    retrieveJSON key w = (Ok (r ≫= doc_of_text), w') /\
    steady w w' /\ same_held w w' /\ now w' = now w /\ later w' = later w.
Proof.
  intros C H.
  destruct (retrieveData_keeps key w r C H) as (w1 & E & S & K & N & L).
  unfold retrieveJSON, try_catch. rewrite (bind_Ok _ _ _ _ _ E).
  destruct r as [t|]; cbn [mbind option_bind]; [|exists w1; auto].
  unfold doc_of_text. destruct (truthy t); [|exists w1; auto].
  unfold bind, JSON_parse, ret.
  destruct (JSON_parse_text t) as [d|e] eqn:Ep; [exists w1; auto|].
  rewrite (JSON_parse_text_error _ _ Ep).
  exists (push (Log LError "Failed to retrieve JSON data") w1).
  split; [reflexivity|]. destruct S as [S1 S2].
  split; [split; [auto with world|exact S2]|].
  split; [intros k; rewrite held_push; apply K|].
  split; assumption.
Qed.

Lemma storeData_keeps key value options w :
  calm w ->
  exists w',
    storeData key value options w = (Ok true, w') /\ steady w w' /\
    (forall key', held w' key'
                  = if decide (key' = key) then Some (Some value) else held w key') /\
    now w' = now w /\ later w' = later w.
Proof.
  intros C. destruct (storeData_calm key value options w C) as [evs E].
  eexists. split; [exact E|].
  split; [|split; [intros k; rewrite held_pushes; apply held_stored|]].
  - unfold steady. rewrite redisEnabled_pushes.
    destruct (default false (opt_persistToDisk options)), (redisEnabled w) eqn:En;
      cbn [orb negb id]; (split; [auto 6 with world|]);
      autorewrite with world_rw; (reflexivity || exact En).
  - autorewrite with world_rw.
    destruct (default false (opt_persistToDisk options)), (redisEnabled w);
      split; reflexivity.
Qed.

(** X14.  In a calm world (with or without a cache) what [storeData] stored
    is what [retrieveData] reads next, whatever the options, and the
    document that [storeJSON] stored is the document that [retrieveJSON]
    reads next. *)
Theorem store_then_retrieve key value data options w :
  calm w ->
  (exists w1 w2,
     storeData key value options w = (Ok true, w1) /\
     retrieveData key w1 = (Ok (Some value), w2)) /\
  (exists w1 w2,
     storeJSON key data options w = (Ok true, w1) /\
     retrieveJSON key w1 = (Ok (Some data), w2)).
Proof.
  intros C. split.
  - destruct (storeData_keeps key value options w C) as (w1 & E & [C1 _] & H & _).
    specialize (H key). destruct (decide (key = key)); [|congruence].
    destruct (retrieveData_keeps key w1 _ C1 H) as (w2 & E2 & _).
    exists w1, w2. split; assumption.
  - destruct (storeData_keeps key (Json data) options w C)
      as (w1 & E & [C1 _] & H & _).
    specialize (H key). destruct (decide (key = key)); [|congruence].
    destruct (retrieveJSON_calm key w1 _ C1 H) as (w2 & E2 & _).
    exists w1, w2. split; [|exact E2].
    unfold storeJSON, try_catch, JSON_stringify. rewrite E. reflexivity.
Qed.

(** X15.  A stale read.  When the cache holds an old string under the key
    and the one command of the cache write is rejected, [storeData] still
    answers true, because the file was written; the next [retrieveData]
    answers from the cache, that is, the old string, although the file holds
    the new one. *)
Theorem stale_read_after_a_failed_cache_write key old new options w :
  redisEnabled w = true ->
  redisFaults w = [true] ->
  diskFaults w = [] ->
  kv w !! key = Some (RString old) ->
  exists w1 w2,
    storeData key new options w = (Ok true, w1) /\
    disk w1 !! cachePath key = Some [new] /\
    retrieveData key w1 = (Ok (Some old), w2).
Proof.
  intros En Hf Hd Hk.
  assert (R : exists evs,
             setRedis key new (opt_ttl options) w
             = (Ok false, pushes evs (set_redisFaults [] w))).
  { destruct w as [en fl m df d nw lt rnd tr]. cbn in En, Hf. subst.
    unfold setRedis, getRedisClient, try_catch, client_set, client_setex, send,
      bind, ret, logger.
    cbn. destruct (opt_ttl options) as [t|]; [destruct (t =? 0)|];
      eexists [_; _]; reflexivity. }
  destruct R as [ev1 E1].
  assert (S : exists evs,
             storeData key new options w
             = (Ok true,
                pushes evs (set_disk (insert (cachePath key) [new])
                              (set_redisFaults [] w)))).
  { unfold storeData. rewrite (bind_Ok _ _ _ _ _ E1).
    rewrite orb_true_r.
    destruct (writeDisk_calm (cachePath key) new
                (pushes ev1 (set_redisFaults [] w))) as [ev2 E2].
    { apply calm_pushes. split; [reflexivity|exact Hd]. }
    rewrite (bind_Ok _ _ _ _ _ E2). cbn [negb andb].
    rewrite set_disk_pushes, pushes_app. exists (ev2 ++ ev1). reflexivity. }
  destruct S as [evs E].
  set (w1 := pushes evs (set_disk (insert (cachePath key) [new])
                           (set_redisFaults [] w))) in *.
  assert (C1 : calm w1).
  { unfold w1. apply calm_pushes. split; [reflexivity|exact Hd]. }
  assert (H1 : held w1 key = Some (Some old)).
  { unfold w1. rewrite held_pushes. unfold held, cached, string_at.
    cbn [redisEnabled kv set_disk set_redisFaults]. rewrite En, Hk. reflexivity. }
  destruct (retrieveData_keeps key w1 _ C1 H1) as (w2 & E2 & _).
  exists w1, w2. split; [exact E|]. split; [|exact E2].
  unfold w1. rewrite disk_pushes. cbn [disk set_disk set_redisFaults].
  apply lookup_insert_eq.
Qed.

(** ** Removing, and asking whether there is something *)

Lemma removeData_calm key w :
  calm w ->
  exists w',
    removeData key w
    = (Ok (redisEnabled w || bool_decide (is_Some (disk w !! cachePath key))), w') /\
    steady w w' /\
    kv w' = (if redisEnabled w then delete key (kv w) else kv w) /\
    disk w' = delete (cachePath key) (disk w).
Proof.
  intros C. calm_world w. cbn [redisEnabled kv disk].
  unfold removeData, deleteRedis, getRedisClient, deleteDisk, fs_unlink, fs_fate,
    try_catch, client_del, send, bind, ret, logger.
  destruct en; cbn -[cachePath];
    destruct (d !! cachePath key) as [chunks|] eqn:Ed; cbn -[cachePath];
    (eexists; split; [rewrite ?bool_decide_eq_true_2 by (eexists; reflexivity);
                      rewrite ?bool_decide_eq_false_2
                        by (intros [? ?]; discriminate);
                      reflexivity|]);
    (split; [split; [split; reflexivity|reflexivity]|]);
    cbn [kv disk set_kv set_disk push]; (split; [reflexivity|]);
    try reflexivity; symmetry; apply delete_id; exact Ed.
Qed.

(** X16.  [removeData] in a calm world deletes the key from the cache, when
    there is one, and the cache file.  Afterwards the facade holds nothing
    under the key and [retrieveData] answers null; the other keys are as
    before.  The answer is true whenever there is a cache, even if nothing
    was stored under the key; without a cache it tells whether there was a
    file. *)
Theorem removeData_removes key w :
  calm w ->
  exists w' w'',
    removeData key w
    = (Ok (redisEnabled w || bool_decide (is_Some (disk w !! cachePath key))), w') /\
    held w' key = Some None /\
    (forall key', key' <> key -> held w' key' = held w key') /\
    retrieveData key w' = (Ok None, w'').
Proof.
  intros C. destruct (removeData_calm key w C) as (w' & E & [C' En] & K & D).
  assert (H : held w' key = Some None).
  { unfold held, cached, filed, string_at. rewrite En, K, D, lookup_delete_eq.
    destruct (redisEnabled w); [rewrite lookup_delete_eq|]; reflexivity. }
  destruct (retrieveData_keeps key w' None C' H) as (w'' & E' & _).
  exists w', w''. split; [exact E|]. split; [exact H|]. split; [|exact E'].
  intros key' N. unfold held, cached, filed, string_at. rewrite En, K, D.
  rewrite lookup_delete_ne
    by (intros Ep; apply cachePath_inj in Ep; congruence).
  destruct (redisEnabled w); [rewrite lookup_delete_ne by congruence|];
    reflexivity.
Qed.

Lemma dataExists_calm key w :
  calm w ->
  exists evs,
    dataExists key w
    = (Ok (redisEnabled w && bool_decide (is_Some (kv w !! key))
           || bool_decide (is_Some (disk w !! cachePath key))),
       pushes evs w).
Proof.
  intros C. calm_world w. cbn [redisEnabled kv disk].
  unfold dataExists, existsRedis, getRedisClient, existsDisk, fs_access, fs_fate,
    try_catch, client_exists, bind, ret, logger.
  cbv beta zeta. cbn [kv disk redisFaults diskFaults redisEnabled].
  destruct en; cbn -[cachePath pushes];
    destruct (m !! key) as [v|] eqn:Em; cbn -[cachePath pushes];
    destruct (d !! cachePath key) as [chunks|] eqn:Ed; cbn -[cachePath pushes];
    rewrite ?bool_decide_eq_true_2 by (eexists; reflexivity);
    rewrite ?bool_decide_eq_false_2 by (intros [? ?]; discriminate);
    cbn -[pushes]; ex_events.
Qed.

(** X17.  [dataExists] agrees with the writers in a calm world: it answers
    true after [storeData], whatever the options, and false after
    [removeData].  (It counts a key of the cache whatever it holds, so it
    also answers true for a key that holds a hash; [retrieveData] answers
    null for such a key unless there is a file.) *)
Theorem dataExists_after_store_and_remove key value options w :
  calm w ->
  (exists w1 w2,
     storeData key value options w = (Ok true, w1) /\
     dataExists key w1 = (Ok true, w2)) /\
  (exists b w1 w2,
     removeData key w = (Ok b, w1) /\
     dataExists key w1 = (Ok false, w2)) /\
  (forall h,
     redisEnabled w = true -> kv w !! key = Some (RHash h) ->
     disk w !! cachePath key = None ->
     exists w1 w2,
       dataExists key w = (Ok true, w1) /\ retrieveData key w = (Ok None, w2)).
Proof.
  intros C. split; [|split].
  - destruct (storeData_calm key value options w C) as [evs E].
    match type of E with _ = (_, ?w1) =>
      destruct (dataExists_calm key w1) as [ev2 E2] end.
    { destruct (_ || _), (redisEnabled w); cbn [id]; auto 6 with world. }
    eexists _, _. split; [exact E|]. rewrite E2. f_equal. f_equal.
    autorewrite with world_rw.
    destruct (default false (opt_persistToDisk options)), (redisEnabled w) eqn:En;
      cbn [orb negb id]; autorewrite with world_rw; rewrite ?En;
      rewrite ?lookup_insert_eq;
      rewrite ?bool_decide_eq_true_2 by (eexists; reflexivity);
      rewrite ?orb_true_r; reflexivity.
  - destruct (removeData_calm key w C) as (w1 & E & [C1 En] & K & D).
    destruct (dataExists_calm key w1 C1) as [ev2 E2].
    eexists _, w1, _. split; [exact E|]. rewrite E2. f_equal. f_equal.
    rewrite En, K, D, lookup_delete_eq.
    rewrite (bool_decide_eq_false_2 (is_Some None)) by (intros [? ?]; discriminate).
    destruct (redisEnabled w); [rewrite lookup_delete_eq|]; cbn [andb orb];
      rewrite ?bool_decide_eq_false_2 by (intros [? ?]; discriminate);
      reflexivity.
  - intros h En Hk Hd.
    destruct (dataExists_calm key w C) as [ev1 E1].
    destruct (retrieveData_keeps key w None C) as (w2 & E2 & _).
    { unfold held, cached, filed, string_at. rewrite En, Hk, Hd. reflexivity. }
    eexists _, w2. split; [|exact E2]. rewrite E1. f_equal. f_equal.
    rewrite En, Hk. rewrite bool_decide_eq_true_2 by (eexists; reflexivity).
    reflexivity.
Qed.

(** X18.  [retrieveJSON] in a calm world fails softly: it answers null when
    the facade holds nothing under the key, when it holds the empty string,
    and when it holds a text that does not parse; otherwise it answers the
    parsed document. *)
Theorem retrieveJSON_soft key w :
  calm w ->
  (held w key = Some None ->
   exists w', retrieveJSON key w = (Ok None, w')) /\
  (forall t,
     held w key = Some (Some t) ->
     truthy t = false \/ (exists e, JSON_parse_text t = Throw e) ->
     exists w', retrieveJSON key w = (Ok None, w')) /\
  (forall t d,
     held w key = Some (Some t) -> truthy t = true -> JSON_parse_text t = Ok d ->
     exists w', retrieveJSON key w = (Ok (Some d), w')).
Proof.
  intros C. split; [|split].
  - intros H. destruct (retrieveJSON_calm key w _ C H) as (w' & E & _).
    exists w'. exact E.
  - intros t H Bad. destruct (retrieveJSON_calm key w _ C H) as (w' & E & _).
    exists w'. rewrite E. f_equal. f_equal. cbn [mbind option_bind].
    unfold doc_of_text. destruct Bad as [->|[e ->]]; [reflexivity|].
    destruct (truthy t); reflexivity.
  - intros t d H Tr Ep. destruct (retrieveJSON_calm key w _ C H) as (w' & E & _).
    exists w'. rewrite E. f_equal. f_equal. cbn [mbind option_bind].
    unfold doc_of_text. rewrite Tr, Ep. reflexivity.
Qed.

(** X19.  User sessions are stored with a time to live of 3600 seconds and
    without the request to persist.  With a cache, in a calm world, the
    session goes to the cache and the disk is not touched.  Without a cache
    the write falls back to the disk all the same: the session is written to
    its cache file.  Either way [retrieveUserSession] reads it back. *)
Theorem user_session_round_trip userId data w :
  calm w ->
  exists w1 w2,
    storeUserSession userId data w = (Ok true, w1) /\
    retrieveUserSession userId w1 = (Ok (Some data), w2) /\
    (redisEnabled w = true ->
     disk w1 = disk w /\
     kv w1 !! sessionKey userId = Some (RString (Json data)) /\
     In (CmdSetex (sessionKey userId) 3600 (Json data)) (trace w1)) /\
    (redisEnabled w = false ->
     kv w1 = kv w /\
     disk w1 !! cachePath (sessionKey userId) = Some [Json data]).
Proof.
  intros C.
  destruct (storeData_keeps (sessionKey userId) (Json data)
              (mkOptions (Some 3600) None) w C) as (w1 & E & [C1 _] & H & _).
  specialize (H (sessionKey userId)).
  destruct (decide (sessionKey userId = sessionKey userId)); [|congruence].
  destruct (retrieveJSON_calm _ w1 _ C1 H) as (w2 & E2 & _).
  exists w1, w2.
  split; [unfold storeUserSession, storeJSON, try_catch, JSON_stringify;
          rewrite E; reflexivity|].
  split; [exact E2|].
  destruct (storeData_spec (sessionKey userId) (Json data)
              (mkOptions (Some 3600) None) w)
    as (evs & w' & E' & K & D & _ & _ & _ & T & _).
  rewrite E in E'. inversion E'; subst w'. clear E'.
  unfold disk_attempted, cache_ok, disk_ok, cache_event in *.
  destruct C as [Cf Cd]. rewrite Cf, Cd in *. cbn [opt_persistToDisk opt_ttl] in *.
  split; intros En; rewrite En in *; cbn in K, D, T.
  - split; [exact D|]. split; [rewrite K; apply lookup_insert_eq|].
    rewrite T. apply in_or_app. right. left. reflexivity.
  - split; [exact K|]. rewrite D. apply lookup_insert_eq.
Qed.

(** ** Games in a calm world *)

Lemma string_app_inv_tail (a b s : string) : a +:+ s = b +:+ s -> a = b.
Proof.
  intros H.
  assert (L : String.length (a +:+ s) = String.length (b +:+ s))
    by (rewrite H; reflexivity).
  rewrite !string_length_app in L.
  assert (Hl : String.length a = String.length b) by lia. clear L.
  revert b H Hl. induction a as [|c a IH]; intros [|c' b] H Hl;
    try discriminate Hl; [reflexivity|].
  cbv [String.app] in H. fold (String.app a s) in H. fold (String.app b s) in H.
  injection H as -> H. f_equal. apply IH; [exact H|].
  cbn [String.length] in Hl. lia.
Qed.

Lemma gameKey_inj g g' : gameKey g = gameKey g' -> g = g'.
Proof.
  unfold gameKey. intros H. apply String.app_inj in H.
  exact (string_app_inv_tail _ _ _ H).
Qed.

Lemma steady_refl w : calm w -> steady w w.
Proof. intros C. split; [exact C|reflexivity]. Qed.

Lemma steady_trans w1 w2 w3 : steady w1 w2 -> steady w2 w3 -> steady w1 w3.
Proof. intros [_ E1] [C E2]. split; [exact C|congruence]. Qed.

Lemma game_of_same w w' g : same_held w w' -> game_of w' g = game_of w g.
Proof. intros H. unfold game_of. rewrite H. reflexivity. Qed.

Lemma getGame_calm g w r :
  calm w ->
  game_of w g = Some r ->
  exists w',
    getGame g w = (Ok (option_map DGame r), w') /\
    steady w w' /\ same_held w w' /\ now w' = now w /\ later w' = later w.
Proof.
  intros C H. unfold game_of in H.
  destruct (held w (gameKey g)) as [x|] eqn:Hh; [|discriminate].
  destruct (retrieveJSON_calm (gameKey g) w x C Hh) as (w' & E & R).
  exists w'. split; [|exact R].
  unfold getGame, retrieveGameState. rewrite E. f_equal. f_equal.
  destruct x as [t|]; cbn [mbind option_bind]; [|inversion H; reflexivity].
  destruct (doc_of_text t) as [[| | | |s|]|]; inversion H; reflexivity.
Qed.

Lemma storeGameState_calm g s w :
  calm w ->
  exists w',
    storeGameState g s w = (Ok true, w') /\ steady w w' /\
    game_of w' g = Some (Some s) /\
    (forall key, key <> gameKey g -> held w' key = held w key) /\
    now w' = now w /\ later w' = later w.
Proof.
  intros C.
  destruct (storeData_keeps (gameKey g) (Json (DGame s))
              (mkOptions (Some 86400) (Some true)) w C) as (w' & E & S & H & N).
  exists w'. split.
  { unfold storeGameState, storeJSON, try_catch, JSON_stringify. rewrite E.
    reflexivity. }
  split; [exact S|]. split; [|split; [|exact N]].
  - unfold game_of. rewrite H. destruct (decide (gameKey g = gameKey g));
      [reflexivity|congruence].
  - intros key Hk. rewrite H. destruct (decide (key = gameKey g)); [congruence|].
    reflexivity.
Qed.

Lemma game_of_other w w' g g' :
  (forall key, key <> gameKey g -> held w' key = held w key) ->
  g' <> g -> game_of w' g' = game_of w g'.
Proof.
  intros H N. unfold game_of. rewrite H; [reflexivity|].
  intros E. apply gameKey_inj in E. congruence.
Qed.

Lemma appendDisk_calm path data w :
  calm w ->
  exists evs,
    appendDisk path data w
    = (Ok true,
       pushes evs
         (set_disk (fun d => <[path := default [] (d !! path) ++ [data]]> d) w)).
Proof. intros C. calm_world w. eexists [_; _; _]. reflexivity. Qed.

Lemma log_path_not_cache_path logType day key :
  "logs/" +:+ logType +:+ "/" +:+ day +:+ ".log" <> cachePath key.
Proof. unfold cachePath. intros H. cbv [String.app] in H. discriminate H. Qed.

Lemma logEvent_calm logType event w :
  calm w ->
  exists w',
    logEvent logType event w = (Ok true, w') /\ steady w w' /\ same_held w w'.
Proof.
  intros C. unfold logEvent.
  rewrite (bind_Ok _ _ _ _ _ (new_Date_run _)).
  rewrite (bind_Ok _ _ _ _ _ (new_Date_run _)).
  destruct (appendDisk_calm
              ("logs/" +:+ logType +:+ "/" +:+ before_T (iso (now (tick w))) +:+ ".log")
              (Newline (JSON_stringify (DEvent (iso (now w)) event)))
              (tick (tick w))) as [evs E]; [auto with world|].
  eexists. split; [exact E|]. split.
  - split; [auto 6 with world|]. autorewrite with world_rw. reflexivity.
  - intros key. rewrite held_pushes. unfold held, cached, filed.
    autorewrite with world_rw.
    rewrite lookup_insert_ne by apply log_path_not_cache_path. reflexivity.
Qed.

Lemma quiet_logger l msg : quiet (logger l msg).
Proof.
  intros w C. eexists. split; [reflexivity|].
  split; [split; [exact C|reflexivity]|intros k; reflexivity].
Qed.

Lemma quiet_ret : quiet (ret tt).
Proof.
  intros w C. exists w. split; [reflexivity|].
  split; [apply steady_refl, C|intros k; reflexivity].
Qed.

Lemma quiet_logEvent_then logType event (m : M unit) :
  quiet m -> quiet (logEvent logType event ;;; m).
Proof.
  intros Q w C. destruct (logEvent_calm logType event w C) as (w1 & E & S & H).
  destruct (Q w1 (proj1 S)) as (w2 & E2 & S2 & H2).
  exists w2. split; [rewrite (bind_Ok _ _ _ _ _ E); exact E2|].
  split; [eapply steady_trans; eassumption|].
  intros k. rewrite H2. apply H.
Qed.

(** The tail that the operations share: store the state, log on success,
    answer whether the store succeeded. *)
Lemma commit_calm g s (after : M unit) w :
  quiet after ->
  calm w ->
  exists w',
    (success <- storeGameState g s ;;
     (if success then after else ret tt) ;;;
     ret success) w = (Ok true, w') /\
    steady w w' /\ game_of w' g = Some (Some s) /\
    (forall g', g' <> g -> game_of w' g' = game_of w g').
Proof.
  intros Q C.
  destruct (storeGameState_calm g s w C) as (w1 & E & S & G & F & _).
  destruct (Q w1 (proj1 S)) as (w2 & E2 & S2 & H2).
  exists w2. split.
  { rewrite (bind_Ok _ _ _ _ _ E). rewrite (bind_Ok _ _ _ _ _ E2). reflexivity. }
  split; [eapply steady_trans; eassumption|].
  split; [rewrite (game_of_same _ _ _ H2); exact G|].
  intros g' N. rewrite (game_of_same _ _ _ H2). eapply game_of_other; eassumption.
Qed.

Lemma createGame_calm gameId type initialData w :
  calm w ->
  exists w',
    createGame gameId type initialData w = (Ok true, w') /\ calm w' /\
    game_of w' gameId
    = Some (Some (mkGame gameId type Pending [] None None initialData)) /\
    (forall g', g' <> gameId -> game_of w' g' = game_of w g').
Proof.
  intros C.
  destruct (commit_calm gameId (mkGame gameId type Pending [] None None initialData)
              (logEvent "game" [("action", JStr "create"); ("gameId", JStr gameId);
                                ("type", JStr type)] ;;;
               logger LInfo "Game created") w
              (quiet_logEvent_then _ _ _ (quiet_logger _ _)) C)
    as (w1 & E & S & G & F).
  exists w1. split; [|split; [exact (proj1 S)|split; [exact G|exact F]]].
  unfold createGame. unfold bind in *.
  destruct (storeGameState gameId _ w) as [[[|]|e] w0];
    [exact E|discriminate E|discriminate E].
Qed.

(** X20.  In a calm world a game that [createGame] created is the game that
    [getGame] reads next: pending, without players, without start or end
    time, with the initial data; the other games are as before. *)
Theorem createGame_then_getGame gameId type initialData w :
  calm w ->
  exists w1 w2,
    createGame gameId type initialData w = (Ok true, w1) /\
    getGame gameId w1
    = (Ok (Some (DGame (mkGame gameId type Pending [] None None initialData))),
       w2) /\
    (forall g', g' <> gameId -> game_of w1 g' = game_of w g').
Proof.
  intros C.
  destruct (createGame_calm gameId type initialData w C) as (w1 & E & C1 & G & F).
  destruct (getGame_calm gameId w1 _ C1 G) as (w2 & E2 & _).
  exists w1, w2. split; [exact E|]. split; [exact E2|exact F].
Qed.

Lemma same_held_tick_of w w1 : same_held w w1 -> same_held w (tick w1).
Proof. intros H k. rewrite held_tick. apply H. Qed.

Ltac open_game g w s C G :=
  let w1 := fresh "w1" in
  let E1 := fresh "E1" in
  let S1 := fresh "S1" in
  let H1 := fresh "H1" in
  let N1 := fresh "N1" in
  let L1 := fresh "L1" in
  destruct (getGame_calm g w s C G) as (w1 & E1 & S1 & H1 & N1 & L1);
  rewrite (bind_Ok _ _ _ _ _ E1); cbn [option_map as_game];
  rewrite ?bind_ret; cbv beta iota.

Ltac no_game g w C G :=
  let w1 := fresh "w1" in
  let E1 := fresh "E1" in
  let S1 := fresh "S1" in
  let H1 := fresh "H1" in
  destruct (getGame_calm g w None C G) as (w1 & E1 & S1 & H1 & _);
  unfold refuses; rewrite (bind_Ok _ _ _ _ _ E1); cbn [option_map];
  rewrite ?bind_ret; cbv beta iota;
  eexists; (split; [reflexivity|]);
  intros k; rewrite held_push; apply H1.

(** X21.  Without a game under the id (nothing stored, or a text that does
    not parse), every operation that changes a game answers false and
    leaves what the facade holds as it is. *)
Theorem game_operations_need_a_game gameId userId data reason score choice amount w :
  calm w ->
  game_of w gameId = Some None ->
  refuses (startGame gameId) w /\
  refuses (addPlayer gameId userId) w /\
  refuses (removePlayer gameId userId) w /\
  refuses (updateGameData gameId data) w /\
  refuses (cancelGame gameId reason) w /\
  refuses (recordScore gameId userId score) w /\
  refuses (placeBet gameId userId choice amount) w.
Proof.
  intros C G. repeat split.
  - unfold startGame. no_game gameId w C G.
  - unfold addPlayer. no_game gameId w C G.
  - unfold removePlayer. no_game gameId w C G.
  - unfold updateGameData. no_game gameId w C G.
  - unfold cancelGame. no_game gameId w C G.
  - unfold recordScore. no_game gameId w C G.
  - unfold placeBet. no_game gameId w C G.
Qed.

(** X22.  [startGame] on a game that exists, in a calm world: the game is
    stored as active with the current time as start time, whatever its
    status was (a completed or cancelled game is started again); players,
    data and end time are kept, and the other games are as before. *)
Theorem startGame_starts gameId w s :
  calm w ->
  game_of w gameId = Some (Some s) ->
  exists w',
    startGame gameId w = (Ok true, w') /\ calm w' /\
    game_of w' gameId
    = Some (Some (mkGame (gs_gameId s) (gs_type s) Active (gs_players s)
                         (Some (iso (now w))) (gs_endedAt s) (gs_data s))) /\
    (forall g', g' <> gameId -> game_of w' g' = game_of w g').
Proof.
  intros C G. unfold startGame. open_game gameId w (Some s) C G.
  rewrite (bind_Ok _ _ _ _ _ (new_Date_run w1)). rewrite N1.
  match goal with
  | |- context [bind (storeGameState _ ?s') (fun success => bind (if success then ?after else _) _)] =>
      destruct (commit_calm gameId s' after (tick w1))
        as (w' & E & S & G' & F);
      [apply quiet_logEvent_then, quiet_logger | apply calm_tick, S1 |]
  end.
  exists w'. split; [exact E|]. split; [exact (proj1 S)|]. split; [exact G'|].
  intros g' N. rewrite (F g' N).
  apply game_of_same, same_held_tick_of, H1.
Qed.

(** ** Players *)

Lemma indexOf_absent x l : x ∉ l -> indexOf x l = -1.
Proof.
  induction l as [|y l IH]; intros H; [reflexivity|]. cbn [indexOf].
  destruct (decide (y = x)) as [->|N]; [exfalso; apply H; left|].
  rewrite IH by (intros Hx; apply H; right; exact Hx). reflexivity.
Qed.

Lemma indexOf_first x l1 l2 :
  x ∉ l1 -> indexOf x (l1 ++ x :: l2) = Z.of_nat (length l1).
Proof.
  induction l1 as [|y l1 IH]; intros H; cbn [indexOf app length].
  - destruct (decide (x = x)); [reflexivity|congruence].
  - destruct (decide (y = x)) as [->|N]; [exfalso; apply H; left|].
    rewrite IH by (intros Hx; apply H; right; exact Hx).
    destruct (Z.ltb_spec (Z.of_nat (length l1)) 0); lia.
Qed.

Lemma first_occurrence (x : string) l :
  x ∈ l -> exists l1 l2, l = l1 ++ x :: l2 /\ x ∉ l1.
Proof.
  induction l as [|y l IH]; intros H; [inversion H|].
  destruct (decide (y = x)) as [->|N].
  - exists [], l. split; [reflexivity|]. intros Hx; inversion Hx.
  - assert (Hl : x ∈ l) by (inversion H; subst; [congruence|assumption]).
    destruct (IH Hl) as (l1 & l2 & -> & Hn).
    exists (y :: l1), l2. split; [reflexivity|].
    intros Hx. inversion Hx; subst; [congruence|contradiction].
Qed.

Lemma game_set_players_same s : game_set_players (gs_players s) s = s.
Proof. destruct s; reflexivity. Qed.

Lemma addPlayer_calm g u w s :
  calm w ->
  game_of w g = Some (Some s) ->
  exists w',
    addPlayer g u w = (Ok true, w') /\ calm w' /\
    game_of w' g
    = Some (Some (if bool_decide (u ∈ gs_players s) then s
                  else game_set_players (gs_players s ++ [u]) s)) /\
    (forall g', g' <> g -> game_of w' g' = game_of w g').
Proof.
  intros C G. unfold addPlayer. open_game g w (Some s) C G.
  destruct (bool_decide (u ∈ gs_players s)).
  - eexists. split; [reflexivity|]. split; [exact (proj1 S1)|].
    split; [rewrite <- G; apply game_of_same; intros k; rewrite held_push; apply H1|].
    intros g' _. apply game_of_same. intros k. rewrite held_push. apply H1.
  - match goal with
    | |- context [bind (storeGameState _ ?s') (fun success => bind (if success then ?after else _) _)] =>
        destruct (commit_calm g s' after w1)
          as (w' & E & S & G' & F);
        [apply quiet_logEvent_then, quiet_logger | exact (proj1 S1) |]
    end.
    exists w'. split; [exact E|]. split; [exact (proj1 S)|]. split; [exact G'|].
    intros g' N. rewrite (F g' N). apply game_of_same, H1.
Qed.

(** X23.  [addPlayer] on a game that exists, in a calm world, answers true
    and the player is in the stored list afterwards: appended at the end if
    they were not in it, and otherwise nothing is stored.  A list without
    duplicates stays without duplicates, and adding the same player again
    changes nothing. *)
Theorem addPlayer_joins_once gameId userId w s :
  calm w ->
  game_of w gameId = Some (Some s) ->
  exists w1 w2 s1,
    addPlayer gameId userId w = (Ok true, w1) /\
    game_of w1 gameId = Some (Some s1) /\
    (userId ∈ gs_players s -> s1 = s) /\
    (userId ∉ gs_players s ->
     s1 = game_set_players (gs_players s ++ [userId]) s) /\
    userId ∈ gs_players s1 /\
    (NoDup (gs_players s) -> NoDup (gs_players s1)) /\
    (forall g', g' <> gameId -> game_of w1 g' = game_of w g') /\
    addPlayer gameId userId w1 = (Ok true, w2) /\
    game_of w2 gameId = Some (Some s1).
Proof.
  intros C G.
  destruct (addPlayer_calm gameId userId w s C G) as (w1 & E1 & C1 & G1 & F1).
  set (s1 := if bool_decide (userId ∈ gs_players s) then s
             else game_set_players (gs_players s ++ [userId]) s) in *.
  assert (In1 : userId ∈ gs_players s1).
  { unfold s1. destruct (bool_decide_reflect (userId ∈ gs_players s)) as [H|H];
      [exact H|]. cbn [gs_players game_set_players].
    apply elem_of_app. right. left. }
  destruct (addPlayer_calm gameId userId w1 s1 C1 G1) as (w2 & E2 & _ & G2 & _).
  rewrite bool_decide_eq_true_2 in G2 by exact In1.
  exists w1, w2, s1. split; [exact E1|]. split; [exact G1|].
  split; [intros H; unfold s1; rewrite bool_decide_eq_true_2 by exact H; reflexivity|].
  split; [intros H; unfold s1; rewrite bool_decide_eq_false_2 by exact H; reflexivity|].
  split; [exact In1|].
  split; [|split; [exact F1|split; [exact E2|exact G2]]].
  intros ND. unfold s1.
  destruct (bool_decide_reflect (userId ∈ gs_players s)) as [H|H]; [exact ND|].
  cbn [gs_players game_set_players]. apply NoDup_app. split; [exact ND|].
  split; [|apply NoDup_singleton].
  intros x Hx Hu. apply list_elem_of_singleton in Hu. subst x. contradiction.
Qed.

Lemma removePlayer_calm g u w s :
  calm w ->
  game_of w g = Some (Some s) ->
  exists w',
    removePlayer g u w = (Ok true, w') /\ calm w' /\
    game_of w' g
    = Some (Some (if indexOf u (gs_players s) =? -1 then s
                  else game_set_players
                         (delete (Z.to_nat (indexOf u (gs_players s)))
                                 (gs_players s)) s)) /\
    (forall g', g' <> g -> game_of w' g' = game_of w g').
Proof.
  intros C G. unfold removePlayer. open_game g w (Some s) C G.
  destruct (indexOf u (gs_players s) =? -1).
  - eexists. split; [reflexivity|]. split; [exact (proj1 S1)|].
    split; [rewrite <- G; apply game_of_same; intros k; rewrite held_push; apply H1|].
    intros g' _. apply game_of_same. intros k. rewrite held_push. apply H1.
  - match goal with
    | |- context [bind (storeGameState _ ?s') (fun success => bind (if success then ?after else _) _)] =>
        destruct (commit_calm g s' after w1)
          as (w' & E & S & G' & F);
        [apply quiet_logEvent_then, quiet_logger | exact (proj1 S1) |]
    end.
    exists w'. split; [exact E|]. split; [exact (proj1 S)|]. split; [exact G'|].
    intros g' N. rewrite (F g' N). apply game_of_same, H1.
Qed.

Lemma delete_middle {A} (l1 l2 : list A) x :
  delete (length l1) (l1 ++ x :: l2) = l1 ++ l2.
Proof. induction l1 as [|y l1 IH]; [reflexivity|]. cbn. f_equal. exact IH. Qed.

(** X24.  [removePlayer] on a game that exists, in a calm world, answers
    true.  A player who is not in the list leaves the game as it is; for a
    player who is, the first occurrence is taken out of the list and the
    rest keeps its order.  In a list without duplicates the player is gone
    afterwards.  The other fields of the game and the other games are as
    before. *)
Theorem removePlayer_leaves gameId userId w s :
  calm w ->
  game_of w gameId = Some (Some s) ->
  exists w' players,
    removePlayer gameId userId w = (Ok true, w') /\
    game_of w' gameId = Some (Some (game_set_players players s)) /\
    (userId ∉ gs_players s -> players = gs_players s) /\
    (forall l1 l2,
       gs_players s = l1 ++ userId :: l2 -> userId ∉ l1 -> players = l1 ++ l2) /\
    (NoDup (gs_players s) -> userId ∉ players) /\
    (forall g', g' <> gameId -> game_of w' g' = game_of w g').
Proof.
  intros C G.
  destruct (removePlayer_calm gameId userId w s C G) as (w' & E & _ & G' & F).
  destruct (decide (userId ∈ gs_players s)) as [Hin|Hout].
  - destruct (first_occurrence _ _ Hin) as (l1 & l2 & Hs & Hn).
    rewrite Hs, (indexOf_first _ _ _ Hn) in G'.
    destruct (Z.eqb_spec (Z.of_nat (length l1)) (-1)) as [?|_]; [lia|].
    rewrite Nat2Z.id, delete_middle in G'.
    exists w', (l1 ++ l2). split; [exact E|]. split; [exact G'|].
    split; [contradiction|]. split.
    + intros k1 k2 Hs' Hn'. rewrite Hs in Hs'.
      assert (length l1 = length k1).
      { destruct (Nat.lt_trichotomy (length l1) (length k1)) as [L|[L|L]];
          [|exact L|]; exfalso.
        - apply Hn'. apply (list_elem_of_lookup_2 _ (length l1)).
          rewrite <- (lookup_app_l k1 (userId :: k2)) by exact L.
          rewrite <- Hs'. rewrite lookup_app_r by lia.
          rewrite Nat.sub_diag. reflexivity.
        - apply Hn. apply (list_elem_of_lookup_2 _ (length k1)).
          rewrite <- (lookup_app_l l1 (userId :: l2)) by exact L.
          rewrite Hs'. rewrite lookup_app_r by lia.
          rewrite Nat.sub_diag. reflexivity. }
      apply app_inj_1 in Hs'; [|assumption]. destruct Hs' as [-> Ht].
      inversion Ht. reflexivity.
    + split; [|exact F]. intros ND Hx. rewrite Hs in ND.
      apply NoDup_app in ND. destruct ND as (_ & Hd & ND2).
      apply NoDup_cons in ND2. destruct ND2 as [Hn2 _].
      apply elem_of_app in Hx. destruct Hx as [Hx|Hx]; contradiction.
  - rewrite (indexOf_absent _ _ Hout) in G'. cbn [Z.eqb] in G'.
    exists w', (gs_players s). split; [exact E|].
    split; [rewrite game_set_players_same; exact G'|].
    split; [reflexivity|]. split.
    + intros l1 l2 Hs _. exfalso. apply Hout. rewrite Hs.
      apply elem_of_app. right. left.
    + split; [intros _; exact Hout|exact F].
Qed.

(** X25.  Leaving undoes joining: in a calm world, for a player who was not
    in the game, [addPlayer] followed by [removePlayer] stores the game as
    it was. *)
Theorem removePlayer_undoes_addPlayer gameId userId w s :
  calm w ->
  game_of w gameId = Some (Some s) ->
  userId ∉ gs_players s ->
  exists w1 w2,
    addPlayer gameId userId w = (Ok true, w1) /\
    removePlayer gameId userId w1 = (Ok true, w2) /\
    game_of w2 gameId = Some (Some s).
Proof.
  intros C G Hout.
  destruct (addPlayer_calm gameId userId w s C G) as (w1 & E1 & C1 & G1 & _).
  rewrite bool_decide_eq_false_2 in G1 by exact Hout.
  destruct (removePlayer_calm gameId userId w1 _ C1 G1) as (w2 & E2 & _ & G2 & _).
  exists w1, w2. split; [exact E1|]. split; [exact E2|].
  cbn [gs_players game_set_players] in G2.
  rewrite (indexOf_first _ _ [] Hout) in G2.
  destruct (Z.eqb_spec (Z.of_nat (length (gs_players s))) (-1)) as [?|_]; [lia|].
  rewrite Nat2Z.id, delete_middle, app_nil_r in G2.
  rewrite G2. destruct s; reflexivity.
Qed.

(** ** The data bag *)

Lemma obj_get_None k o : obj_get k o = None <-> k ∉ map fst o.
Proof.
  induction o as [|[k' v] o IH]; cbn [obj_get map fst].
  - split; [intros _ H; inversion H|reflexivity].
  - destruct (decide (k' = k)) as [->|N].
    + split; [discriminate|]. intros H. exfalso. apply H. left.
    + rewrite IH. split.
      * intros H Hx. inversion Hx; subst; [congruence|contradiction].
      * intros H Hx. apply H. right. exact Hx.
Qed.

Lemma obj_get_app k o1 o2 :
  obj_get k (o1 ++ o2)
  = match obj_get k o1 with Some v => Some v | None => obj_get k o2 end.
Proof.
  induction o1 as [|[k' v] o1 IH]; [reflexivity|]. cbn [obj_get app].
  destruct (decide (k' = k)); [reflexivity|exact IH].
Qed.

Lemma obj_get_replace k v o k' :
  obj_get k' (obj_replace k v o)
  = if decide (k' = k) then option_map (fun _ => v) (obj_get k o)
    else obj_get k' o.
Proof.
  induction o as [|[k0 v0] o IH]; cbn [obj_get obj_replace].
  - destruct (decide (k' = k)); reflexivity.
  - destruct (decide (k0 = k)) as [->|N]; cbn [obj_get].
    + destruct (decide (k = k')) as [->|N'].
      * destruct (decide (k' = k')); [reflexivity|congruence].
      * destruct (decide (k' = k)); [congruence|reflexivity].
    + destruct (decide (k0 = k')) as [->|N'].
      * destruct (decide (k' = k)); [congruence|reflexivity].
      * exact IH.
Qed.

Lemma obj_get_add_index i k v o k' :
  obj_get k o = None ->
  obj_get k' (obj_add_index i k v o)
  = if decide (k' = k) then Some v else obj_get k' o.
Proof.
  induction o as [|[k0 v0] o IH]; cbn [obj_get obj_add_index]; intros H.
  - destruct (decide (k' = k)) as [->|N];
      [destruct (decide (k = k))|destruct (decide (k = k'))]; congruence.
  - destruct (decide (k0 = k)) as [->|N0]; [discriminate|].
    assert (Hins : obj_get k' ((k, v) :: (k0, v0) :: o)
                   = if decide (k' = k) then Some v
                     else if decide (k0 = k') then Some v0 else obj_get k' o).
    { cbn [obj_get]. destruct (decide (k' = k)) as [->|N];
        [destruct (decide (k = k))|destruct (decide (k = k'))]; congruence. }
    destruct (array_index k0) as [j|]; [|exact Hins].
    destruct (j <? i)%N; [|exact Hins].
    cbn [obj_get]. destruct (decide (k0 = k')) as [->|N'].
    + destruct (decide (k' = k)); [congruence|reflexivity].
    + apply IH, H.
Qed.

Lemma obj_get_set k v o k' :
  obj_get k' (obj_set k v o) = if decide (k' = k) then Some v else obj_get k' o.
Proof.
  unfold obj_set. destruct (obj_get k o) as [x|] eqn:E.
  - rewrite obj_get_replace, E. reflexivity.
  - destruct (array_index k) as [i|].
    + apply obj_get_add_index, E.
    + rewrite obj_get_app. cbn [obj_get].
      destruct (decide (k' = k)) as [->|N].
      * rewrite E. destruct (decide (k = k)); [reflexivity|congruence].
      * destruct (obj_get k' o); [reflexivity|].
        destruct (decide (k = k')); [congruence|reflexivity].
Qed.

Lemma keys_obj_replace k v o : map fst (obj_replace k v o) = map fst o.
Proof.
  induction o as [|[k0 v0] o IH]; [reflexivity|]. cbn [obj_replace].
  destruct (decide (k0 = k)) as [->|N]; cbn [map fst]; [reflexivity|].
  f_equal. exact IH.
Qed.

Lemma keys_obj_add_index i k v o :
  Permutation (map fst (obj_add_index i k v o)) (k :: map fst o).
Proof.
  induction o as [|[k0 v0] o IH]; [reflexivity|]. cbn [obj_add_index].
  destruct (array_index k0) as [j|]; [|reflexivity].
  destruct (j <? i)%N; [|reflexivity].
  cbn [map fst]. rewrite IH. apply perm_swap.
Qed.

Lemma keys_obj_set k v o :
  NoDup (map fst o) -> NoDup (map fst (obj_set k v o)).
Proof.
  intros ND. unfold obj_set. destruct (obj_get k o) as [x|] eqn:E.
  - rewrite keys_obj_replace. exact ND.
  - apply obj_get_None in E. destruct (array_index k) as [i|].
    + rewrite keys_obj_add_index. apply NoDup_cons. split; assumption.
    + rewrite map_app. cbn [map fst]. apply NoDup_app. split; [exact ND|].
      split; [|apply NoDup_singleton].
      intros x Hx Hk. apply list_elem_of_singleton in Hk. subst x. contradiction.
Qed.

Lemma obj_get_elem k v o :
  NoDup (map fst o) -> (obj_get k o = Some v <-> (k, v) ∈ o).
Proof.
  induction o as [|[k0 v0] o IH]; cbn [obj_get map fst]; intros ND.
  - split; [discriminate|intros H; inversion H].
  - apply NoDup_cons in ND. destruct ND as [Hn ND].
    destruct (decide (k0 = k)) as [->|N].
    + split.
      * intros H; inversion H; left.
      * intros H. inversion H; subst; [reflexivity|].
        exfalso. apply Hn. apply (list_elem_of_fmap_2 fst _ (k, v)). assumption.
    + rewrite (IH ND). split.
      * intros H. right. exact H.
      * intros H. inversion H; subst; [congruence|assumption].
Qed.

Lemma obj_get_reverse k o :
  NoDup (map fst o) -> obj_get k (reverse o) = obj_get k o.
Proof.
  intros ND.
  assert (ND' : NoDup (map fst (reverse o))).
  { change (map fst (reverse o)) with (fst <$> reverse o).
    rewrite fmap_reverse, reverse_Permutation. exact ND. }
  destruct (obj_get k o) as [v|] eqn:E.
  - apply (obj_get_elem _ _ _ ND'). apply elem_of_reverse.
    apply (obj_get_elem _ _ _ ND). exact E.
  - apply obj_get_None. apply obj_get_None in E.
    change (map fst (reverse o)) with (fst <$> reverse o).
    rewrite fmap_reverse. intros H. rewrite elem_of_reverse in H. exact (E H).
Qed.

Lemma obj_get_foldl k l : forall acc,
  obj_get k (foldl (fun o p => obj_set (fst p) (snd p) o) acc l)
  = match obj_get k (reverse l) with
    | Some v => Some v
    | None => obj_get k acc
    end.
Proof.
  induction l as [|[k0 v0] l IH]; intros acc; [reflexivity|].
  cbn [foldl fst snd]. rewrite IH, reverse_cons, obj_get_app.
  destruct (obj_get k (reverse l)); [reflexivity|].
  rewrite obj_get_set. cbn [obj_get].
  destruct (decide (k = k0)) as [->|N].
  - destruct (decide (k0 = k0)); [reflexivity|congruence].
  - destruct (decide (k0 = k)); [congruence|reflexivity].
Qed.

Lemma keys_foldl l : forall acc,
  NoDup (map fst acc) ->
  NoDup (map fst (foldl (fun o p => obj_set (fst p) (snd p) o) acc l)).
Proof.
  induction l as [|p l IH]; intros acc ND; [exact ND|].
  cbn [foldl]. apply IH, keys_obj_set, ND.
Qed.

Lemma obj_get_spread k a b :
  NoDup (map fst a) -> NoDup (map fst b) ->
  obj_get k (spread a b)
  = match obj_get k b with Some v => Some v | None => obj_get k a end.
Proof.
  intros Na Nb. unfold spread. rewrite obj_get_foldl, reverse_app, obj_get_app.
  rewrite (obj_get_reverse _ _ Na), (obj_get_reverse _ _ Nb).
  destruct (obj_get k b); [reflexivity|]. destruct (obj_get k a); reflexivity.
Qed.

Ltac commit g w1 S1 :=
  match goal with
  | |- context [bind (storeGameState _ ?s') (fun success => bind (if success then ?after else _) _)] =>
      let w' := fresh "w'" in
      let E := fresh "E" in
      let S := fresh "S" in
      let G' := fresh "G'" in
      let F := fresh "F" in
      destruct (commit_calm g s' after w1) as (w' & E & S & G' & F);
      [first [ apply quiet_logEvent_then, quiet_logger
             | apply quiet_logEvent_then, quiet_ret
             | apply quiet_logger ]
      | first [ exact (proj1 S1) | apply calm_tick, S1 ] |]
  end.

(** X26.  [updateGameData] on a game that exists, in a calm world, stores the
    game with the merged data bag and nothing else changed.  The merged bag
    has no key twice; when the stored bag and the update have no key twice
    either, every key of the update has the update's value in it and every
    other key keeps its value. *)
Theorem updateGameData_merges gameId data w s :
  calm w ->
  game_of w gameId = Some (Some s) ->
  exists w' merged,
    updateGameData gameId data w = (Ok true, w') /\
    game_of w' gameId = Some (Some (game_set_data merged s)) /\
    NoDup (map fst merged) /\
    (NoDup (map fst (gs_data s)) -> NoDup (map fst data) ->
     forall k, obj_get k merged
               = match obj_get k data with
                 | Some v => Some v
                 | None => obj_get k (gs_data s)
                 end) /\
    (forall g', g' <> gameId -> game_of w' g' = game_of w g').
Proof.
  intros C G. unfold updateGameData. open_game gameId w (Some s) C G.
  commit gameId w1 S1.
  exists w', (spread (gs_data s) data). split; [exact E|]. split; [exact G'|].
  split; [apply keys_foldl; constructor|].
  split; [intros Na Nb k; apply obj_get_spread; assumption|].
  intros g' N. rewrite (F g' N). apply game_of_same, H1.
Qed.

(** X27.  [cancelGame] on a game that exists, in a calm world, stores it as
    cancelled with the current time as end time, whatever its status was.
    A reason that is given and not empty is stored under [cancelReason]
    and the rest of the data bag is kept; without one the data bag is as it
    was.  Players and start time are kept. *)
Theorem cancelGame_cancels gameId reason w s :
  calm w ->
  game_of w gameId = Some (Some s) ->
  exists w' data,
    cancelGame gameId reason w = (Ok true, w') /\
    game_of w' gameId
    = Some (Some (mkGame (gs_gameId s) (gs_type s) Cancelled (gs_players s)
                         (gs_startedAt s) (Some (iso (now w))) data)) /\
    (forall r, reason = Some r -> r <> "" ->
       forall k, obj_get k data
                 = if decide (k = "cancelReason") then Some (JStr r)
                   else obj_get k (gs_data s)) /\
    (reason = None \/ reason = Some "" -> data = gs_data s) /\
    (forall g', g' <> gameId -> game_of w' g' = game_of w g').
Proof.
  intros C G. unfold cancelGame. open_game gameId w (Some s) C G.
  rewrite (bind_Ok _ _ _ _ _ (new_Date_run w1)). rewrite N1.
  commit gameId (tick w1) S1.
  assert (Fr : forall g', g' <> gameId -> game_of w' g' = game_of w g').
  { intros g' N. rewrite (F g' N). apply game_of_same, same_held_tick_of, H1. }
  destruct reason as [r|].
  - destruct (String.eqb_spec r "") as [->|Hr]; cbn [negb] in *.
    + eexists w', _. split; [exact E|]. split; [exact G'|].
      split; [intros r' Er Hr'; inversion Er; congruence|].
      split; [reflexivity|exact Fr].
    + eexists w', _. split; [exact E|]. split; [exact G'|].
      split; [|split; [|exact Fr]].
      * intros r' Er _ k. inversion Er; subst r'. apply obj_get_set.
      * intros [Er|Er]; inversion Er; congruence.
  - eexists w', _. split; [exact E|]. split; [exact G'|].
    split; [discriminate|]. split; [reflexivity|exact Fr].
Qed.

(** ** Scores and bets *)

(** Making room for a push: afterwards the field holds an array, with the
    entries it had if it was one and none otherwise; the other fields are
    untouched. *)
Lemma room_for_push field data :
  pushable (obj_get field data) = true ->
  let data1 :=
    match obj_get field data with
    | Some v => if js_truthy v then data else obj_set field (JArr []) data
    | None => obj_set field (JArr []) data
    end in
  obj_get field data1 = Some (JArr (entries field data)) /\
  forall k, k <> field -> obj_get k data1 = obj_get k data.
Proof.
  intros P. unfold entries. cbv zeta.
  assert (Fresh : obj_get field (obj_set field (JArr []) data) = Some (JArr []) /\
                  forall k, k <> field ->
                    obj_get k (obj_set field (JArr []) data) = obj_get k data).
  { split; [|intros k N]; rewrite obj_get_set;
      destruct (decide _); congruence. }
  destruct (obj_get field data) as [v|] eqn:E; [|exact Fresh].
  destruct v as [|b|z|s0|items|fields]; cbn [pushable js_truthy] in P |- *;
    [ | destruct b | destruct (z =? 0) | destruct (String.eqb s0 "") | | ];
    cbn [negb] in P |- *; try discriminate P; try exact Fresh.
  split; [exact E|reflexivity].
Qed.

Lemma no_room_for_push field data :
  pushable (obj_get field data) = false ->
  exists v,
    obj_get field data = Some v /\ js_truthy v = true /\
    forall items, v <> JArr items.
Proof.
  intros P. destruct (obj_get field data) as [v|]; [|discriminate P].
  exists v. split; [reflexivity|].
  destruct v as [|b|z|s0|items|fields]; cbn [pushable js_truthy] in P |- *;
    [ | destruct b | destruct (z =? 0) | destruct (String.eqb s0 "") | | ];
    cbn [negb] in P |- *; try discriminate P;
    (split; [reflexivity|intros items; discriminate]).
Qed.

(** X28.  [recordScore] on a game that exists, in a calm world.  When the
    [scores] field of the data bag is undefined, falsy or an array, the
    call answers true and the stored bag has the old entries (none, unless
    it was an array) followed by the new one, stamped with the current time;
    the other fields are kept.  When [scores] is anything else (a string
    that is not empty, a number that is not 0, true, an object) the call
    throws a TypeError and nothing is stored. *)
Theorem recordScore_appends gameId userId score w s :
  calm w ->
  game_of w gameId = Some (Some s) ->
  (pushable (obj_get "scores" (gs_data s)) = true ->
   exists w' data,
     recordScore gameId userId score w = (Ok true, w') /\
     game_of w' gameId = Some (Some (game_set_data data s)) /\
     entries "scores" data
     = entries "scores" (gs_data s)
       ++ [JObj [("userId", JStr userId); ("score", JNum score);
                 ("timestamp", JStr (iso (now w)))]] /\
     (forall k, k <> "scores" -> obj_get k data = obj_get k (gs_data s)) /\
     (forall g', g' <> gameId -> game_of w' g' = game_of w g')) /\
  (pushable (obj_get "scores" (gs_data s)) = false ->
   exists w',
     recordScore gameId userId score w = (Throw TypeError, w') /\
     same_held w w').
Proof.
  intros C G. split; intros P.
  - destruct (room_for_push "scores" (gs_data s) P) as [Hg Hk]. cbv zeta in Hg, Hk.
    unfold recordScore. open_game gameId w (Some s) C G.
    rewrite (bind_Ok _ _ _ _ _ (new_Date_run w1)). rewrite N1, Hg.
    commit gameId (tick w1) S1.
    eexists w', _. split; [exact E|]. split; [exact G'|].
    split; [|split].
    + unfold entries at 1. rewrite obj_get_set.
      destruct (decide ("scores" = "scores")); [reflexivity|congruence].
    + intros k N. rewrite obj_get_set.
      destruct (decide (k = "scores")); [congruence|]. apply Hk, N.
    + intros g' N. rewrite (F g' N).
      apply game_of_same, same_held_tick_of, H1.
  - destruct (no_room_for_push _ _ P) as (v & Ev & Tv & Nv).
    unfold recordScore. open_game gameId w (Some s) C G.
    rewrite (bind_Ok _ _ _ _ _ (new_Date_run w1)). rewrite Ev, Tv, Ev.
    exists (tick w1). split.
    + destruct v; try reflexivity. exfalso. exact (Nv _ eq_refl).
    + apply same_held_tick_of, H1.
Qed.

Lemma find_bet_after userId bets bet :
  find_bet userId bets = Ok None ->
  obj_get "userId" bet = Some (JStr userId) ->
  find_bet userId (bets ++ [JObj bet]) = Ok (Some (JObj bet)).
Proof.
  intros H Hb. induction bets as [|b bets IH]; cbn [find_bet app].
  - rewrite Hb. destruct (decide (userId = userId)); [reflexivity|congruence].
  - cbn [find_bet] in H. destruct b as [|?|?|?|?|fields]; try discriminate H; auto.
    destruct (obj_get "userId" fields) as [[|?|?|u|?|?]|]; auto.
    destruct (decide (u = userId)); [discriminate H|auto].
Qed.

Lemma bind_outcome {A B} (o : outcome A) (k : A -> M B) w :
  bind (fun w => (o, w)) k w
  = match o with Ok a => k a w | Throw e => (Throw e, w) end.
Proof. destruct o; reflexivity. Qed.

Lemma placeBet_run gameId userId choice amount w s :
  calm w ->
  game_of w gameId = Some (Some s) ->
  gs_type s = "flaskgamba" ->
  pushable (obj_get "bets" (gs_data s)) = true ->
  let bets := entries "bets" (gs_data s) in
  match find_bet userId bets with
  | Ok (Some _) => refuses (placeBet gameId userId choice amount) w
  | Ok None =>
      exists w' data,
        placeBet gameId userId choice amount w = (Ok true, w') /\ calm w' /\
        game_of w' gameId = Some (Some (game_set_data data s)) /\
        entries "bets" data
        = bets ++ [JObj [("userId", JStr userId); ("choice", JStr choice);
                         ("amount", JNum amount);
                         ("timestamp", JStr (iso (now w)))]] /\
        pushable (obj_get "bets" data) = true /\
        (forall k, k <> "bets" -> obj_get k data = obj_get k (gs_data s)) /\
        (forall g', g' <> gameId -> game_of w' g' = game_of w g')
  | Throw e =>
      exists w', placeBet gameId userId choice amount w = (Throw e, w') /\
                 same_held w w'
  end.
Proof.
  intros C G T P bets.
  destruct (room_for_push "bets" (gs_data s) P) as [Hg Hk]. cbv zeta in Hg, Hk.
  unfold placeBet, refuses. open_game gameId w (Some s) C G.
  rewrite ?bind_assoc, ?bind_ret. cbv beta iota.
  rewrite T. cbn [String.eqb Ascii.eqb Bool.eqb negb]. rewrite Hg. fold bets.
  rewrite bind_outcome.
  destruct (find_bet userId bets) as [[b|]|e].
  - eexists. split; [reflexivity|]. intros k. rewrite held_push. apply H1.
  - rewrite (bind_Ok _ _ _ _ _ (new_Date_run w1)). rewrite N1.
    commit gameId (tick w1) S1.
    eexists w', _. split; [exact E|]. split; [exact (proj1 S)|].
    split; [exact G'|]. split; [|split; [|split]].
    + unfold entries at 1. rewrite obj_get_set.
      destruct (decide ("bets" = "bets")); [reflexivity|congruence].
    + rewrite obj_get_set.
      destruct (decide ("bets" = "bets")); [reflexivity|congruence].
    + intros k N. rewrite obj_get_set.
      destruct (decide (k = "bets")); [congruence|]. apply Hk, N.
    + intros g' N. rewrite (F g' N).
      apply game_of_same, same_held_tick_of, H1.
  - exists w1. split; [reflexivity|exact H1].
Qed.

(** X29.  One bet per user.  On a flaskgamba game whose [bets] field is
    undefined, falsy or an array without a bet of the user, [placeBet] in a
    calm world answers true and stores the bet, stamped with the current
    time, after the bets there were; a second bet of the same user, whatever
    its choice and amount, is then refused and nothing is stored.  On a game
    of another type the bet is refused. *)
Theorem placeBet_once_per_user gameId userId choice amount choice' amount' w s :
  calm w ->
  game_of w gameId = Some (Some s) ->
  (gs_type s = "flaskgamba" ->
   pushable (obj_get "bets" (gs_data s)) = true ->
   find_bet userId (entries "bets" (gs_data s)) = Ok None ->
   exists w1 data,
     placeBet gameId userId choice amount w = (Ok true, w1) /\
     game_of w1 gameId = Some (Some (game_set_data data s)) /\
     entries "bets" data
     = entries "bets" (gs_data s)
       ++ [JObj [("userId", JStr userId); ("choice", JStr choice);
                 ("amount", JNum amount); ("timestamp", JStr (iso (now w)))]] /\
     (forall k, k <> "bets" -> obj_get k data = obj_get k (gs_data s)) /\
     refuses (placeBet gameId userId choice' amount') w1) /\
  (gs_type s <> "flaskgamba" ->
   refuses (placeBet gameId userId choice amount) w).
Proof.
  intros C G. split.
  - intros T P Hf.
    pose proof (placeBet_run gameId userId choice amount w s C G T P) as R.
    cbv zeta in R. rewrite Hf in R.
    destruct R as (w1 & data & E & C1 & G1 & En & P1 & Hk & _).
    exists w1, data. split; [exact E|]. split; [exact G1|].
    split; [exact En|]. split; [exact Hk|].
    pose proof (placeBet_run gameId userId choice' amount' w1
                  (game_set_data data s) C1 G1 T P1) as R2.
    cbv zeta in R2. cbn [gs_data game_set_data] in R2. rewrite En in R2.
    rewrite (find_bet_after _ _ _ Hf) in R2; [exact R2|].
    cbn. reflexivity.
  - intros T. unfold placeBet, refuses. open_game gameId w (Some s) C G.
    rewrite ?bind_assoc, ?bind_ret. cbv beta iota.
    destruct (String.eqb_spec (gs_type s) "flaskgamba") as [Et|_]; [contradiction|].
    cbn [negb]. eexists. split; [reflexivity|].
    intros k. rewrite held_push. apply H1.
Qed.

(** X30.  A flaskgamba round.  In a calm world [createFlaskGambaRound]
    answers the id ["flaskgamba-" ++ now] and the game under that id is a
    pending flaskgamba game that carries the channel, the question, the
    options and an empty list of bets; a first bet on it is accepted and is
    then the only bet of the round. *)
Theorem createFlaskGambaRound_opens channelId question options
    userId choice amount w :
  calm w ->
  let id := "flaskgamba-" +:+ pretty (ms (now w)) in
  let round :=
    mkGame id "flaskgamba" Pending [] None None
           [("channelId", JStr channelId); ("question", JStr question);
            ("options", JArr (map JStr options)); ("bets", JArr [])] in
  exists w1 w2 data,
    createFlaskGambaRound channelId question options w = (Ok (Some id), w1) /\
    game_of w1 id = Some (Some round) /\
    placeBet id userId choice amount w1 = (Ok true, w2) /\
    game_of w2 id = Some (Some (game_set_data data round)) /\
    entries "bets" data
    = [JObj [("userId", JStr userId); ("choice", JStr choice);
             ("amount", JNum amount); ("timestamp", JStr (iso (now w1)))]].
Proof.
  intros C id round.
  destruct (createGame_calm id "flaskgamba" (gs_data round) (tick w)
              (calm_tick _ C)) as (w1 & E & C1 & G & _).
  pose proof (placeBet_run id userId choice amount w1 round C1 G eq_refl eq_refl)
    as R.
  cbv zeta in R. cbn in R.
  destruct R as (w2 & data & E2 & _ & G2 & En & _).
  exists w1, w2, data. split.
  { unfold createFlaskGambaRound.
    rewrite (bind_Ok _ _ _ _ _ (Date_now_run w)). fold id.
    change [("channelId", JStr channelId); ("question", JStr question);
            ("options", JArr (map JStr options)); ("bets", JArr [])]
      with (gs_data round).
    rewrite (bind_Ok _ _ _ _ _ E). reflexivity. }
  split; [exact G|]. split; [exact E2|]. split; [exact G2|exact En].
Qed.

(** * Worked examples *)

(** The example of the specification: 45, then 30 (not better), then 80,
    then a refused fourth roll. *)
Example three_rolls_then_refused :
  let w1 := play "cup" [("u1", "Alice")] cup_world in
  let w2 := play "cup" [("u1", "Alice")] w1 in
  let w3 := play "cup" [("u1", "Alice")] w2 in
  stored_roll w1 "cup" "u1" = Some (mkRoll "u1" "Alice" 45 2000 1) /\
  stored_roll w2 "cup" "u1" = Some (mkRoll "u1" "Alice" 45 2000 2) /\
  stored_roll w3 "cup" "u1" = Some (mkRoll "u1" "Alice" 80 4000 3) /\
  fst (processUserRoll "cup" "u1" "Alice" w3)
  = Ok (mkRollResult false None "You have used all 3 rolls").
Proof. vm_compute. repeat split; reflexivity. Qed.

(** Doubles at work.  0.1 is read as 3602879701896397 / 2^55.  The
    quotients 58/100, 70/100 and 29/100 are rounded down, and 50, 90 and 100
    times them stay below 29, 63 and 29.  The double written
    89.99999999999999 gives, with ten rolls, a product of exactly 9.  The
    double written 0.7 is below 0.7, but ten times it is halfway between 7
    and the double before it and is rounded to 7: the draw is 8. *)
Example doubles_at_work :
  (round_double 0.1 == 3602879701896397 # 36028797018963968)%Q /\
  eliminateCount 50 58 = 28 /\
  eliminateCount 90 70 = 62 /\
  eliminateCount 100 29 = 28 /\
  eliminateCount 10 (round_double 89.99999999999999) = 9 /\
  (round_double 0.7 < 0.7)%Q /\
  draw (round_double 0.7) 10 = 8.
Proof. vm_compute. repeat split; reflexivity. Qed.

(** Why the range of a draw is stated for doubles.  The rational
    [1 - 2^-60] is below 1 and is no double; ten times it is rounded to 10,
    and the draw would be 11.  [Math.random] cannot return it: the doubles
    below 1 end at [1 - 2^-53], which draws 10. *)
Example draw_of_a_rational_that_is_no_double :
  (1 - (1 # 1152921504606846976) < 1)%Q /\
  ~ representable (1 - (1 # 1152921504606846976)) /\
  draw (1 - (1 # 1152921504606846976)) 10 = 11 /\
  representable (1 - (1 # 9007199254740992)) /\
  draw (1 - (1 # 9007199254740992)) 10 = 10.
Proof.
  split; [reflexivity|]. split.
  { intros R. apply round_double_of_double in R. vm_compute in R. discriminate R. }
  split; [vm_compute; reflexivity|]. split; [|vm_compute; reflexivity].
  exists 9007199254740991, (-53).
  split; [vm_compute; reflexivity|]. split; [reflexivity|discriminate].
Qed.

(** At 150% with two rolls, [eliminateCount] is 3 and one entry is
    eliminated.  At 58% with fifty rolls the quotient is the double below
    0.58 and the product the double below 29: 28 entries are eliminated,
    where [floor (50 * 58 / 100)] is 29. *)
Lemma C1_counterexample :
  (eliminateCount 2 150 = 3 /\
   exists w',
     endRound "cup" 150 two_world
     = (Ok (mkEndRoundResult true "Tournament complete! Winner: Player2"
              (Some ["u1"])), w')) /\
  (Qfloor (50 * 58 / 100)%Q = 29 /\
   eliminateCount 50 58 = 28 /\
   exists res w',
     endRound "cup" 58 fifty_world = (Ok res, w') /\
     option_map (@length string) (er_eliminated res) = Some 28%nat).
Proof.
  split; [split; [reflexivity|]; eexists; vm_compute; reflexivity|].
  split; [reflexivity|]. split; [vm_compute; reflexivity|].
  eexists _, _. split; [vm_compute; reflexivity|]. reflexivity.
Qed.

(** Ten entrants at 50%: five are eliminated. *)
Lemma C1_witness :
  eliminateCount 10 50 = 5 /\
  length (drop (Z.to_nat (10 - eliminateCount 10 50))
               (Array_sort by_roll_desc ten_rolls)) = 5%nat.
Proof.
  assert (T : round_slot_typed ten_world "cup" (cfg_currentRound cup))
    by (intros d H; vm_compute in H; discriminate H).
  assert (S : Z.of_nat (length ten_rolls) < 2 ^ 32) by (vm_compute; reflexivity).
  assert (P0 : (0 <= 50)%Q) by (vm_compute; discriminate).
  assert (P100 : (50 <= 100)%Q) by (vm_compute; discriminate).
  destruct (C1_elimination_within_0_100 "cup" 50 ten_world cup ten_rolls
              (conj eq_refl eq_refl) eq_refl eq_refl eq_refl eq_refl
              ltac:(discriminate) S T P0 P100)
    as (_ & _ & _ & _ & _ & _ & _ & F & _ & _ & _ & H).
  split; [exact (F (Qeq_refl 50)) | apply H; reflexivity].
Defined.

(** The second call of u1 in "cup" draws 30 against a stored 45: the roll
    stays, the count goes to 2, and the message names the 30. *)
Lemma C2_witness :
  within_limit cup_after_one_roll "cup" 3 /\
  exists w2,
    processUserRoll "cup" "u1" "Alice" cup_after_one_roll
    = (Ok (mkRollResult true (Some (mkRoll "u1" "Alice" 45 2000 1))
             "Rolled 30, but your previous roll of 45 was better. (2/3 rolls used)"),
       w2) /\
    stored_roll w2 "cup" "u1" = Some (mkRoll "u1" "Alice" 45 2000 2).
Proof.
  assert (I : within_limit cup_world "cup" (cfg_rollLimit cup))
    by (intros v r H; vm_compute in H; discriminate H).
  assert (L : 1 <= cfg_rollLimit cup) by (vm_compute; discriminate).
  destruct (C2_roll_limit_and_best_of "cup" cup cup_world [("u1", "Alice")]
              (conj eq_refl eq_refl) eq_refl L I) as (W & _ & H).
  split; [exact W|].
  assert (D : ms (now (play "cup" [("u1", "Alice")] cup_world)) <= cfg_deadline cup)
    by (vm_compute; discriminate).
  destruct (H "u1" "Alice" (mkRoll "u1" "Alice" 45 2000 1) eq_refl eq_refl D)
    as (_ & N & _).
  apply N; vm_compute; [reflexivity|discriminate].
Defined.

(** Two participants at 50%: one is eliminated, and the tournament completes
    with the one who rolled 20 as winner, not the one who rolled 10 and was
    recorded first. *)
Lemma C3_witness :
  exists res w',
    endRound "cup" 50 two_world = (Ok res, w') /\
    er_message res = "Tournament complete! Winner: Player2" /\
    option_map cfg_status (stored_config w' "cup") = Some COMPLETED.
Proof.
  assert (T : round_slot_typed two_world "cup" (cfg_currentRound cup))
    by (intros d H; vm_compute in H; discriminate H).
  destruct (C3_completion "cup" 50 two_world cup two_rolls
              (conj eq_refl eq_refl) eq_refl eq_refl eq_refl eq_refl
              ltac:(discriminate) T) as [H _].
  destruct H as (top & res & w' & t & Htop & _ & _ & E & _ & M & C & _).
  - vm_compute. discriminate.
  - exists res, w'. split; [exact E|]. split.
    + rewrite M. vm_compute in Htop. inversion Htop. reflexivity.
    + rewrite C. reflexivity.
Defined.

(** A fault of the client during [getTournamentConfig] comes out as null.
    The same for a later command: with two configurations stored, the scan
    and the first fetch accepted and the second fetch rejected, the listing
    is empty. *)
Lemma C4_counterexample :
  (redisEnabled outage_world = true /\
   redisFaults outage_world = [true] /\
   fst (getTournamentConfig "cup" outage_world) = Ok None /\
   forall msg, ~ fail_loud (getTournamentConfig "cup") msg) /\
  (redisFaults late_outage_world = [false; false; true] /\
   length (scanned_keys late_outage_world) = 2%nat /\
   exists w',
     listActiveTournaments late_outage_world = (Ok [], w') /\
     rejected late_outage_world w' /\
     head (trace w') = Some (Log LError "Failed to list active tournaments")).
Proof.
  split.
  - split; [reflexivity|]. split; [reflexivity|]. split; [reflexivity|].
    intros msg H. destruct (H outage_world [] eq_refl eq_refl) as (w' & E & _).
    vm_compute in E. discriminate E.
  - split; [reflexivity|]. split; [vm_compute; reflexivity|].
    eexists. split; [vm_compute; reflexivity|].
    split; [|reflexivity]. unfold rejected. vm_compute.
    apply list_elem_of_here || (do 2 apply list_elem_of_further; apply list_elem_of_here).
Qed.

(** One good entry and one that is not JSON: the read is empty. *)
Lemma C5_counterexample :
  kv damaged_world !! "tournament:rolls:cup" = Some (RHash damaged_hash) /\
  JSON_parse_text (Json (DRoll (entrant 1 40))) = Ok (DRoll (entrant 1 40)) /\
  fst (getAllUserRolls "cup" damaged_world) = Ok [].
Proof. vm_compute. repeat split; reflexivity. Qed.

(** The same read, through the theorem: empty, and logged. *)
Lemma C5_witness :
  exists w',
    getAllUserRolls "cup" damaged_world = (Ok [], w') /\
    head (trace w') = Some (Log LError "Failed to get all user rolls").
Proof.
  destruct (C5_one_bad_entry_empties_the_read "cup" damaged_world damaged_hash
              (conj eq_refl eq_refl) eq_refl) as [_ H].
  apply H. right. left. exists SyntaxError. reflexivity.
Defined.

(** [cancelTournament] on a completed tournament stores cancelled. *)
Lemma C6_counterexample :
  option_map cfg_status (stored_config finished_world "cup") = Some COMPLETED /\
  fst (cancelTournament "cup" finished_world) = Ok true /\
  option_map cfg_status
    (stored_config (snd (cancelTournament "cup" finished_world)) "cup")
  = Some CANCELLED.
Proof. vm_compute. repeat split; reflexivity. Qed.

(** The same call, through the theorem. *)
Lemma C6_witness :
  exists w',
    cancelTournament "cup" finished_world = (Ok true, w') /\
    stored_config w' "cup" = Some (set_status CANCELLED 2000 finished_cup).
Proof.
  destruct (C6_status_transitions "cup" finished_world finished_cup
              (conj eq_refl eq_refl) eq_refl eq_refl) as (_ & _ & _ & H & _).
  exact H.
Defined.

(** The listing scans every key under [tournament:].  Right after
    [createTournament] it holds two entries, one of them the round data of
    round 1; once a roll is stored, the roll hash under the same prefix makes
    [GET] fail and the listing comes back empty although the tournament is
    still stored. *)
Example listing_scans_foreign_keys :
  let created := createTournament "Cup" 100 1 24 "chan" fresh_world in
  let w1 := snd created in
  let w2 := snd (processUserRoll "tournament-2000" "u1" "Alice" w1) in
  exists c,
    fst created = Ok c /\
    fst (listActiveTournaments w1)
    = Ok [DRound (mkRound 1 2000 None [] [] None); DConfig c] /\
    stored_config w2 "tournament-2000" = Some c /\
    fst (listActiveTournaments w2) = Ok [].
Proof. eexists. vm_compute. repeat split; reflexivity. Qed.

(** C9 (the code at the failing input).  User u1 holds 45, rolled at
    2000 ms; the same user's second call, at 3000 ms, draws 30: the call
    succeeds and the stored timestamp is still 2000. *)
Theorem C9_timestamp_kept_when_not_better :
  ms (now cup_after_one_roll) = 3000 /\
  stored_roll cup_after_one_roll "cup" "u1" = Some (mkRoll "u1" "Alice" 45 2000 1) /\
  fst (processUserRoll "cup" "u1" "Alice" cup_after_one_roll)
  = Ok (mkRollResult true (Some (mkRoll "u1" "Alice" 45 2000 1))
          "Rolled 30, but your previous roll of 45 was better. (2/3 rolls used)") /\
  stored_roll (snd (processUserRoll "cup" "u1" "Alice" cup_after_one_roll))
              "cup" "u1"
  = Some (mkRoll "u1" "Alice" 45 2000 2).
Proof. vm_compute. repeat split; reflexivity. Qed.

(** Two configurations and nothing else: both are listed. *)
Lemma C7_witness :
  exists l,
    fst (listActiveTournaments two_configs_world) = Ok l /\
    Permutation l [DConfig cup; DConfig league].
Proof.
  eexists. split.
  - apply (C7_listing_of_config_keys two_configs_world (conj eq_refl eq_refl)).
    vm_compute. reflexivity.
  - vm_compute. repeat constructor.
Defined.

(** One configuration record that is not JSON empties the listing, although
    the other one is stored and deserializes. *)
Lemma C7_counterexample :
  stored_config damaged_config_world "cup" = Some cup /\
  fst (listActiveTournaments damaged_config_world) = Ok [].
Proof. vm_compute. split; reflexivity. Qed.

(** ** Instances of the further properties *)

Ltac by_decide :=
  match goal with |- ?P => exact (bool_decide_unpack P I) end.

Lemma tournament_store_round_trips_witness :
  exists w1 w2,
    saveTournamentConfig cup fresh_world = (Ok tt, w1) /\
    getTournamentConfig "cup" w1 = (Ok (Some (DConfig cup)), w2).
Proof.
  exact (proj1 (tournament_store_round_trips cup "cup" "u1" (entrant 1 40) 1
                  (mkRound 1 1000 None [] [] None)
                  (mkStats 1 1 0 1 40 (Some (entrant 1 40)) (Some (entrant 1 40)))
                  fresh_world (conj eq_refl eq_refl))).
Defined.

Lemma createTournament_opens_round_one_witness :
  exists c w',
    createTournament "Cup" 100 3 24 "chan" fresh_world = (Ok c, w') /\
    cfg_id c = "tournament-2000" /\ cfg_deadline c = 86402000.
Proof.
  destruct (createTournament_opens_round_one "Cup" 100 3 24 "chan" fresh_world
              (conj eq_refl eq_refl))
    as (c & w' & E & _ & I & _ & _ & _ & _ & D & _).
  exists c, w'. split; [exact E|]. split; [rewrite I|rewrite D]; reflexivity.
Defined.

Lemma createTournament_same_millisecond_witness :
  exists c1 w1 c2 w2,
    createTournament "Cup" 100 3 24 "chan" still_world = (Ok c1, w1) /\
    createTournament "League" 50 2 1 "chan" w1 = (Ok c2, w2) /\
    cfg_name c2 = "League" /\
    stored_config w2 (cfg_id c1) = Some c2.
Proof.
  destruct (createTournament_same_millisecond
              "Cup" 100 3 24 "chan" "League" 50 2 1 "chan" still_world
              (conj eq_refl eq_refl) eq_refl)
    as (c1 & w1 & c2 & w2 & E1 & E2 & _ & N2 & _ & S).
  exists c1, w1, c2, w2. repeat split; assumption.
Defined.

Lemma getLeaderboard_ranking_witness :
  exists w',
    getLeaderboard "cup" 3 ten_world
    = (Ok [entrant 6 100; entrant 2 90; entrant 10 80], w').
Proof.
  destruct (getLeaderboard_ranking "cup" 3 ten_world ten_rolls
              (conj eq_refl eq_refl) eq_refl) as (w' & E & _).
  exists w'. exact E.
Defined.

Lemma calculateStats_summary_witness :
  exists st w',
    calculateStats "cup" ten_world = (Ok (Some st), w') /\
    ts_totalParticipants st = 10 /\ ts_eliminatedParticipants st = 0.
Proof.
  destruct (proj2 (calculateStats_summary "cup" ten_world ten_rolls
                     (conj eq_refl eq_refl) eq_refl) ltac:(discriminate))
    as (st & w' & hi & lo & E & _ & P & _ & Z0 & _).
  exists st, w'. split; [exact E|]. split; [exact P|exact Z0].
Defined.

Lemma endRound_without_readable_rolls_witness :
  exists w',
    endRound "cup" 50 damaged_world
    = (Ok (mkEndRoundResult false "No participants in this round" None), w').
Proof.
  destruct (endRound_without_readable_rolls "cup" 50 damaged_world cup
              (conj eq_refl eq_refl) eq_refl eq_refl) as (w' & E & _).
  - intros h H. vm_compute in H. inversion H. right.
    apply Exists_cons_tl, Exists_cons_hd. exists SyntaxError. reflexivity.
  - exists w'. exact E.
Defined.

Lemma endRound_starts_next_round_witness :
  exists res w',
    endRound "cup" 50 ten_world = (Ok res, w') /\
    er_message res = "Round 1 ended. 5 players eliminated. Starting round 2!" /\
    recorded_rolls w' "cup" = Some [].
Proof.
  assert (T : round_slot_typed ten_world "cup" (cfg_currentRound cup))
    by (intros d H; vm_compute in H; discriminate H).
  destruct (endRound_starts_next_round "cup" 50 ten_world cup ten_rolls
              (conj eq_refl eq_refl) eq_refl eq_refl eq_refl eq_refl
              ltac:(discriminate) T eq_refl)
    as (res & w' & t & t' & keep & gone & E & _ & _ & M & _ & _ & _ & _ & _ & _ & R).
  exists res, w'. split; [exact E|]. split; [rewrite M; reflexivity|exact R].
Defined.

Lemma endRound_again_is_refused_witness :
  exists res w1 msg w2,
    endRound "cup" 50 cup_after_one_roll = (Ok res, w1) /\
    endRound "cup" 50 w1 = (Ok (mkEndRoundResult false msg None), w2).
Proof.
  assert (T : round_slot_typed cup_after_one_roll "cup" (cfg_currentRound cup))
    by (intros d H; vm_compute in H; discriminate H).
  destruct (endRound_again_is_refused "cup" 50 50 cup_after_one_roll cup
              [mkRoll "u1" "Alice" 45 2000 1]
              (conj eq_refl eq_refl) eq_refl eq_refl eq_refl eq_refl
              ltac:(discriminate) T)
    as (res & w1 & msg & w2 & E1 & _ & E2 & _).
  exists res, w1, msg, w2. split; assumption.
Defined.

Lemma processUserRoll_touches_one_entry_witness :
  stored_config (snd (processUserRoll "cup" "u1" "Alice" two_configs_world)) "league"
  = Some league.
Proof.
  exact (proj1 (proj2 (processUserRoll_touches_one_entry "cup" "u1" "Alice"
                         two_configs_world cup (conj eq_refl eq_refl) eq_refl))
           "league").
Defined.

Lemma stored_rolls_stay_in_range_witness :
  exists r,
    stored_roll (snd (processUserRoll "cup" "u1" "Alice" cup_world)) "cup" "u1"
    = Some r /\
    1 <= ur_roll r <= 100.
Proof.
  assert (L : 1 <= cfg_maxRoll cup) by (vm_compute; discriminate).
  assert (H0 : (0 <= hd 0 (random cup_world))%Q) by (vm_compute; discriminate).
  assert (H1 : (hd 0 (random cup_world) < 1)%Q) by (vm_compute; reflexivity).
  assert (Hd : representable (hd 0%Q (random cup_world))).
  { exists 57, (-7). split; [reflexivity|]. split; [reflexivity|discriminate]. }
  assert (Hin : forall v r, stored_roll cup_world "cup" v = Some r ->
                            1 <= ur_roll r <= cfg_maxRoll cup)
    by (intros v r H; vm_compute in H; discriminate H).
  exists (mkRoll "u1" "Alice" 45 2000 1). split; [reflexivity|].
  exact (stored_rolls_stay_in_range "cup" "u1" "Alice" cup_world cup
           (conj eq_refl eq_refl) eq_refl L H0 H1 Hd Hin "u1" _ eq_refl).
Defined.

Lemma processUserRoll_gate_witness :
  exists w',
    processUserRoll "cup" "u1" "Alice" fresh_world
    = (Ok (mkRollResult false None "Tournament not found"), w').
Proof.
  destruct (proj1 (processUserRoll_gate "cup" "u1" "Alice" fresh_world
                     (conj eq_refl eq_refl)) eq_refl) as (w' & E & _).
  exists w'. exact E.
Defined.

Lemma retrieveData_reads_through_witness :
  exists w',
    retrieveData "game:quiz:state" quiz_world
    = (Ok (Some (Json (DGame quiz))), w') /\
    disk w' = disk quiz_world.
Proof.
  destruct (proj1 (proj2 (retrieveData_reads_through "game:quiz:state" quiz_world
                            (conj eq_refl eq_refl)))
              (Json (DGame quiz)) eq_refl eq_refl) as (w' & E & D & _).
  exists w'. split; assumption.
Defined.

Lemma store_then_retrieve_witness :
  exists w1 w2,
    storeData "motd" (Corrupt "hello") (mkOptions None None) offline_world
    = (Ok true, w1) /\
    retrieveData "motd" w1 = (Ok (Some (Corrupt "hello")), w2).
Proof.
  exact (proj1 (store_then_retrieve "motd" (Corrupt "hello") (DGame quiz)
                  (mkOptions None None) offline_world (conj eq_refl eq_refl))).
Defined.

Lemma stale_read_after_a_failed_cache_write_witness :
  exists w1 w2,
    storeData "motd" (Corrupt "new") (mkOptions None None) flaky_world
    = (Ok true, w1) /\
    disk w1 !! cachePath "motd" = Some [Corrupt "new"] /\
    retrieveData "motd" w1 = (Ok (Some (Corrupt "old")), w2).
Proof.
  exact (stale_read_after_a_failed_cache_write "motd" (Corrupt "old")
           (Corrupt "new") (mkOptions None None) flaky_world
           eq_refl eq_refl eq_refl eq_refl).
Defined.

Lemma removeData_removes_witness :
  exists w' w'',
    removeData "game:quiz:state" quiz_world = (Ok true, w') /\
    retrieveData "game:quiz:state" w' = (Ok None, w'').
Proof.
  destruct (removeData_removes "game:quiz:state" quiz_world (conj eq_refl eq_refl))
    as (w' & w'' & E & _ & _ & R).
  exists w', w''. split; [exact E|exact R].
Defined.

Lemma dataExists_after_store_and_remove_witness :
  exists w1 w2,
    storeData "motd" (Corrupt "hello") (mkOptions None None) offline_world
    = (Ok true, w1) /\
    dataExists "motd" w1 = (Ok true, w2).
Proof.
  exact (proj1 (dataExists_after_store_and_remove "motd" (Corrupt "hello")
                  (mkOptions None None) offline_world (conj eq_refl eq_refl))).
Defined.

Lemma retrieveJSON_soft_witness :
  exists w', retrieveJSON "game:quiz:state" torn_world = (Ok None, w').
Proof.
  apply (proj1 (proj2 (retrieveJSON_soft "game:quiz:state" torn_world
                         (conj eq_refl eq_refl)))
           (Corrupt "{oops") eq_refl).
  right. exists SyntaxError. reflexivity.
Defined.

Lemma user_session_round_trip_witness :
  exists w1 w2,
    storeUserSession "ann" (DGame quiz) offline_world = (Ok true, w1) /\
    retrieveUserSession "ann" w1 = (Ok (Some (DGame quiz)), w2) /\
    disk w1 !! "cache/session:ann.txt" = Some [Json (DGame quiz)].
Proof.
  destruct (user_session_round_trip "ann" (DGame quiz) offline_world
              (conj eq_refl eq_refl)) as (w1 & w2 & E & R & _ & D).
  exists w1, w2. split; [exact E|]. split; [exact R|].
  exact (proj2 (D eq_refl)).
Defined.

Lemma createGame_then_getGame_witness :
  exists w1 w2,
    createGame "quiz" "trivia" [("level", JNum 1)] offline_world = (Ok true, w1) /\
    getGame "quiz" w1
    = (Ok (Some (DGame (mkGame "quiz" "trivia" Pending [] None None
                               [("level", JNum 1)]))), w2).
Proof.
  destruct (createGame_then_getGame "quiz" "trivia" [("level", JNum 1)]
              offline_world (conj eq_refl eq_refl)) as (w1 & w2 & E & G & _).
  exists w1, w2. split; assumption.
Defined.

Lemma game_operations_need_a_game_witness :
  refuses (startGame "ghost") offline_world /\
  refuses (placeBet "ghost" "ann" "heads" 5) offline_world.
Proof.
  destruct (game_operations_need_a_game "ghost" "ann" [] None 0 "heads" 5
              offline_world (conj eq_refl eq_refl) eq_refl)
    as (S & _ & _ & _ & _ & _ & B).
  split; assumption.
Defined.

Lemma startGame_starts_witness :
  exists w',
    startGame "quiz" quiz_world = (Ok true, w') /\
    game_of w' "quiz"
    = Some (Some (mkGame "quiz" "trivia" Active ["ann"; "bob"]
                         (Some "1970-01-01T00:00:02.000Z") None
                         [("level", JNum 1)])).
Proof.
  destruct (startGame_starts "quiz" quiz_world quiz (conj eq_refl eq_refl) eq_refl)
    as (w' & E & _ & G & _).
  exists w'. split; assumption.
Defined.

Lemma addPlayer_joins_once_witness :
  exists w1 w2 s1,
    addPlayer "quiz" "cat" quiz_world = (Ok true, w1) /\
    game_of w1 "quiz" = Some (Some s1) /\
    gs_players s1 = ["ann"; "bob"; "cat"] /\
    addPlayer "quiz" "cat" w1 = (Ok true, w2) /\
    game_of w2 "quiz" = Some (Some s1).
Proof.
  destruct (addPlayer_joins_once "quiz" "cat" quiz_world quiz
              (conj eq_refl eq_refl) eq_refl)
    as (w1 & w2 & s1 & E1 & G1 & _ & New & _ & _ & _ & E2 & G2).
  exists w1, w2, s1. split; [exact E1|]. split; [exact G1|].
  split; [|split; assumption].
  rewrite New; [reflexivity|]. by_decide.
Defined.

Lemma removePlayer_leaves_witness :
  exists w' players,
    removePlayer "quiz" "ann" quiz_world = (Ok true, w') /\
    game_of w' "quiz" = Some (Some (game_set_players players quiz)) /\
    players = ["bob"].
Proof.
  destruct (removePlayer_leaves "quiz" "ann" quiz_world quiz
              (conj eq_refl eq_refl) eq_refl)
    as (w' & players & E & G & _ & First & _).
  exists w', players. split; [exact E|]. split; [exact G|].
  apply (First [] ["bob"] eq_refl). by_decide.
Defined.

Lemma removePlayer_undoes_addPlayer_witness :
  exists w1 w2,
    addPlayer "quiz" "cat" quiz_world = (Ok true, w1) /\
    removePlayer "quiz" "cat" w1 = (Ok true, w2) /\
    game_of w2 "quiz" = Some (Some quiz).
Proof.
  apply (removePlayer_undoes_addPlayer "quiz" "cat" quiz_world quiz
           (conj eq_refl eq_refl) eq_refl).
  by_decide.
Defined.

Lemma updateGameData_merges_witness :
  exists w' merged,
    updateGameData "quiz" [("level", JNum 2); ("mode", JStr "hard")] quiz_world
    = (Ok true, w') /\
    game_of w' "quiz" = Some (Some (game_set_data merged quiz)) /\
    obj_get "level" merged = Some (JNum 2) /\
    obj_get "mode" merged = Some (JStr "hard").
Proof.
  destruct (updateGameData_merges "quiz" [("level", JNum 2); ("mode", JStr "hard")]
              quiz_world quiz (conj eq_refl eq_refl) eq_refl)
    as (w' & merged & E & G & _ & L & _).
  exists w', merged. split; [exact E|]. split; [exact G|].
  assert (Na : NoDup (map fst (gs_data quiz)))
    by by_decide.
  assert (Nb : NoDup (map fst [("level", JNum 2); ("mode", JStr "hard")]))
    by by_decide.
  split; [exact (L Na Nb "level")|exact (L Na Nb "mode")].
Defined.

Lemma cancelGame_cancels_witness :
  exists w' data,
    cancelGame "quiz" (Some "rain") quiz_world = (Ok true, w') /\
    game_of w' "quiz"
    = Some (Some (mkGame "quiz" "trivia" Cancelled ["ann"; "bob"] None
                         (Some "1970-01-01T00:00:02.000Z") data)) /\
    obj_get "cancelReason" data = Some (JStr "rain").
Proof.
  destruct (cancelGame_cancels "quiz" (Some "rain") quiz_world quiz
              (conj eq_refl eq_refl) eq_refl)
    as (w' & data & E & G & R & _).
  exists w', data. split; [exact E|]. split; [exact G|].
  exact (R "rain" eq_refl ltac:(discriminate) "cancelReason").
Defined.

Lemma recordScore_appends_witness :
  exists w' data,
    recordScore "quiz" "ann" 7 quiz_world = (Ok true, w') /\
    game_of w' "quiz" = Some (Some (game_set_data data quiz)) /\
    entries "scores" data
    = [JObj [("userId", JStr "ann"); ("score", JNum 7);
             ("timestamp", JStr "1970-01-01T00:00:02.000Z")]].
Proof.
  destruct (proj1 (recordScore_appends "quiz" "ann" 7 quiz_world quiz
                     (conj eq_refl eq_refl) eq_refl) eq_refl)
    as (w' & data & E & G & En & _).
  exists w', data. split; [exact E|]. split; [exact G|exact En].
Defined.

Lemma placeBet_once_per_user_witness :
  exists w1 data,
    placeBet "poll" "ann" "heads" 5 poll_world = (Ok true, w1) /\
    game_of w1 "poll" = Some (Some (game_set_data data poll)) /\
    refuses (placeBet "poll" "ann" "tails" 50) w1.
Proof.
  destruct (proj1 (placeBet_once_per_user "poll" "ann" "heads" 5 "tails" 50
                     poll_world poll (conj eq_refl eq_refl) eq_refl)
              eq_refl eq_refl eq_refl)
    as (w1 & data & E & G & _ & _ & R).
  exists w1, data. split; [exact E|]. split; [exact G|exact R].
Defined.

Lemma createFlaskGambaRound_opens_witness :
  exists w1 w2,
    createFlaskGambaRound "chan" "Heads?" ["yes"; "no"] offline_world
    = (Ok (Some "flaskgamba-2000"), w1) /\
    placeBet "flaskgamba-2000" "ann" "yes" 5 w1 = (Ok true, w2).
Proof.
  destruct (createFlaskGambaRound_opens "chan" "Heads?" ["yes"; "no"] "ann" "yes" 5
              offline_world (conj eq_refl eq_refl))
    as (w1 & w2 & data & E & _ & B & _).
  exists w1, w2. split; [exact E|exact B].
Defined.

(** The rounds of "cup" after its first round ended at 50%: the record of
    the round that ended and the record of the round that began, in that
    order. *)
Example rounds_come_back_in_order :
  let w1 := snd (endRound "cup" 50 ten_world) in
  match fst (getAllRoundData "cup" w1) with
  | Ok rounds =>
      map rd_roundNumber rounds = [1; 2] /\
      map (fun r => length (rd_participants r)) rounds = [10; 5]%nat
  | Throw _ => False
  end.
Proof. vm_compute. split; reflexivity. Qed.

(** A game without a cache, from its creation to its start: the second
    [addPlayer] of the same player changes nothing. *)
Example a_game_from_creation_to_start :
  let w1 := snd (createGame "quiz" "trivia" [("level", JNum 1)] offline_world) in
  let w2 := snd (addPlayer "quiz" "ann" w1) in
  let w3 := snd (addPlayer "quiz" "ann" w2) in
  let w4 := snd (startGame "quiz" w3) in
  game_of w3 "quiz" = game_of w2 "quiz" /\
  game_of w4 "quiz"
  = Some (Some (mkGame "quiz" "trivia" Active ["ann"]
                       (Some "1970-01-01T00:00:05.000Z") None
                       [("level", JNum 1)])).
Proof. vm_compute. split; reflexivity. Qed.
